(** * file_checker_api/app.py: the upload-and-check endpoint

    A shallow embedding of [app_status] and [check_file_list] together with
    the part of their environment they act on: a POSIX file tree, the
    in-memory upload streams, the random source behind [uuid4] and the
    external [FileChecker].  Handlers are functions in a state-and-exception
    monad over that environment; the world after a raised exception is kept,
    since what is left on disk after a failure is part of what is verified. *)

From Stdlib Require Import NArith Ascii String.
From Equations.Prop Require Import Equations Logic.
From stdpp Require Import gmap strings list fin_maps functions.


(** ** Exceptions *)

(** The built-in exceptions the modelled calls raise, and [CheckerError] for
    whatever the external checker raises. *)
Inductive exn : Type :=
| FileExistsError
| FileNotFoundError
| NotADirectoryError
| IsADirectoryError
| PermissionError
| ValueError (msg : string)
| OSError (errno : string)
| CheckerError (msg : string).

(** ** Python strings *)

Module Str.

(** [s.split(sep)] for a one-character separator. *)
Fixpoint split (sep : ascii) (s : string) : list string :=
  match s with
  | EmptyString => [EmptyString]
  | String c s' =>
      if Ascii.eqb c sep then EmptyString :: split sep s'
      else match split sep s' with
           | [] => [String c EmptyString]
           | x :: xs => String c x :: xs
           end
  end.

(** [c in s]. *)
Fixpoint mem (c : ascii) (s : string) : bool :=
  match s with
  | EmptyString => false
  | String c' s' => Ascii.eqb c' c || mem c s'
  end.

(** [s.startswith(p)]. *)
Fixpoint startswith (p s : string) : bool :=
  match p, s with
  | EmptyString, _ => true
  | String _ _, EmptyString => false
  | String a p', String b s' => Ascii.eqb a b && startswith p' s'
  end.

(** [s[n:]]. *)
Fixpoint drop (n : nat) (s : string) : string :=
  match n, s with
  | O, _ => s
  | S n', EmptyString => EmptyString
  | S n', String _ s' => drop n' s'
  end.

End Str.

Definition slash : ascii := "/"%char.
Definition nul : ascii := Ascii.zero.

(** ** pathlib: pure paths *)

(** The root of a POSIX path: none (relative), ["/"], or the ["//"] that
    [posixpath.splitroot] keeps apart when a path starts with exactly two
    slashes. *)
Inductive root_t : Type := NoRoot | Slash | TwoSlash.

Global Instance root_eq_dec : EqDecision root_t.
Proof. solve_decision. Defined.

(** A [PurePosixPath]: its root and its parts. *)
Record PurePath : Type := mkPath { root : root_t; parts : list string }.

Global Instance PurePath_eq_dec : EqDecision PurePath.
Proof. solve_decision. Defined.

(** [posixpath.splitroot]. *)
Definition splitroot (p : string) : root_t * string :=
  if negb (Str.startswith "/" p) then (NoRoot, p)
  else if negb (Str.startswith "/" (Str.drop 1 p)) || Str.startswith "/" (Str.drop 2 p)
       then (Slash, Str.drop 1 p)
       else (TwoSlash, Str.drop 2 p).

(** [x and x != '.'] of [PurePath._parse_path]. *)
Definition keep_part (x : string) : bool :=
  negb (String.eqb x "") && negb (String.eqb x ".").

(** [Path(s)]: split off the root, split the rest at ["/"], drop the empty
    parts and the ["."] parts. *)
Definition Path (s : string) : PurePath :=
  let '(r, rel) := splitroot s in
  mkPath r (List.filter keep_part (Str.split slash rel)).

(** [p.joinpath(name)]: [posixpath.join] restarts from [name] when it begins
    with a slash, and otherwise appends it; the result is parsed again.  The
    name is neither checked nor cleaned. *)
Definition joinpath (p : PurePath) (name : string) : PurePath :=
  if Str.startswith "/" name then Path name
  else mkPath (root p) (parts p ++ parts (Path name)).

(** ** uuid *)

Module UUID.

(** A UUID is its 128-bit integer. *)
Definition t : Type := N.

(** [UUID(bytes=b, version=4)] on the integer read from the 16 bytes: the
    variant and version bits are overwritten. *)
Definition of_random (r : N) : t :=
  let i := (r mod 2 ^ 128)%N in
  let i := N.ldiff i (N.shiftl 0xc000 48) in
  let i := N.lor i (N.shiftl 0x8000 48) in
  let i := N.ldiff i (N.shiftl 0xf000 64) in
  N.lor i (N.shiftl 4 76).

Definition hex_digit (d : N) : ascii :=
  match d with
  | 0 => "0" | 1 => "1" | 2 => "2" | 3 => "3" | 4 => "4" | 5 => "5"
  | 6 => "6" | 7 => "7" | 8 => "8" | 9 => "9" | 10 => "a" | 11 => "b"
  | 12 => "c" | 13 => "d" | 14 => "e" | _ => "f"
  end%N%char.

(** The [n] low hexadecimal digits of [v], most significant first, in front
    of [acc]. *)
Fixpoint hex_acc (n : nat) (v : N) (acc : string) : string :=
  match n with
  | O => acc
  | S n' => hex_acc n' (v / 16)%N (String (hex_digit (v mod 16)%N) acc)
  end.

(** ['%032x' % v] for [v] below [2 ^ 128]. *)
Definition hex32 (v : N) : string := hex_acc 32 v "".

(** [hex[:8]-hex[8:12]-hex[12:16]-hex[16:20]-hex[20:]]. *)
Definition dashed (hex : string) : string :=
  String.substring 0 8 hex +:+ "-" +:+ String.substring 8 4 hex +:+ "-" +:+
  String.substring 12 4 hex +:+ "-" +:+ String.substring 16 4 hex +:+ "-" +:+
  Str.drop 20 hex.

(** [str(u)]. *)
Definition str (u : t) : string := dashed (hex32 u).

End UUID.

(** ** The environment *)

(** A canonical absolute location in the file tree: the names from the root
    down, free of ["."] and [".."]. *)
Abbreviation loc := (list string).

Inductive node : Type :=
| Dir
| File (data : list Byte.byte).

(** An upload's [file] attribute: the bytes not read yet, and whether
    [close()] was called. *)
Record stream : Type := mkStream { unread : list Byte.byte; closed : bool }.

Abbreviation handle := nat.

(** What was done to the environment, oldest first. *)
Inductive event : Type :=
| EvMkdir (d : loc)
| EvOpen (f : loc)
| EvClose (h : handle)
| EvNewChecker (specs_path : string)
| EvCheckFiles (paths : list PurePath) (spec : string).

(** Why the system refuses to make an entry or to write one. *)
Inductive refusal : Type := NoPermission | ReadOnlyVolume.

Definition refusal_exn (x : refusal) : exn :=
  match x with
  | NoPermission => PermissionError
  | ReadOnlyVolume => OSError "EROFS"
  end.

Record world : Type := mkWorld {
  fs : gmap loc node;          (* every entry below the root directory *)
  cwd : loc;                   (* the process's working directory *)
  free : nat;                  (* bytes left on the volume *)
  denied : loc → option refusal; (* where making or writing an entry is
                                    refused, and why *)
  streams : handle → stream;   (* the upload streams *)
  urandom : nat → N;           (* the values [os.urandom(16)] will give *)
  drawn : nat;                 (* how many of them were taken *)
  trace : list event
}.

Definition set_fs (t : gmap loc node) (w : world) : world :=
  mkWorld t (cwd w) (free w) (denied w) (streams w) (urandom w) (drawn w) (trace w).
Definition set_free (n : nat) (w : world) : world :=
  mkWorld (fs w) (cwd w) n (denied w) (streams w) (urandom w) (drawn w) (trace w).
Definition set_streams (s : handle → stream) (w : world) : world :=
  mkWorld (fs w) (cwd w) (free w) (denied w) s (urandom w) (drawn w) (trace w).
Definition set_drawn (n : nat) (w : world) : world :=
  mkWorld (fs w) (cwd w) (free w) (denied w) (streams w) (urandom w) n (trace w).
Definition log (e : event) (w : world) : world :=
  mkWorld (fs w) (cwd w) (free w) (denied w) (streams w) (urandom w) (drawn w) (trace w ++ [e]).

(** ** Computations: state and exceptions *)

(** A call maps the world to its outcome, a raised exception or a value, and
    the world it leaves. *)
Definition M (A : Type) : Type := world → (exn + A) * world.

Definition ret {A} (x : A) : M A := λ w, (inr x, w).
Definition raise {A} (e : exn) : M A := λ w, (inl e, w).
Definition bind {A B} (m : M A) (k : A → M B) : M B :=
  λ w, match m w with
       | (inl e, w') => (inl e, w')
       | (inr x, w') => k x w'
       end.

Declare Scope M_scope.
Delimit Scope M_scope with M.
Bind Scope M_scope with M.
Notation "x <- m ; k" := (bind m (λ x, k))
  (at level 100, m at next level, k at level 200, right associativity,
   format "'[v' x  <-  m ; '/' k ']'") : M_scope.
Notation "m ;; k" := (bind m (λ _, k))
  (at level 100, k at level 200, right associativity,
   format "'[v' m ;; '/' k ']'") : M_scope.
Open Scope M_scope.

(** [try: m finally: fin].  [fin] runs whatever [m] did; an exception of
    [fin] replaces the outcome of [m]. *)
Definition try_finally {A} (m : M A) (fin : M unit) : M A :=
  λ w, match m w with
       | (r, w') => match fin w' with
                    | (inl e, w'') => (inl e, w'')
                    | (inr _, w'') => (r, w'')
                    end
       end.

(** [try: m except FileExistsError: pass]. *)
Definition except_FileExistsError_pass (m : M unit) : M unit :=
  λ w, match m w with
       | (inl FileExistsError, w') => (inr tt, w')
       | r => r
       end.

(** [for x in l: body(x)]. *)
Fixpoint for_each {A} (l : list A) (body : A → M unit) : M unit :=
  match l with
  | [] => ret tt
  | x :: l' => body x ;; for_each l' body
  end.

(** ** The file tree *)

(** The root directory always exists; everything else is an entry of the
    map. *)
Definition lookup_node (t : gmap loc node) (c : loc) : option node :=
  match c with
  | [] => Some Dir
  | _ => t !! c
  end.

Definition parent (c : loc) : loc := take (length c - 1) c.

(** The longest name of an entry and the longest path the kernel takes,
    its final NUL included. *)
Definition NAME_MAX : nat := 255.
Definition PATH_MAX : nat := 4096.

Definition too_long (x : string) : bool := NAME_MAX <? String.length x.

(** Path resolution as the kernel does it, without symbolic links: every
    name is looked up in a directory that must exist, and is refused when it
    is longer than [NAME_MAX]; [".."] steps to the parent, which for the root
    is the root.  The last name need not exist. *)
Fixpoint namei (t : gmap loc node) (cur : loc) (names : list string) : exn + loc :=
  match names with
  | [] => inr cur
  | x :: rest =>
      match lookup_node t cur with
      | None => inl FileNotFoundError
      | Some (File _) => inl NotADirectoryError
      | Some Dir =>
          if too_long x then inl (OSError "ENAMETOOLONG")
          else namei t (if String.eqb x ".." then parent cur
                        else if String.eqb x "." then cur
                        else cur ++ [x]) rest
      end
  end.

(** The length of [str(p)]: the root, the parts and a slash between any
    two of them; the empty relative path is written ["."]. *)
Definition path_length (p : PurePath) : nat :=
  match root p with NoRoot => 0 | Slash => 1 | TwoSlash => 2 end
  + match parts p with
    | [] => match root p with NoRoot => 1 | _ => 0 end
    | x :: xs => String.length x + foldr (λ y n, S (String.length y + n)) 0 xs
    end.

(** Where the resolution of [p] starts. *)
Definition start (w : world) (p : PurePath) : loc :=
  match root p with
  | NoRoot => cwd w
  | _ => []
  end.

Definition resolve (w : world) (p : PurePath) : exn + loc :=
  if PATH_MAX <=? path_length p then inl (OSError "ENAMETOOLONG")
  else namei (fs w) (start w p) (parts p).

(** [os.path.exists(p)]: whether [stat] succeeds. *)
Definition os_path_exists (p : PurePath) : M bool :=
  λ w, match resolve w p with
       | inl _ => (inr false, w)
       | inr c => (inr (bool_decide (is_Some (lookup_node (fs w) c))), w)
       end.

(** [os.mkdir(p)]. *)
Definition os_mkdir (p : PurePath) : M unit :=
  λ w, match resolve w p with
       | inl e => (inl e, w)
       | inr c =>
           match lookup_node (fs w) c, denied w c with
           | Some _, _ => (inl FileExistsError, w)
           | None, Some x => (inl (refusal_exn x), w)
           | None, None =>
               (inr tt, log (EvMkdir c) (set_fs (<[c := Dir]> (fs w)) w))
           end
       end.

(** [os.makedirs(p)] with [exist_ok=False], on the reversed parts of [p]:
    [tail] is the last part and [head] the path before it.  A missing [head]
    is made first, ignoring [FileExistsError]; then [p] itself is made, and
    whatever that raises is raised. *)
Fixpoint makedirs_rev (r : root_t) (rparts : list string) : M unit :=
  match rparts with
  | [] => os_mkdir (mkPath r [])
  | tail :: rhead =>
      (if bool_decide (r = NoRoot ∧ rhead = []) then ret tt
       else
         head_exists <- os_path_exists (mkPath r (rev rhead));
         if head_exists then ret tt
         else except_FileExistsError_pass (makedirs_rev r rhead));;
      os_mkdir (mkPath r (rev (tail :: rhead)))
  end.

Definition os_makedirs (p : PurePath) : M unit :=
  makedirs_rev (root p) (rev (parts p)).

(** [NUL in str(p)]: such a path is refused before any system call. *)
Definition has_nul (p : PurePath) : bool :=
  existsb (Str.mem nul) (parts p).

(** [p.open("wb")]: the file is created when absent and cut to length zero
    when present; nothing is exclusive about it.  A directory cannot be
    opened for writing, and the system may refuse the location.  The
    returned buffer is identified with the location of the file it writes. *)
Definition open_wb (p : PurePath) : M loc :=
  λ w, if has_nul p then (inl (ValueError "embedded null byte"), w)
       else match resolve w p with
            | inl e => (inl e, w)
            | inr c =>
                match lookup_node (fs w) c, denied w c with
                | Some Dir, _ => (inl IsADirectoryError, w)
                | _, Some x => (inl (refusal_exn x), w)
                | Some (File old), None =>
                    (inr c, log (EvOpen c)
                              (set_free (free w + length old)
                                 (set_fs (<[c := File []]> (fs w)) w)))
                | None, None =>
                    (inr c, log (EvOpen c) (set_fs (<[c := File []]> (fs w)) w))
                end
            end.

(** [buffer.write(buf)].  Bytes reach the file as long as the volume has
    room; when it runs out the bytes that fit are written and the call
    raises. *)
Definition buffer_write (buffer : loc) (buf : list Byte.byte) : M unit :=
  λ w, match fs w !! buffer with
       | Some (File data) =>
           if decide (length buf ≤ free w)
           then (inr tt, set_free (free w - length buf)
                           (set_fs (<[buffer := File (data ++ buf)]> (fs w)) w))
           else (inl (OSError "ENOSPC"),
                 set_free 0
                   (set_fs (<[buffer := File (data ++ take (free w) buf)]> (fs w)) w))
       | _ => (inl (OSError "EBADF"), w)
       end.

(** [buffer.close()] at the end of the [with] block: all bytes were written
    through already. *)
Definition buffer_close (buffer : loc) : M unit := ret tt.

(** [with p.open("wb") as buffer: body(buffer)]. *)
Definition with_open_wb {A} (p : PurePath) (body : loc → M A) : M A :=
  buffer <- open_wb p;
  try_finally (body buffer) (buffer_close buffer).

(** ** Upload streams *)

(** [f.read(n)]. *)
Definition stream_read (h : handle) (n : nat) : M (list Byte.byte) :=
  λ w, let s := streams w h in
       if closed s then (inl (ValueError "I/O operation on closed file"), w)
       else (inr (take n (unread s)),
             set_streams (<[h := mkStream (drop n (unread s)) false]> (streams w)) w).

(** [f.close()]; closing twice is allowed. *)
Definition stream_close (h : handle) : M unit :=
  λ w, (inr tt,
        log (EvClose h)
          (set_streams (<[h := mkStream (unread (streams w h)) true]> (streams w)) w)).

(** ** shutil.copyfileobj *)

(** [shutil.COPY_BUFSIZE] on POSIX. *)
Definition COPY_BUFSIZE : nat := 64 * 1024.
Arguments COPY_BUFSIZE : simpl never.

Lemma stream_read_shrinks h n w buf w' :
  stream_read h n w = (inr buf, w') → buf ≠ [] →
  length (unread (streams w' h)) < length (unread (streams w h)).
Proof.
  unfold stream_read. destruct (closed (streams w h)); [done|].
  intros [= <- <-] Hne. simpl. rewrite fn_lookup_insert. simpl.
  destruct (unread (streams w h)) as [|b l]; destruct n; simpl in *; try done.
  rewrite length_drop. lia.
Qed.

Lemma buffer_write_streams buffer buf w r w' :
  buffer_write buffer buf w = (r, w') → streams w' = streams w.
Proof.
  unfold buffer_write. intros H.
  repeat case_match; simplify_eq; done.
Qed.

(** [while buf := fsrc.read(bufsize): fdst.write(buf)].  Every round takes
    at least one byte off the source, which is why the loop ends. *)
Equations? copy_loop (bufsize : nat) (fsrc : handle) (fdst : loc) (w : world)
  : (exn + unit) * world by wf (length (unread (streams w fsrc))) lt :=
  copy_loop bufsize fsrc fdst w with inspect (stream_read fsrc bufsize w) := {
    | exist _ (inl e, w1) _ => (inl e, w1)
    | exist _ (inr [], w1) _ => (inr tt, w1)
    | exist _ (inr (b :: buf), w1) Hr
        with inspect (buffer_write fdst (b :: buf) w1) := {
        | exist _ (inl e, w2) _ => (inl e, w2)
        | exist _ (inr _, w2) Hw => copy_loop bufsize fsrc fdst w2 } }.
Proof.
  rewrite (buffer_write_streams _ _ _ _ _ Hw).
  by apply (stream_read_shrinks _ _ _ _ _ Hr).
Qed.

(** [shutil.copyfileobj(fsrc, fdst)] with the default buffer size. *)
Definition copyfileobj (fsrc : handle) (fdst : loc) : M unit :=
  copy_loop COPY_BUFSIZE fsrc fdst.

(** ** pathlib: globbing *)

(** The name of [c] inside directory [d], when [c] is an entry of [d]. *)
Definition entry_of (d c : loc) : option string :=
  match list.last c with
  | Some x => if decide (c = d ++ [x]) then Some x else None
  | None => None
  end.

(** [os.scandir(d)]: the names of the entries of [d], each once. *)
Definition listdir (t : gmap loc node) (d : loc) : list string :=
  elements (set_omap (entry_of d) (dom t) : gset string).

(** The paths [p.glob("*")] yields: one per entry directly inside [p],
    hidden ones included, nothing deeper; none at all when [p] is not a
    directory. *)
Definition glob_paths (w : world) (p : PurePath) : list PurePath :=
  match resolve w p with
  | inr d =>
      match lookup_node (fs w) d with
      | Some Dir => (λ x, mkPath (root p) (parts p ++ [x])) <$> listdir (fs w) d
      | _ => []
      end
  | inl _ => []
  end.

(** [p.glob("*")].  The generator is consumed by the caller before the
    world changes again, so the entries are taken here. *)
Definition glob_star (p : PurePath) : M (list PurePath) :=
  λ w, (inr (glob_paths w p), w).

(** ** uuid4 *)

Definition uuid4 : M UUID.t :=
  λ w, (inr (UUID.of_random (urandom w (drawn w))), set_drawn (S (drawn w)) w).

(** ** The external checker *)

(** [argofilechecker_python_wrapper.FileChecker], of which this repository
    only has the two calls: the constructor and [check_files].  Both may
    raise; both read the file tree and leave it as it is. *)
Class FileCheckerLib : Type := {
  checker : Type;
  report : Type;
  checker_init : string → gmap loc node → exn + checker;
  checker_check_files :
    checker → gmap loc node → list PurePath → string → exn + report
}.

Section Handlers.

Context `{FileCheckerLib}.

Definition FileChecker (specs_path : string) : M checker :=
  λ w, let w' := log (EvNewChecker specs_path) w in
       match checker_init specs_path (fs w) with
       | inl e => (inl e, w')
       | inr c => (inr c, w')
       end.

Definition check_files (c : checker) (paths : list PurePath) (spec : string)
  : M report :=
  λ w, let w' := log (EvCheckFiles paths spec) w in
       match checker_check_files c (fs w) paths spec with
       | inl e => (inl e, w')
       | inr v => (inr v, w')
       end.

(** ** The handlers *)

Record UploadFile : Type := mkUpload { filename : string; file : handle }.

(** [GET /]. *)
Definition app_status : M (gset string) := ret {["OK"]}.

(** [POST /check-files]. *)
Definition check_file_list (files : list UploadFile) : M (gmap string report) :=
  request_id <- uuid4;
  let request_file_dir := Path ("/home/app/input/" +:+ UUID.str request_id) in
  os_makedirs request_file_dir;;
  for_each files (λ upload_file,
    try_finally
      (with_open_wb (joinpath request_file_dir (filename upload_file))
         (λ buffer, copyfileobj (file upload_file) buffer))
      (stream_close (file upload_file)));;
  file_checker <- FileChecker "/home/app/file_checker_spec";
  paths <- glob_star request_file_dir;
  v <- check_files file_checker paths "bodc";
  ret {["results" := v]}.

End Handlers.

(** ** The handler body, call by call *)

(** The same body cut where another request can run in between: after the
    request directory is made, after each upload is stored, and before the
    checker is called. *)
Section Phases.

Context `{FileCheckerLib}.

Definition request_dir (request_id : UUID.t) : PurePath :=
  Path ("/home/app/input/" +:+ UUID.str request_id).

Definition make_request_dir : M PurePath :=
  request_id <- uuid4;
  os_makedirs (request_dir request_id);;
  ret (request_dir request_id).

Definition store_upload (request_file_dir : PurePath) (upload_file : UploadFile)
  : M unit :=
  try_finally
    (with_open_wb (joinpath request_file_dir (filename upload_file))
       (λ buffer, copyfileobj (file upload_file) buffer))
    (stream_close (file upload_file)).

Definition store_all (request_file_dir : PurePath) (files : list UploadFile)
  : M unit :=
  for_each files (store_upload request_file_dir).

Definition validate (request_file_dir : PurePath) : M (gmap string report) :=
  file_checker <- FileChecker "/home/app/file_checker_spec";
  paths <- glob_star request_file_dir;
  v <- check_files file_checker paths "bodc";
  ret {["results" := v]}.

(** A request in flight. *)
Inductive thread : Type :=
| Start (files : list UploadFile)
| Storing (request_file_dir : PurePath) (files : list UploadFile)
| Done (outcome : exn + gmap string report).

Definition step (th : thread) (w : world) : thread * world :=
  match th with
  | Start files =>
      match make_request_dir w with
      | (inl e, w') => (Done (inl e), w')
      | (inr d, w') => (Storing d files, w')
      end
  | Storing d (upload_file :: files) =>
      match store_upload d upload_file w with
      | (inl e, w') => (Done (inl e), w')
      | (inr _, w') => (Storing d files, w')
      end
  | Storing d [] =>
      match validate d w with
      | (r, w') => (Done r, w')
      end
  | Done r => (Done r, w)
  end.

(** One request running alone for [n] steps. *)
Fixpoint run (n : nat) (th : thread) (w : world) : thread * world :=
  match n with
  | O => (th, w)
  | S n' => let '(th', w') := step th w in run n' th' w'
  end.

(** The events a step added to the trace. *)
Definition emitted (w w' : world) : list event :=
  drop (length (trace w)) (trace w').

(** Two requests served together.  The schedule says whose turn it is
    ([false]: the first request, [true]: the second); the log keeps every
    event with the request that caused it. *)
Fixpoint interleave (sched : list bool) (a b : thread) (w : world)
    (lg : list (bool * event)) : thread * thread * world * list (bool * event) :=
  match sched with
  | [] => (a, b, w, lg)
  | false :: sched' =>
      let '(a', w') := step a w in
      interleave sched' a' b w' (lg ++ ((false,.) <$> emitted w w'))
  | true :: sched' =>
      let '(b', w') := step b w in
      interleave sched' a b' w' (lg ++ ((true,.) <$> emitted w w'))
  end.

End Phases.

(** ** Vocabulary of the statements *)

(** A name that is one path component: not empty, not ["."] or [".."], and
    free of slashes and NUL. *)
Definition plain_name (s : string) : bool :=
  negb (String.eqb s "") && negb (String.eqb s ".") && negb (String.eqb s "..")
  && negb (Str.mem slash s) && negb (Str.mem nul s).

Fixpoint all_chars (P : ascii → bool) (s : string) : bool :=
  match s with
  | EmptyString => true
  | String c s' => P c && all_chars P s'
  end.

(** The characters [str(uuid)] is made of. *)
Definition hexdash (c : ascii) : bool := Str.mem c "0123456789abcdef-".

Definition is_dir (t : gmap loc node) (c : loc) : bool :=
  match lookup_node t c with
  | Some Dir => true
  | _ => false
  end.

(** A file tree: every entry sits in a directory. *)
Definition fs_wf (t : gmap loc node) : Prop :=
  ∀ c, is_Some (t !! c) → is_dir t (parent c) = true.

(** The location a path names when its resolution succeeds: the kernel's
    walk without the checks. *)
Fixpoint lexical (cur : loc) (names : list string) : loc :=
  match names with
  | [] => cur
  | x :: rest =>
      lexical (if String.eqb x ".." then parent cur
               else if String.eqb x "." then cur
               else cur ++ [x]) rest
  end.

(** The location of the request directory of [request_id]. *)
Definition request_loc (request_id : UUID.t) : loc :=
  ["home"; "app"; "input"; UUID.str request_id].

(** Where the upload named [name] of that request lands. *)
Definition destination (request_id : UUID.t) (name : string) : loc :=
  lexical [] (parts (joinpath (request_dir request_id) name)).

(** The identifier the next call of [uuid4] returns. *)
Definition next_uuid (w : world) : UUID.t := UUID.of_random (urandom w (drawn w)).

Definition is_check (e : event) : bool :=
  match e with
  | EvCheckFiles _ _ => true
  | _ => false
  end.

Definition canonical_name (x : string) : bool :=
  negb (String.eqb x "..") && negb (String.eqb x ".").

(** [m] takes a world only to worlds that [R] relates to it, whatever the
    outcome. *)
Definition preserves {A} (R : world → world → Prop) (m : M A) : Prop :=
  ∀ w r w', m w = (r, w') → R w w'.

(** [f] reads the same in both worlds. *)
Definition keeps {B} (f : world → B) (w w' : world) : Prop := f w' = f w.

Definition same_kind (n n' : node) : Prop :=
  match n, n' with
  | Dir, Dir => True
  | File _, File _ => True
  | _, _ => False
  end.

(** What every call respects: no entry goes away or changes its kind, a
    closed stream stays closed, the trace only grows, and the working
    directory and the random source are left alone. *)
Record evolves (w w' : world) : Prop := mkEvolves {
  ev_fs : ∀ c n, fs w !! c = Some n → ∃ n', fs w' !! c = Some n' ∧ same_kind n n';
  ev_closed : ∀ h, closed (streams w h) = true → closed (streams w' h) = true;
  ev_trace : trace w `prefix_of` trace w';
  ev_cwd : cwd w' = cwd w;
  ev_urandom : urandom w' = urandom w
}.

(** What [os.makedirs] of the location [d] may change: directories appear
    on the way down to [d], and that is all. *)
Record made (d : loc) (w w' : world) : Prop := mkMade {
  md_fs : ∀ c, fs w' !! c = fs w !! c ∨
               (fs w !! c = None ∧ fs w' !! c = Some Dir ∧ c `prefix_of` d);
  md_streams : streams w' = streams w;
  md_free : free w' = free w;
  md_drawn : drawn w' = drawn w;
  md_wf : fs_wf (fs w) → fs_wf (fs w')
}.

Definition is_file_event (e : event) : bool :=
  match e with
  | EvOpen _ | EvClose _ => true
  | _ => false
  end.

(** What storing uploads respects on top of that: the directories are the
    same before and after, no identifier is drawn, and only opens and closes
    are added to the trace. *)
Record stores (w w' : world) : Prop := mkStores {
  st_dirs : ∀ c, fs w' !! c = Some Dir ↔ fs w !! c = Some Dir;
  st_drawn : drawn w' = drawn w;
  st_cwd : cwd w' = cwd w;
  st_urandom : urandom w' = urandom w;
  st_trace : ∃ evs, trace w' = trace w ++ evs ∧ Forall (λ e, is_file_event e = true) evs
}.

(** The tree after the uploads [files] were written below [d], each with
    the bytes its stream held in [s]. *)
Definition stored (d : loc) (s : handle → stream) (files : list UploadFile)
    (t : gmap loc node) : gmap loc node :=
  foldl (λ t f, <[d ++ [filename f] := File (unread (s (file f)))]> t) t files.

(** The tree after the uploads [files] of the request [u] were written
    wherever their names led, each with the bytes its stream held in [s]. *)
Definition placed (u : UUID.t) (s : handle → stream) (files : list UploadFile)
    (t : gmap loc node) : gmap loc node :=
  foldl (λ t f, <[destination u (filename f) := File (unread (s (file f)))]> t)
    t files.

(** The size of the regular file at [c], if there is one. *)
Definition size_at (t : gmap loc node) (c : loc) : nat :=
  match t !! c with
  | Some (File old) => length old
  | _ => 0
  end.

(** The bytes a copy gets from the stream [s] into an empty file when [room]
    bytes fit on the volume: none when the stream is closed. *)
Definition written (s : stream) (room : nat) : list Byte.byte :=
  if closed s then [] else take room (unread s).

(** The outcome of that copy. *)
Definition copied (s : stream) (room : nat) : exn + unit :=
  if closed s then inl (ValueError "I/O operation on closed file")
  else if decide (length (unread s) ≤ room) then inr tt
       else inl (OSError "ENOSPC").

(** [m] called [n] times in a row; the values it returned, oldest first. *)
Fixpoint call_times {A} (n : nat) (m : M A) : M (list A) :=
  match n with
  | O => ret []
  | S n' => x <- m; xs <- call_times n' m; ret (x :: xs)
  end.

(** The uploads the loop over [files] gets to when it starts in [w]: all of
    them up to and including the first whose storing raises. *)
Fixpoint reached (d : PurePath) (files : list UploadFile) (w : world)
  : list UploadFile :=
  match files with
  | [] => []
  | f :: rest =>
      f :: match store_upload d f w with
           | (inr _, w1) => reached d rest w1
           | (inl _, _) => []
           end
  end.

(** The uploads whose copy a call of the handler attempts. *)
Definition attempted (files : list UploadFile) (w : world) : list UploadFile :=
  match make_request_dir w with
  | (inr d, w1) => reached d files w1
  | (inl _, _) => []
  end.

(** Whether a call returned rather than raised. *)
Definition succeeded {A} (run : (exn + A) * world) : bool :=
  match run.1 with
  | inr _ => true
  | inl _ => false
  end.

(** The trace stays free of calls of the checker. *)
Definition quiet (w w' : world) : Prop :=
  ∃ evs, trace w' = trace w ++ evs ∧ Forall (λ e, is_check e = false) evs.

(** The events a call adds to the trace all satisfy [P]. *)
Definition emits (P : event → Prop) (w w' : world) : Prop :=
  ∃ evs, trace w' = trace w ++ evs ∧ Forall P evs.

(** An event that stays inside the directory [d]: an open of an entry of
    [d], a call of the checker on entries of [d], or an event that names no
    file at all. *)
Definition owned (d : loc) (e : event) : Prop :=
  match e with
  | EvOpen p => ∃ x, p = d ++ [x]
  | EvCheckFiles ps _ => ∀ q, q ∈ ps → ∃ x, q = mkPath Slash (d ++ [x])
  | _ => True
  end.

(** The files request [t] opened for writing, and the enumerations it handed
    to the checker, according to the log of a schedule. *)
Definition writes_of (t : bool) (lg : list (bool * event)) : list loc :=
  omap (λ te, match te with
              | (t', EvOpen p) => if bool_decide (t' = t) then Some p else None
              | _ => None
              end) lg.

Definition checked_by (t : bool) (lg : list (bool * event)) : list (list PurePath) :=
  omap (λ te, match te with
              | (t', EvCheckFiles ps _) => if bool_decide (t' = t) then Some ps else None
              | _ => None
              end) lg.

Section Apart.

Context `{FileCheckerLib}.

(** A request that has taken the directory [d]: it is storing plain-named
    uploads there, or it is over. *)
Definition thread_in (d : loc) (th : thread) : Prop :=
  match th with
  | Start _ => False
  | Storing p files =>
      p = mkPath Slash d ∧ Forall (λ f, plain_name (filename f) = true) files
  | Done _ => True
  end.

(** A request with the directory [o], if it has one yet. *)
Definition state_ok (o : option loc) (files : list UploadFile) (th : thread) : Prop :=
  match o with
  | None => th = Start files
  | Some d => thread_in d th
  end.

(** Every event of request [t] in the log stays inside its directory. *)
Definition log_ok (t : bool) (o : option loc) (lg : list (bool * event)) : Prop :=
  Forall (λ te, te.1 = t → match o with
                           | None => False
                           | Some d => owned d te.2
                           end) lg.

(** What holds along every schedule of two requests with plain names that
    start in [w0]: whichever started first has the directory of the first
    identifier drawn, the other that of the second, and each one's events
    stay inside its own. *)
Definition apart (w0 : world) (filesA filesB : list UploadFile)
    (a b : thread) (w : world) (lg : list (bool * event)) : Prop :=
  ∃ oa ob : option loc,
    state_ok oa filesA a ∧ state_ok ob filesB b ∧
    log_ok false oa lg ∧ log_ok true ob lg ∧
    urandom w = urandom w0 ∧
    match oa, ob with
    | None, None => drawn w = drawn w0
    | Some d, None | None, Some d =>
        d = request_loc (next_uuid w0) ∧ drawn w = S (drawn w0)
    | Some da, Some db =>
        (da = request_loc (next_uuid w0) ∧
         db = request_loc (next_uuid (set_drawn (S (drawn w0)) w0))) ∨
        (db = request_loc (next_uuid w0) ∧
         da = request_loc (next_uuid (set_drawn (S (drawn w0)) w0)))
    end.

End Apart.

(** ** A checker and a world to run the handlers on *)

Module Demo.

Definition bytes (s : string) : list Byte.byte := String.list_byte_of_string s.

(** A checker that reports the size of every file it is given. *)
Definition size_of (t : gmap loc node) (p : PurePath) : nat :=
  match t !! parts p with
  | Some (File data) => length data
  | _ => 0
  end.

#[export] Instance sizes : FileCheckerLib := {|
  checker := string;
  report := list (PurePath * nat);
  checker_init := λ specs_path _, inr specs_path;
  checker_check_files := λ _ t paths _, inr ((λ p, (p, size_of t p)) <$> paths)
|}.

(** A checker that rejects every specification name. *)
Definition rejecting : FileCheckerLib := {|
  checker := string;
  report := list (PurePath * nat);
  checker_init := λ specs_path _, inr specs_path;
  checker_check_files := λ _ _ _ spec, inl (CheckerError spec)
|}.

Definition newline : string := String (ascii_of_nat 10) "".

(** Stream 0 holds [hello], stream 1 holds the two lines of the csv file,
    stream 2 was closed by somebody else; the others are empty. *)
Definition uploads (h : handle) : stream :=
  match h with
  | 0 => mkStream (bytes "hello") false
  | 1 => mkStream (bytes ("x,y" +:+ newline +:+ "1,2")) false
  | 2 => mkStream (bytes "late") true
  | _ => mkStream [] false
  end.

(** An empty volume with room for [room] bytes where nothing is refused; the
    n-th random value is [n]. *)
Definition blank (room : nat) : world :=
  mkWorld ∅ [] room (λ _, None) uploads N.of_nat 0 [].

Definition id0 : string := "00000000-0000-4000-8000-000000000000".
Definition id1 : string := "00000000-0000-4000-8000-000000000001".

(** The directory of the first request served in a blank world. *)
Definition loc0 : loc := ["home"; "app"; "input"; id0].
Definition dir0 : PurePath := mkPath Slash loc0.

(** The directory of the second. *)
Definition loc1 : loc := ["home"; "app"; "input"; id1].
Definition dir1 : PurePath := mkPath Slash loc1.

(** The blank world once the first request directory is made, and once the
    upload [a.txt] with the bytes of stream 0 is stored in it. *)
Definition made0 : world := (make_request_dir (blank 1000)).2.
Definition stored0 : world := (store_upload dir0 (mkUpload "a.txt" 0) made0).2.

(** The scenario of the specification: [a.txt] and [b.csv] posted to a blank
    world. *)
Definition two_files : list UploadFile := [mkUpload "a.txt" 0; mkUpload "b.csv" 1].
Definition sizes_report : list (PurePath * nat) :=
  [(mkPath Slash (loc0 ++ ["a.txt"]), 5); (mkPath Slash (loc0 ++ ["b.csv"]), 7)].

(** The same two uploads, sent the other way round. *)
Definition two_files_swapped : list UploadFile :=
  [mkUpload "b.csv" 1; mkUpload "a.txt" 0].

(** Two requests served together.  The first uploads a file whose name
    climbs into the directory of the second; it stores it after the second
    has made its directory and before the second calls the checker. *)
Definition intruder : list UploadFile :=
  [mkUpload ("../" +:+ id1 +:+ "/evil.nc") 0].
Definition victim : list UploadFile := [mkUpload "b.csv" 1].
Definition crossed : list bool := [false; true; false; true; true].
Definition crossed_log : list (bool * event) :=
  (@interleave sizes crossed (Start intruder) (Start victim) (blank 1000) []).2.

(** The same two requests with plain names. *)
Definition neighbour : list UploadFile := [mkUpload "evil.nc" 0].
Definition apart_log : list (bool * event) :=
  (@interleave sizes crossed (Start neighbour) (Start victim) (blank 1000) []).2.

(** Two uploads with different names, one of which climbs out of the
    request directory. *)
Definition escaping : list UploadFile :=
  [mkUpload "a.txt" 0; mkUpload "../b.csv" 1].


(** Three uploads for a volume where the second does not fit. *)
Definition three_files : list UploadFile := two_files ++ [mkUpload "c.txt" 3].

End Demo.

(** * Properties *)

(** ** Strings and paths *)

Lemma split_no_sep sep s : Str.mem sep s = false → Str.split sep s = [s].
Proof.
  induction s as [|c s IH]; simpl; [done|].
  intros [Hc Hs]%orb_false_iff. rewrite Hc, (IH Hs). done.
Qed.

Lemma split_app_sep sep a b :
  Str.mem sep a = false →
  Str.split sep (a +:+ String sep b) = a :: Str.split sep b.
Proof.
  induction a as [|c a IH]; simpl.
  - intros _. by rewrite Ascii.eqb_refl.
  - intros [Hc Ha]%orb_false_iff. rewrite Hc, (IH Ha). done.
Qed.

Lemma plain_name_spec s :
  plain_name s = true ↔
  s ≠ "" ∧ s ≠ "." ∧ s ≠ ".." ∧ Str.mem slash s = false ∧ Str.mem nul s = false.
Proof.
  unfold plain_name.
  rewrite !andb_true_iff, !negb_true_iff, !String.eqb_neq. tauto.
Qed.

Lemma startswith_slash_mem s : Str.mem slash s = false → Str.startswith "/" s = false.
Proof.
  destruct s as [|c s]; cbn [Str.startswith Str.mem]; [done|].
  intros [Hc _]%orb_false_iff. unfold slash in Hc.
  by rewrite Ascii.eqb_sym, Hc.
Qed.

Lemma Path_plain n : plain_name n = true → Path n = mkPath NoRoot [n].
Proof.
  intros (Hne & Hdot & _ & Hs & _)%plain_name_spec.
  unfold Path, splitroot. rewrite (startswith_slash_mem _ Hs). simpl.
  rewrite (split_no_sep _ _ Hs). simpl. unfold keep_part.
  apply String.eqb_neq in Hne, Hdot. by rewrite Hne, Hdot.
Qed.

Lemma joinpath_plain p n :
  plain_name n = true → joinpath p n = mkPath (root p) (parts p ++ [n]).
Proof.
  intros Hn. unfold joinpath. rewrite (Path_plain _ Hn).
  apply plain_name_spec in Hn as (_ & _ & _ & Hs & _).
  by rewrite (startswith_slash_mem _ Hs).
Qed.

Lemma split_input_root s :
  Str.split slash ("home/app/input/" +:+ s)
  = "home" :: "app" :: "input" :: Str.split slash s.
Proof.
  change ("home/app/input/" +:+ s)
    with ("home" +:+ String slash ("app" +:+ String slash ("input" +:+ String slash s))).
  by rewrite !split_app_sep.
Qed.

Lemma request_dir_plain s :
  plain_name s = true →
  Path ("/home/app/input/" +:+ s) = mkPath Slash ["home"; "app"; "input"; s].
Proof.
  intros (Hne & Hdot & _ & Hs & _)%plain_name_spec.
  unfold Path.
  change (splitroot ("/home/app/input/" +:+ s))
    with (Slash, "home/app/input/" +:+ s).
  cbv beta iota zeta.
  rewrite split_input_root, (split_no_sep _ _ Hs).
  apply String.eqb_neq in Hne, Hdot.
  change (List.filter keep_part ("home" :: "app" :: "input" :: [s]))
    with ("home" :: "app" :: "input" :: List.filter keep_part [s]).
  cbn [List.filter]. unfold keep_part. by rewrite Hne, Hdot.
Qed.

(** ** UUIDs as directory names *)

Lemma hex_digit_hexdash d : hexdash (UUID.hex_digit d) = true.
Proof.
  destruct d as [|p]; [done|].
  do 4 (destruct p as [p|p|]; try done).
Qed.

Lemma all_chars_hex_acc P n v acc :
  (∀ d, P (UUID.hex_digit d) = true) →
  all_chars P acc = true → all_chars P (UUID.hex_acc n v acc) = true.
Proof.
  intros HP. revert v acc. induction n as [|n IH]; intros v acc Hacc; simpl; [done|].
  apply IH. simpl. by rewrite HP, Hacc.
Qed.

Lemma all_chars_app P a b :
  all_chars P (a +:+ b) = all_chars P a && all_chars P b.
Proof.
  induction a as [|c a IH]; simpl; [done|]. by rewrite IH, andb_assoc.
Qed.

Lemma all_chars_substring P n m s :
  all_chars P s = true → all_chars P (String.substring n m s) = true.
Proof.
  revert n m. induction s as [|c s IH]; intros n m; simpl.
  - by destruct n, m.
  - intros [Hc Hs]%andb_true_iff.
    destruct n as [|n]; [destruct m as [|m]; [done|]|]; simpl; auto.
    by rewrite Hc, IH.
Qed.

Lemma all_chars_drop P n s :
  all_chars P s = true → all_chars P (Str.drop n s) = true.
Proof.
  revert n. induction s as [|c s IH]; intros [|n]; simpl; try done.
  intros [_ Hs]%andb_true_iff. auto.
Qed.

Lemma all_chars_mem P c s :
  all_chars P s = true → P c = false → Str.mem c s = false.
Proof.
  intros Hs Hc. induction s as [|c' s IH]; simpl in *; [done|].
  apply andb_true_iff in Hs as [Hc' Hs]. rewrite (IH Hs), orb_false_r.
  apply Ascii.eqb_neq. intros ->. congruence.
Qed.

Lemma uuid_str_hexdash u : all_chars hexdash (UUID.str u) = true.
Proof.
  assert (all_chars hexdash (UUID.hex32 u) = true) as Hh
    by (apply all_chars_hex_acc; [apply hex_digit_hexdash|done]).
  unfold UUID.str, UUID.dashed.
  rewrite !all_chars_app, !all_chars_substring, all_chars_drop by done.
  done.
Qed.

Lemma uuid_str_plain u : plain_name (UUID.str u) = true.
Proof.
  pose proof (uuid_str_hexdash u) as Hall.
  apply plain_name_spec. repeat split.
  - unfold UUID.str, UUID.dashed.
    destruct (String.substring 0 8 (UUID.hex32 u)); done.
  - intros Heq. by rewrite Heq in Hall.
  - intros Heq. by rewrite Heq in Hall.
  - by apply (all_chars_mem hexdash).
  - by apply (all_chars_mem hexdash).
Qed.

Lemma length_hex_acc n v acc :
  String.length (UUID.hex_acc n v acc) = n + String.length acc.
Proof.
  revert v acc. induction n as [|n IH]; intros v acc; simpl; [done|].
  rewrite IH. simpl. lia.
Qed.

Lemma hex_digit_inj a b :
  (a < 16)%N → (b < 16)%N → UUID.hex_digit a = UUID.hex_digit b → a = b.
Proof.
  intros Ha Hb.
  destruct a as [|p]; [|repeat (destruct p as [p|p|]; try lia)];
    (destruct b as [|q]; [|repeat (destruct q as [q|q|]; try lia)]); done.
Qed.

Lemma hex_acc_inj n v v' acc acc' :
  UUID.hex_acc n v acc = UUID.hex_acc n v' acc' →
  String.length acc = String.length acc' →
  (v mod 16 ^ N.of_nat n = v' mod 16 ^ N.of_nat n)%N ∧ acc = acc'.
Proof.
  revert v v' acc acc'. induction n as [|n IH]; intros v v' acc acc' Heq Hlen.
  - simpl in *. by rewrite !N.mod_1_r.
  - simpl in Heq. apply IH in Heq as [Hhi Hlo]; [|simpl; lia].
    injection Hlo as Hd ->. split; [|done].
    apply hex_digit_inj in Hd; [|by apply N.mod_lt..].
    rewrite Nat2N.inj_succ, N.pow_succ_r'.
    rewrite !(N.Div0.mod_mul_r _ 16). lia.
Qed.

Lemma dashed_inj a b :
  String.length a = 32 → String.length b = 32 →
  UUID.dashed a = UUID.dashed b → a = b.
Proof.
  intros Ha Hb.
  do 32 (destruct a as [|? a]; [discriminate Ha|]); destruct a; [|discriminate Ha].
  do 32 (destruct b as [|? b]; [discriminate Hb|]); destruct b; [|discriminate Hb].
  clear. cbv [UUID.dashed String.substring Str.drop String.append].
  intros Heq. by simplify_eq.
Qed.

Lemma N_lt_pow2_bits a n :
  (∀ m, (n ≤ m)%N → N.testbit a m = false) → (a < 2 ^ n)%N.
Proof.
  intros Hbits. destruct (decide (a = 0%N)) as [->|Hne].
  - apply N.neq_0_lt_0, N.pow_nonzero. done.
  - apply N.log2_lt_pow2; [lia|].
    destruct (decide (N.log2 a < n)%N) as [|Hge]; [done|].
    pose proof (N.bit_log2 a Hne) as Htop.
    rewrite Hbits in Htop; [done|lia].
Qed.

Lemma of_random_lt r : (UUID.of_random r < 2 ^ 128)%N.
Proof.
  apply N_lt_pow2_bits. intros m Hm. unfold UUID.of_random. cbv zeta.
  repeat first [rewrite N.lor_spec | rewrite N.ldiff_spec].
  rewrite N.mod_pow2_bits_high by done.
  rewrite !N.shiftl_spec_high' by lia.
  rewrite !N.bits_above_log2; [done|simpl; lia..].
Qed.

Lemma uuid_str_inj u u' :
  (u < 2 ^ 128)%N → (u' < 2 ^ 128)%N → UUID.str u = UUID.str u' → u = u'.
Proof.
  intros Hu Hu' Heq. unfold UUID.str in Heq.
  apply dashed_inj in Heq; [|by unfold UUID.hex32; rewrite length_hex_acc..].
  apply hex_acc_inj in Heq as [Heq _]; [|done].
  change (16 ^ N.of_nat 32)%N with (2 ^ 128)%N in Heq.
  by rewrite !N.mod_small in Heq.
Qed.

(** ** The copy loop *)

Lemma copy_loop_step n h dst w :
  copy_loop n h dst w =
  match stream_read h n w with
  | (inl e, w1) => (inl e, w1)
  | (inr [], w1) => (inr tt, w1)
  | (inr (b :: buf), w1) =>
      match buffer_write dst (b :: buf) w1 with
      | (inl e, w2) => (inl e, w2)
      | (inr _, w2) => copy_loop n h dst w2
      end
  end.
Proof.
  funelim (copy_loop n h dst w).
  - by rewrite e1.
  - by rewrite e.
  - by rewrite Hr, e1.
  - by rewrite Hr, Hw.
Qed.

(** ** Outcomes of composed calls *)

Lemma bind_run {A B} (m : M A) (k : A → M B) w r w' :
  bind m k w = (r, w') →
  (∃ e, m w = (inl e, w') ∧ r = inl e) ∨
  (∃ x w1, m w = (inr x, w1) ∧ k x w1 = (r, w')).
Proof.
  unfold bind. destruct (m w) as [[e|x] w1]; intros Heq.
  - left. exists e. by simplify_eq.
  - right. by exists x, w1.
Qed.

Lemma bind_ok {A B} (m : M A) (k : A → M B) w y w' :
  bind m k w = (inr y, w') →
  ∃ x w1, m w = (inr x, w1) ∧ k x w1 = (inr y, w').
Proof. intros [(e & _ & [=])|Hok]%bind_run. done. Qed.

Lemma try_finally_run {A} (m : M A) (fin : M unit) w r w' :
  try_finally m fin w = (r, w') →
  ∃ r1 w1 r2, m w = (r1, w1) ∧ fin w1 = (r2, w') ∧
    r = match r2 with inl e => inl e | inr _ => r1 end.
Proof.
  unfold try_finally. destruct (m w) as [r1 w1].
  destruct (fin w1) as [[e|u] w2] eqn:Hfin; intros [= <- <-].
  - by exists r1, w1, (inl e).
  - by exists r1, w1, (inr u).
Qed.

Lemma for_each_app {A} (l1 l2 : list A) (body : A → M unit) w :
  for_each (l1 ++ l2) body w =
  match for_each l1 body w with
  | (inl e, w1) => (inl e, w1)
  | (inr _, w1) => for_each l2 body w1
  end.
Proof.
  revert w. induction l1 as [|x l1 IH]; intros w; simpl; [done|].
  unfold bind. destruct (body x w) as [[e|[]] w1]; [done|]. apply IH.
Qed.

(** ** What calls preserve *)

Section Preserves.

Context (R : world → world → Prop) `{!PreOrder R}.

Lemma preserves_ret {A} (x : A) : preserves R (ret x).
Proof. intros w r w' [= <- <-]. done. Qed.

Lemma preserves_bind {A B} (m : M A) (k : A → M B) :
  preserves R m → (∀ x, preserves R (k x)) → preserves R (bind m k).
Proof.
  intros Hm Hk w r w' [(e & He & _)|(x & w1 & Hx & Hkx)]%bind_run.
  - by eapply Hm.
  - etrans; [by eapply Hm|by eapply Hk].
Qed.

Lemma preserves_try_finally {A} (m : M A) (fin : M unit) :
  preserves R m → preserves R fin → preserves R (try_finally m fin).
Proof.
  intros Hm Hfin w r w' (r1 & w1 & r2 & H1 & H2 & _)%try_finally_run.
  etrans; [by eapply Hm|by eapply Hfin].
Qed.

Lemma preserves_except (m : M unit) :
  preserves R m → preserves R (except_FileExistsError_pass m).
Proof.
  intros Hm w r w'. unfold except_FileExistsError_pass.
  destruct (m w) as [[e|u] w1] eqn:Hmw.
  - destruct e; intros [= <- <-]; by eapply Hm.
  - intros [= <- <-]. by eapply Hm.
Qed.

Lemma preserves_for_each {A} (l : list A) (body : A → M unit) :
  (∀ x, preserves R (body x)) → preserves R (for_each l body).
Proof.
  intros Hbody. induction l as [|x l IH]; simpl.
  - apply preserves_ret.
  - apply preserves_bind; auto.
Qed.

Lemma preserves_copy_loop n h dst :
  preserves R (stream_read h n) →
  (∀ buf, preserves R (buffer_write dst buf)) →
  preserves R (copy_loop n h dst).
Proof.
  intros Hread Hwrite w. funelim (copy_loop n h dst w); intros r w' Heq.
  - simplify_eq. by eapply Hread.
  - simplify_eq. by eapply Hread.
  - simplify_eq. etrans; [by eapply Hread|by eapply Hwrite].
  - etrans; [by eapply Hread|]. etrans; [by eapply Hwrite|]. eauto.
Qed.

End Preserves.

(** ** The two invariants of the environment *)

Lemma same_kind_refl n : same_kind n n.
Proof. by destruct n. Qed.

Lemma same_kind_trans n1 n2 n3 : same_kind n1 n2 → same_kind n2 n3 → same_kind n1 n3.
Proof. by destruct n1, n2, n3. Qed.

Global Instance evolves_preorder : PreOrder evolves.
Proof.
  split.
  - intros w. split; eauto using same_kind_refl.
  - intros w1 w2 w3 [Hfs1 Hc1 Ht1 Hw1 Hu1] [Hfs2 Hc2 Ht2 Hw2 Hu2]. split.
    + intros c n (n' & Hn' & Hk)%Hfs1. apply Hfs2 in Hn' as (n'' & Hn'' & Hk').
      eauto using same_kind_trans.
    + eauto.
    + by etrans.
    + congruence.
    + congruence.
Qed.

Global Instance stores_preorder : PreOrder stores.
Proof.
  split.
  - intros w. split; try done. exists []. by rewrite app_nil_r.
  - intros w1 w2 w3 [Hd1 Hn1 Hw1 Hu1 (evs1 & Ht1 & Hf1)]
      [Hd2 Hn2 Hw2 Hu2 (evs2 & Ht2 & Hf2)]. split.
    + intros c. by rewrite Hd2, Hd1.
    + congruence.
    + congruence.
    + congruence.
    + exists (evs1 ++ evs2). rewrite Ht2, Ht1, app_assoc. split; [done|].
      by apply Forall_app.
Qed.

Lemma lookup_node_file t c data :
  lookup_node t c = Some (File data) → t !! c = Some (File data).
Proof. by destruct c. Qed.

Lemma lookup_node_None t c : lookup_node t c = None → t !! c = None.
Proof. by destruct c. Qed.

Lemma lookup_node_ne t c : c ≠ [] → lookup_node t c = t !! c.
Proof. by destruct c. Qed.

Lemma evolves_insert_new w t c n :
  fs w !! c = None → t = <[c := n]> (fs w) → evolves w (set_fs t w).
Proof.
  intros Hc ->. split; simpl; try done.
  intros c' n' Hn'. exists n'. split; [|apply same_kind_refl].
  rewrite lookup_insert_ne; [done|congruence].
Qed.

Lemma evolves_insert_file w t c old new :
  fs w !! c = Some (File old) → t = <[c := File new]> (fs w) →
  evolves w (set_fs t w).
Proof.
  intros Hc ->. split; simpl; try done.
  intros c' n' Hn'. destruct (decide (c = c')) as [<-|Hne].
  - rewrite lookup_insert_eq. exists (File new). by simplify_eq.
  - rewrite lookup_insert_ne by done. eauto using same_kind_refl.
Qed.

Lemma evolves_log e w : evolves w (log e w).
Proof. split; simpl; eauto using same_kind_refl. by apply prefix_app_r. Qed.

Lemma evolves_set_free n w : evolves w (set_free n w).
Proof. split; simpl; eauto using same_kind_refl. Qed.

Lemma evolves_set_drawn n w : evolves w (set_drawn n w).
Proof. split; simpl; eauto using same_kind_refl. Qed.

Lemma evolves_os_path_exists p : preserves evolves (os_path_exists p).
Proof.
  intros w r w'. unfold os_path_exists.
  destruct (resolve w p); intros [= <- <-]; done.
Qed.

Lemma evolves_os_mkdir p : preserves evolves (os_mkdir p).
Proof.
  intros w r w'. unfold os_mkdir.
  destruct (resolve w p) as [e|c]; [by intros [= <- <-]|].
  destruct (lookup_node (fs w) c) eqn:Hc; [by intros [= <- <-]|].
  destruct (denied w c); intros [= <- <-]; [done|].
  etrans; [|apply evolves_log].
  eapply evolves_insert_new; [by apply lookup_node_None|done].
Qed.

Lemma evolves_open_wb p : preserves evolves (open_wb p).
Proof.
  intros w r w'. unfold open_wb.
  destruct (has_nul p); [by intros [= <- <-]|].
  destruct (resolve w p) as [e|c]; [by intros [= <- <-]|].
  destruct (lookup_node (fs w) c) as [[|old]|] eqn:Hc, (denied w c);
    intros [= <- <-]; try done.
  - etrans; [|apply evolves_log]. etrans; [|apply evolves_set_free].
    eapply evolves_insert_file; [by apply lookup_node_file|done].
  - etrans; [|apply evolves_log].
    eapply evolves_insert_new; [by apply lookup_node_None|done].
Qed.

Lemma evolves_buffer_write dst buf : preserves evolves (buffer_write dst buf).
Proof.
  intros w r w'. unfold buffer_write.
  destruct (fs w !! dst) as [[|data]|] eqn:Hdst; try by intros [= <- <-].
  destruct (decide _); intros [= <- <-].
  - etrans; [|apply evolves_set_free]. by eapply evolves_insert_file.
  - etrans; [|apply evolves_set_free]. by eapply evolves_insert_file.
Qed.

Lemma evolves_stream_read h n : preserves evolves (stream_read h n).
Proof.
  intros w r w'. unfold stream_read.
  destruct (closed (streams w h)) eqn:Hcl; intros [= <- <-]; [done|].
  split; simpl; eauto using same_kind_refl.
  intros h' Hh'. destruct (decide (h = h')) as [<-|Hne]; [congruence|].
  by rewrite fn_lookup_insert_ne.
Qed.

Lemma evolves_stream_close h : preserves evolves (stream_close h).
Proof.
  intros w r w' [= <- <-]. etrans; [|apply evolves_log].
  split; simpl; eauto using same_kind_refl.
  intros h' Hh'. destruct (decide (h = h')) as [<-|Hne].
  - by rewrite fn_lookup_insert.
  - by rewrite fn_lookup_insert_ne.
Qed.

Lemma evolves_uuid4 : preserves evolves uuid4.
Proof. intros w r w' [= <- <-]. apply evolves_set_drawn. Qed.

Lemma evolves_glob_star p : preserves evolves (glob_star p).
Proof.
  intros w r w' [= <- <-]. done.
Qed.

Lemma evolves_makedirs_rev r rparts : preserves evolves (makedirs_rev r rparts).
Proof.
  induction rparts as [|tail rhead IH]; simpl; [apply evolves_os_mkdir|].
  apply (preserves_bind evolves); [|intros _; apply evolves_os_mkdir].
  case_bool_decide; [apply (preserves_ret evolves)|].
  apply (preserves_bind evolves); [apply evolves_os_path_exists|].
  intros []; [apply (preserves_ret evolves)|by apply (preserves_except evolves)].
Qed.

Lemma evolves_copyfileobj h dst : preserves evolves (copyfileobj h dst).
Proof.
  apply (preserves_copy_loop evolves); [apply evolves_stream_read|].
  intros buf. apply evolves_buffer_write.
Qed.

Lemma stores_refl_with w w' :
  fs w' = fs w → drawn w' = drawn w → cwd w' = cwd w → urandom w' = urandom w →
  trace w' = trace w → stores w w'.
Proof.
  intros Hfs Hd Hc Hu Ht. split; try done.
  - intros c. by rewrite Hfs.
  - exists []. by rewrite app_nil_r.
Qed.

Lemma stores_insert_file w w' c data evs :
  fs w !! c ≠ Some Dir → fs w' = <[c := File data]> (fs w) →
  drawn w' = drawn w → cwd w' = cwd w → urandom w' = urandom w →
  trace w' = trace w ++ evs → Forall (λ e, is_file_event e = true) evs →
  stores w w'.
Proof.
  intros Hc Hfs Hd Hw Hu Ht Hevs. split; try done; [|by exists evs].
  intros c'. rewrite Hfs. destruct (decide (c = c')) as [<-|Hne].
  - rewrite lookup_insert_eq. split; [done|]. intros ?. done.
  - by rewrite lookup_insert_ne.
Qed.

Lemma stores_open_wb p : preserves stores (open_wb p).
Proof.
  intros w r w'. unfold open_wb.
  destruct (has_nul p); [by intros [= <- <-]|].
  destruct (resolve w p) as [e|c]; [by intros [= <- <-]|].
  destruct (lookup_node (fs w) c) as [[|old]|] eqn:Hc, (denied w c);
    intros [= <- <-]; try done.
  - eapply (stores_insert_file _ _ c [] [EvOpen c]); simpl; try done.
    + apply lookup_node_file in Hc. congruence.
    + by repeat constructor.
  - eapply (stores_insert_file _ _ c [] [EvOpen c]); simpl; try done.
    + apply lookup_node_None in Hc. congruence.
    + by repeat constructor.
Qed.

Lemma stores_buffer_write dst buf : preserves stores (buffer_write dst buf).
Proof.
  intros w r w'. unfold buffer_write.
  destruct (fs w !! dst) as [[|data]|] eqn:Hdst; try by intros [= <- <-].
  destruct (decide _); intros [= <- <-].
  - eapply (stores_insert_file _ _ dst _ []); simpl; try done.
    + congruence.
    + by rewrite app_nil_r.
  - eapply (stores_insert_file _ _ dst _ []); simpl; try done.
    + congruence.
    + by rewrite app_nil_r.
Qed.

Lemma stores_stream_read h n : preserves stores (stream_read h n).
Proof.
  intros w r w'. unfold stream_read.
  destruct (closed (streams w h)); intros [= <- <-]; [done|].
  by apply stores_refl_with.
Qed.

Lemma stores_stream_close h : preserves stores (stream_close h).
Proof.
  intros w r w' [= <- <-]. split; simpl; try done.
  exists [EvClose h]. split; [done|]. by repeat constructor.
Qed.

Lemma stores_copyfileobj h dst : preserves stores (copyfileobj h dst).
Proof.
  apply (preserves_copy_loop stores); [apply stores_stream_read|].
  intros buf. apply stores_buffer_write.
Qed.

Section PhaseInvariants.

Context `{FileCheckerLib}.

Lemma store_upload_preserves R `{!PreOrder R} d f :
  (∀ p, preserves R (open_wb p)) →
  (∀ h dst, preserves R (copyfileobj h dst)) →
  (∀ h, preserves R (stream_close h)) →
  preserves R (store_upload d f).
Proof.
  intros Hopen Hcopy Hclose. unfold store_upload, with_open_wb.
  apply (preserves_try_finally R); [|done].
  apply (preserves_bind R); [done|]. intros buffer.
  apply (preserves_try_finally R); [done|]. apply (preserves_ret R).
Qed.

Lemma evolves_store_upload d f : preserves evolves (store_upload d f).
Proof.
  apply (store_upload_preserves evolves);
    auto using evolves_open_wb, evolves_copyfileobj, evolves_stream_close.
Qed.

Lemma stores_store_upload d f : preserves stores (store_upload d f).
Proof.
  apply (store_upload_preserves stores);
    auto using stores_open_wb, stores_copyfileobj, stores_stream_close.
Qed.

Lemma evolves_store_all d files : preserves evolves (store_all d files).
Proof. apply (preserves_for_each evolves), evolves_store_upload. Qed.

Lemma stores_store_all d files : preserves stores (store_all d files).
Proof. apply (preserves_for_each stores), stores_store_upload. Qed.

Lemma evolves_make_request_dir : preserves evolves make_request_dir.
Proof.
  unfold make_request_dir.
  apply (preserves_bind evolves); [apply evolves_uuid4|]. intros u.
  apply (preserves_bind evolves); [apply evolves_makedirs_rev|]. intros _.
  apply (preserves_ret evolves).
Qed.

Lemma evolves_FileChecker specs_path : preserves evolves (FileChecker specs_path).
Proof.
  intros w r w'. unfold FileChecker.
  destruct (checker_init _ _); intros [= <- <-]; apply evolves_log.
Qed.

Lemma evolves_check_files c paths spec : preserves evolves (check_files c paths spec).
Proof.
  intros w r w'. unfold check_files.
  destruct (checker_check_files _ _ _ _); intros [= <- <-]; apply evolves_log.
Qed.

Lemma evolves_validate d : preserves evolves (validate d).
Proof.
  unfold validate.
  apply (preserves_bind evolves); [apply evolves_FileChecker|]. intros c.
  apply (preserves_bind evolves); [apply evolves_glob_star|]. intros paths.
  apply (preserves_bind evolves); [apply evolves_check_files|]. intros v.
  apply (preserves_ret evolves).
Qed.

(** The handler is its three phases in a row. *)
Lemma check_file_list_phases files w :
  check_file_list files w =
  (d <- make_request_dir; store_all d files;; validate d) w.
Proof.
  unfold check_file_list, make_request_dir, store_all, validate, store_upload, bind.
  destruct (uuid4 w) as [[e|u] w1]; [done|].
  fold (request_dir u).
  destruct (os_makedirs (request_dir u) w1) as [[e|[]] w2]; done.
Qed.

Lemma evolves_check_file_list files : preserves evolves (check_file_list files).
Proof.
  intros w r w'. rewrite check_file_list_phases. revert w r w'.
  apply (preserves_bind evolves); [apply evolves_make_request_dir|]. intros d.
  apply (preserves_bind evolves); [apply evolves_store_all|]. intros _.
  apply evolves_validate.
Qed.

End PhaseInvariants.

(** ** Path resolution *)

Lemma namei_app t cur a b :
  namei t cur (a ++ b) =
  match namei t cur a with
  | inl e => inl e
  | inr c => namei t c b
  end.
Proof.
  revert cur. induction a as [|x a IH]; intros cur; simpl; [done|].
  destruct (lookup_node t cur) as [[|data]|]; auto.
  destruct (too_long x); auto.
Qed.

Lemma namei_lexical t cur names c :
  namei t cur names = inr c → c = lexical cur names.
Proof.
  revert cur. induction names as [|x names IH]; intros cur; simpl.
  - by intros [= <-].
  - destruct (lookup_node t cur) as [[|data]|]; try done.
    destruct (too_long x); [done|]. apply IH.
Qed.

Lemma lexical_app cur a b : lexical cur (a ++ b) = lexical (lexical cur a) b.
Proof. revert cur. induction a as [|x a IH]; intros cur; simpl; auto. Qed.

Lemma lexical_canonical cur names :
  Forall (λ x, canonical_name x = true) names → lexical cur names = cur ++ names.
Proof.
  intros Hall. revert cur. induction Hall as [|x names Hx _ IH]; intros cur; simpl.
  - by rewrite app_nil_r.
  - unfold canonical_name in Hx.
    apply andb_true_iff in Hx as [->%negb_true_iff ->%negb_true_iff].
    by rewrite IH, <- app_assoc.
Qed.

Lemma plain_canonical n : plain_name n = true → canonical_name n = true.
Proof.
  intros (_ & Hdot & Hdd & _)%plain_name_spec. unfold canonical_name.
  apply String.eqb_neq in Hdot, Hdd. by rewrite Hdot, Hdd.
Qed.

(** Resolution only asks which locations are directories. *)
Lemma namei_same_dirs t t' cur names c :
  (∀ l, t' !! l = Some Dir ↔ t !! l = Some Dir) →
  namei t cur names = inr c → namei t' cur names = inr c.
Proof.
  intros Hdirs. revert cur. induction names as [|x names IH]; intros cur; simpl; [done|].
  destruct (lookup_node t cur) as [[|data]|] eqn:Hcur; try done.
  assert (lookup_node t' cur = Some Dir) as ->;
    [|destruct (too_long x); [done|apply IH]].
  destruct cur; [done|]. by apply Hdirs.
Qed.

(** The last directory a successful walk looked into. *)
Lemma namei_snoc_inv t cur names x c :
  namei t cur (names ++ [x]) = inr c →
  ∃ d, namei t cur names = inr d ∧ lookup_node t d = Some Dir ∧
       c = (if String.eqb x ".." then parent d
            else if String.eqb x "." then d else d ++ [x]).
Proof.
  rewrite namei_app. destruct (namei t cur names) as [e|d]; [done|]. simpl.
  destruct (lookup_node t d) as [[|data]|] eqn:Hd; try done.
  destruct (too_long x); [done|].
  intros [= <-]. by exists d.
Qed.

(** A path that resolves was walked from its start. *)
Lemma resolve_namei w p c :
  resolve w p = inr c → namei (fs w) (start w p) (parts p) = inr c.
Proof. unfold resolve. by destruct (PATH_MAX <=? path_length p). Qed.

Lemma resolve_plain w r D n c :
  r ≠ NoRoot → Forall (λ x, canonical_name x = true) D → plain_name n = true →
  resolve w (mkPath r (D ++ [n])) = inr c →
  c = D ++ [n] ∧ lookup_node (fs w) D = Some Dir.
Proof.
  intros Hr HD Hn Hres%resolve_namei. revert Hres. unfold start. simpl.
  assert (match r with NoRoot => cwd w | _ => [] end = []) as -> by by destruct r.
  intros (d & Hd & Hdir & ->)%namei_snoc_inv.
  apply namei_lexical in Hd. rewrite lexical_canonical in Hd by done.
  simpl in Hd. subst d.
  apply plain_canonical in Hn. unfold canonical_name in Hn.
  apply andb_true_iff in Hn as [->%negb_true_iff ->%negb_true_iff]. done.
Qed.

Lemma joinpath_rooted d name : root d ≠ NoRoot → root (joinpath d name) ≠ NoRoot.
Proof.
  intros Hd. unfold joinpath. destruct (Str.startswith "/" name) eqn:Hs; [|done].
  unfold Path, splitroot. rewrite Hs. simpl.
  by destruct (negb _ || _).
Qed.

Lemma resolve_rooted w p c :
  root p ≠ NoRoot → resolve w p = inr c → c = lexical [] (parts p).
Proof.
  intros Hr Hres%resolve_namei. revert Hres. unfold start.
  destruct (root p); [done|..]; apply namei_lexical.
Qed.

(** ** What a copy does *)

Lemma copy_loop_ok n h dst w w' old :
  0 < n → copy_loop n h dst w = (inr tt, w') → fs w !! dst = Some (File old) →
  closed (streams w h) = false ∧
  fs w' = <[dst := File (old ++ unread (streams w h))]> (fs w) ∧
  (∀ h', streams w' h' =
         if decide (h' = h) then mkStream [] false else streams w h') ∧
  free w' + length (unread (streams w h)) = free w ∧
  trace w' = trace w.
Proof.
  intros Hn. remember (length (unread (streams w h))) as k eqn:Hk.
  revert w w' old Hk. induction (lt_wf k) as [k _ IH]. intros w w' old ->.
  rewrite copy_loop_step. unfold stream_read.
  destruct (closed (streams w h)) eqn:Hcl; [done|].
  destruct (take n (unread (streams w h))) as [|b buf] eqn:Htake.
  - intros [= <-] Hdst.
    assert (unread (streams w h) = []) as Hnil.
    { destruct (unread (streams w h)) as [|b l] eqn:Hun; [done|].
      destruct n; [lia|]. done. }
    simpl. rewrite Hnil. repeat split; try done.
    + by rewrite app_nil_r, insert_id.
    + intros h'. unfold insert, fn_insert. rewrite drop_nil.
      destruct (decide (h = h')), (decide (h' = h)); congruence.
  - unfold buffer_write. simpl. intros Heq Hdst. rewrite Hdst in Heq.
    destruct (decide _) as [Hfit|]; [|done].
    pose proof (take_drop n (unread (streams w h))) as Hsplit.
    rewrite Htake in Hsplit.
    eapply (IH _ _ _ _ (old ++ b :: buf) eq_refl) in Heq
      as (_ & Hfs & Hst & Hfree & Htr).
    + simpl in *. rewrite fn_lookup_insert in Hfs, Hfree. simpl in *.
      repeat split; try done.
      * rewrite Hfs, insert_insert_eq, <- app_assoc. simpl. by rewrite Hsplit.
      * intros h'. rewrite Hst. destruct (decide (h' = h)); [done|].
        by rewrite fn_lookup_insert_ne.
      * apply (f_equal length) in Hsplit. simpl in Hsplit.
        rewrite length_app in Hsplit. lia.
    + simpl. by rewrite lookup_insert_eq.
  Unshelve.
  simpl. rewrite fn_lookup_insert. simpl.
  apply (f_equal length) in Hsplit. simpl in Hsplit.
  rewrite length_app in Hsplit. lia.
Qed.

(** ** What storing one upload does *)

Global Instance keeps_preorder {B} (f : world → B) : PreOrder (keeps f).
Proof. split; unfold keeps; [done|]. intros w1 w2 w3. congruence. Qed.

Lemma COPY_BUFSIZE_pos : 0 < COPY_BUFSIZE.
Proof. unfold COPY_BUFSIZE. lia. Qed.

Lemma keeps_trace_copyfileobj h dst : preserves (keeps trace) (copyfileobj h dst).
Proof.
  apply (preserves_copy_loop (keeps trace)).
  - intros w r w'. unfold stream_read.
    destruct (closed (streams w h)); by intros [= <- <-].
  - intros buf w r w'. unfold buffer_write.
    repeat case_match; by intros [= <- <-].
Qed.

Lemma open_wb_run p w r w' :
  open_wb p w = (r, w') →
  (∃ e, r = inl e ∧ w' = w) ∨
  (∃ c, r = inr c ∧ has_nul p = false ∧ resolve w p = inr c ∧
        lookup_node (fs w) c ≠ Some Dir ∧ c ≠ [] ∧
        fs w' = <[c := File []]> (fs w) ∧ streams w' = streams w ∧
        trace w' = trace w ++ [EvOpen c] ∧
        free w ≤ free w').
Proof.
  unfold open_wb. destruct (has_nul p) eqn:Hnul; [intros [= <- <-]; eauto|].
  destruct (resolve w p) as [e|c] eqn:Hres; [intros [= <- <-]; eauto|].
  assert (lookup_node (fs w) c ≠ Some Dir → c ≠ []) as Hroot
    by (intros Hnd ->; by apply Hnd).
  destruct (lookup_node (fs w) c) as [[|old]|] eqn:Hc, (denied w c);
    intros [= <- <-]; eauto;
    right; exists c; simpl; repeat split; try done; try lia;
    first [by apply Hroot | by rewrite Hc].
Qed.

Lemma stream_close_run h w r w' :
  stream_close h w = (r, w') →
  r = inr tt ∧ fs w' = fs w ∧ trace w' = trace w ++ [EvClose h] ∧
  (∀ h', streams w' h' =
         if decide (h' = h) then mkStream (unread (streams w h)) true
         else streams w h').
Proof.
  intros [= <- <-]. simpl. repeat split; try done.
  intros h'. unfold insert, fn_insert.
  destruct (decide (h = h')), (decide (h' = h)); congruence.
Qed.

(** The stream of an upload is closed once storing it was tried, whatever
    came of the open and of the copy. *)
Lemma store_upload_closes d f w r w' :
  store_upload d f w = (r, w') → closed (streams w' (file f)) = true.
Proof.
  intros (r1 & w1 & r2 & _ & Hclose & _)%try_finally_run.
  apply stream_close_run in Hclose as (_ & _ & _ & Hst).
  rewrite Hst. by rewrite decide_True.
Qed.

Lemma store_upload_trace d f w r w' :
  store_upload d f w = (r, w') →
  trace w' = trace w ++ [EvClose (file f)] ∨
  ∃ c, resolve w (joinpath d (filename f)) = inr c ∧
       trace w' = trace w ++ [EvOpen c; EvClose (file f)].
Proof.
  intros (r1 & w1 & r2 & Hbody & Hclose & _)%try_finally_run.
  apply stream_close_run in Hclose as (_ & _ & Htr & _). rewrite Htr.
  unfold with_open_wb in Hbody.
  apply bind_run in Hbody as [(e & Hopen & _)|(c & w0 & Hopen & Hcopy)].
  - apply open_wb_run in Hopen as [(_ & _ & ->)|(c & [=] & _)]. by left.
  - apply open_wb_run in Hopen as [(_ & [=] & _)|(c' & [= <-] & _ & Hres & _ & _ & _ & _ & Ht0 & _)].
    apply try_finally_run in Hcopy as (r3 & w3 & r4 & Hcopy & [= <- <-] & _).
    apply keeps_trace_copyfileobj in Hcopy. unfold keeps in Hcopy.
    right. exists c. split; [done|]. by rewrite Hcopy, Ht0, <- app_assoc.
Qed.

Lemma store_upload_ok d f w w' :
  store_upload d f w = (inr tt, w') →
  ∃ c, has_nul (joinpath d (filename f)) = false ∧
       resolve w (joinpath d (filename f)) = inr c ∧
       lookup_node (fs w) c ≠ Some Dir ∧ c ≠ [] ∧
       closed (streams w (file f)) = false ∧
       fs w' = <[c := File (unread (streams w (file f)))]> (fs w) ∧
       (∀ h', streams w' h' =
              if decide (h' = file f) then mkStream [] true else streams w h') ∧
       trace w' = trace w ++ [EvOpen c; EvClose (file f)].
Proof.
  intros (r1 & w1 & r2 & Hbody & Hclose & Hr)%try_finally_run.
  apply stream_close_run in Hclose as (Hr2 & Hfs' & Htr' & Hst').
  subst r2. simpl in Hr. subst r1.
  unfold with_open_wb in Hbody.
  apply bind_ok in Hbody as (c & w0 & Hopen & Hcopy).
  apply open_wb_run in Hopen
    as [(_ & [=] & _)|(c' & [= <-] & Hnul & Hres & Hnd & Hne & Hfs0 & Hst0 & Ht0 & _)].
  apply try_finally_run in Hcopy as (r3 & w3 & r4 & Hcopy & [= <- <-] & Hr3).
  simpl in Hr3. subst r3.
  eapply (copy_loop_ok _ _ _ _ _ []) in Hcopy
    as (Hcl & Hfs1 & Hst1 & _ & Htr1); [|apply COPY_BUFSIZE_pos|by rewrite Hfs0, lookup_insert_eq].
  rewrite Hst0 in Hcl, Hfs1. simpl in Hfs1. exists c. repeat split; try done.
  - by rewrite Hfs', Hfs1, Hfs0, insert_insert_eq.
  - intros h'. rewrite Hst'. destruct (decide (h' = file f)) as [->|Hh'].
    + by rewrite Hst1, decide_True.
    + by rewrite Hst1, decide_False, Hst0.
  - by rewrite Htr', Htr1, Ht0, <- app_assoc.
Qed.

(** ** Directory listings *)

Lemma entry_of_spec d c x : entry_of d c = Some x ↔ c = d ++ [x].
Proof.
  unfold entry_of. split.
  - destruct (list.last c) as [y|]; [|done].
    destruct (decide (c = d ++ [y])); [|done]. by intros [= <-].
  - intros ->. rewrite last_snoc. by rewrite decide_True.
Qed.

Lemma elem_of_listdir t d x : x ∈ listdir t d ↔ is_Some (t !! (d ++ [x])).
Proof.
  unfold listdir. rewrite elem_of_elements, elem_of_set_omap. split.
  - intros (c & Hc & ->%entry_of_spec). by apply elem_of_dom.
  - intros Hx. exists (d ++ [x]). split; [by apply elem_of_dom|by apply entry_of_spec].
Qed.

Lemma NoDup_listdir t d : NoDup (listdir t d).
Proof. apply NoDup_elements. Qed.

Lemma listdir_dom t t' d : dom t = dom t' → listdir t d = listdir t' d.
Proof. unfold listdir. by intros ->. Qed.

Lemma listdir_nil t d : (∀ x, t !! (d ++ [x]) = None) → listdir t d = [].
Proof.
  intros Hnone. destruct (listdir t d) as [|x l] eqn:Hl; [done|].
  assert (x ∈ listdir t d) as Hx by (rewrite Hl; left).
  apply elem_of_listdir in Hx as [n Hn]. by rewrite Hnone in Hn.
Qed.

(** ** Making the request directory *)

Lemma parent_snoc (l : loc) x : parent (l ++ [x]) = l.
Proof. unfold parent. rewrite length_app. simpl. by rewrite Nat.add_sub, take_app_length. Qed.

Lemma is_dir_spec t c : is_dir t c = true ↔ lookup_node t c = Some Dir.
Proof. unfold is_dir. destruct (lookup_node t c) as [[|data]|]; naive_solver. Qed.

Lemma fs_wf_insert t c n :
  fs_wf t → t !! c = None → lookup_node t (parent c) = Some Dir →
  fs_wf (<[c := n]> t).
Proof.
  intros Hwf Hc Hpar c' [n' Hn']. apply is_dir_spec.
  assert (lookup_node t (parent c') = Some Dir) as Hp.
  { destruct (decide (c = c')) as [<-|Hne]; [done|].
    rewrite lookup_insert_ne in Hn' by done. apply is_dir_spec, Hwf. eauto. }
  destruct (parent c') as [|y l] eqn:Hpc; [done|]. simpl in *.
  destruct (decide (c = y :: l)) as [->|Hne]; [congruence|].
  by rewrite lookup_insert_ne.
Qed.

Lemma made_refl d w : made d w w.
Proof. split; auto. Qed.

Lemma made_trans d1 d2 w1 w2 w3 :
  d1 `prefix_of` d2 → made d1 w1 w2 → made d2 w2 w3 → made d2 w1 w3.
Proof.
  intros Hpre [Hfs1 Hs1 Hf1 Hd1 Hw1] [Hfs2 Hs2 Hf2 Hd2 Hw2]. split; try congruence; [|auto].
  intros c. destruct (Hfs2 c) as [Heq2|(Hn2 & Hd & Hp2)], (Hfs1 c) as [Heq1|(Hn1 & Hdir & Hp1)].
  - left. congruence.
  - right. repeat split; [done|congruence|by etrans].
  - right. repeat split; [congruence|done..].
  - congruence.
Qed.

Lemma os_mkdir_run r ps w res w' :
  r ≠ NoRoot → Forall (λ x, canonical_name x = true) ps →
  os_mkdir (mkPath r ps) w = (res, w') →
  (∃ e, res = inl e ∧ w' = w) ∨
  (res = inr tt ∧ ps ≠ [] ∧ fs w !! ps = None ∧
   lookup_node (fs w) (parent ps) = Some Dir ∧
   w' = log (EvMkdir ps) (set_fs (<[ps := Dir]> (fs w)) w)).
Proof.
  intros Hr Hps. unfold os_mkdir.
  destruct (resolve w (mkPath r ps)) as [e|c] eqn:Hres; [intros [= <- <-]; eauto|].
  pose proof Hres as Hc. apply resolve_rooted in Hc; [|done]. simpl in Hc.
  rewrite lexical_canonical in Hc by done. simpl in Hc. subst c.
  destruct (lookup_node (fs w) ps) eqn:Hlook; [intros [= <- <-]; eauto|].
  destruct (denied w ps); intros [= <- <-]; [eauto|].
  right. destruct ps as [|x ps _] using rev_ind; [done|].
  repeat split; try done.
  - by destruct ps.
  - by apply lookup_node_None.
  - apply resolve_namei in Hres. unfold start in Hres. simpl in Hres.
    assert (match r with NoRoot => cwd w | _ => [] end = []) as Hs by by destruct r.
    rewrite Hs in Hres. apply namei_snoc_inv in Hres as (d & Hd & Hdir & _).
    apply namei_lexical in Hd. apply Forall_app in Hps as [Hps _].
    rewrite lexical_canonical in Hd by done. simpl in Hd. subst d.
    by rewrite parent_snoc.
Qed.

Lemma made_os_mkdir r ps w res w' :
  r ≠ NoRoot → Forall (λ x, canonical_name x = true) ps →
  os_mkdir (mkPath r ps) w = (res, w') →
  made ps w w' ∧
  (res = inr tt → ps ≠ [] ∧ fs w !! ps = None ∧ fs w' !! ps = Some Dir).
Proof.
  intros Hr Hps [(e & -> & ->)|(-> & Hne & Hnone & Hpar & ->)]%os_mkdir_run; try done.
  - split; [apply made_refl|done].
  - split; [|intros _; repeat split; [done..|simpl; by rewrite lookup_insert_eq]].
    split; simpl; try done.
    + intros c. destruct (decide (ps = c)) as [<-|Hc].
      * right. by rewrite lookup_insert_eq.
      * left. by rewrite lookup_insert_ne.
    + intros Hwf. by apply fs_wf_insert.
Qed.

Lemma made_makedirs_rev r rparts w res w' :
  r ≠ NoRoot → Forall (λ x, canonical_name x = true) rparts →
  makedirs_rev r rparts w = (res, w') →
  made (rev rparts) w w' ∧
  (res = inr tt →
   rparts ≠ [] ∧ fs w !! rev rparts = None ∧ fs w' !! rev rparts = Some Dir).
Proof.
  intros Hr. revert w res w'.
  induction rparts as [|tail rhead IH]; intros w res w' Hcan; simpl.
  - intros Hmk. by apply made_os_mkdir in Hmk.
  - inversion_clear Hcan as [|? ? Htail Hhead].
    assert (Forall (λ x, canonical_name x = true) (rev rhead ++ [tail])) as Hall.
    { apply Forall_app. split; [by apply Forall_rev|by constructor]. }
    assert (∀ w1, made (rev rhead) w w1 →
                  os_mkdir (mkPath r (rev rhead ++ [tail])) w1 = (res, w') →
                  made (rev rhead ++ [tail]) w w' ∧
                  (res = inr tt →
                   tail :: rhead ≠ [] ∧ fs w !! (rev rhead ++ [tail]) = None ∧
                   fs w' !! (rev rhead ++ [tail]) = Some Dir)) as Hlast.
    { intros w1 Hmade Hmk. apply made_os_mkdir in Hmk as [Hm Hok]; [|done..].
      split; [eapply made_trans; [by apply prefix_app_r|done..]|].
      intros (_ & Hnone & Hdir)%Hok. repeat split; [done| |done].
      destruct (md_fs _ _ _ Hmade (rev rhead ++ [tail])) as [<-|(_ & Hd & _)]; congruence. }
    assert (∀ r1 w1,
              (if bool_decide (r = NoRoot ∧ rhead = []) then ret tt
               else head_exists <- os_path_exists (mkPath r (rev rhead));
                    if head_exists then ret tt
                    else except_FileExistsError_pass (makedirs_rev r rhead)) w
              = (r1, w1) → made (rev rhead) w w1) as Hfirst.
    { intros r1 w1. case_bool_decide; [intros [= <- <-]; apply made_refl|].
      intros [(e & Hex & _)|(b & w0 & Hex & Hrec)]%bind_run.
      - unfold os_path_exists in Hex. by destruct (resolve _ _).
      - assert (w0 = w) as -> by (unfold os_path_exists in Hex;
          destruct (resolve _ _); by simplify_eq).
        destruct b; [injection Hrec as <- <-; apply made_refl|].
        unfold except_FileExistsError_pass in Hrec.
        destruct (makedirs_rev r rhead w) as [r2 w2] eqn:Hmk.
        apply IH in Hmk as [Hm _]; [|done].
        destruct r2 as [[]|]; by simplify_eq. }
    intros [(e & H1 & ->)|([] & w1 & H1 & Hmk)]%bind_run.
    + split; [|done]. eapply made_trans; [by apply prefix_app_r| |apply made_refl].
      by eapply Hfirst.
    + apply (Hlast w1); [|done]. by eapply Hfirst.
Qed.

Lemma request_dir_loc u : request_dir u = mkPath Slash (request_loc u).
Proof. apply request_dir_plain, uuid_str_plain. Qed.

Lemma request_loc_canonical u :
  Forall (λ x, canonical_name x = true) (request_loc u).
Proof.
  repeat constructor. apply plain_canonical, uuid_str_plain.
Qed.

Lemma request_loc_inj u u' :
  (u < 2 ^ 128)%N → (u' < 2 ^ 128)%N → request_loc u = request_loc u' → u = u'.
Proof.
  intros Hu Hu' Heq. apply uuid_str_inj; [exact Hu|exact Hu'|].
  exact (f_equal (λ l : loc, nth 3 l "") Heq).
Qed.

Lemma prefix_snoc_not (l : loc) x : ¬ (l ++ [x]) `prefix_of` l.
Proof.
  intros Hp%prefix_length. rewrite length_app in Hp. simpl in Hp. lia.
Qed.

Lemma fs_wf_no_orphan t d x : fs_wf t → d ≠ [] → t !! d = None → t !! (d ++ [x]) = None.
Proof.
  intros Hwf Hne Hd. destruct (t !! (d ++ [x])) as [n|] eqn:Hx; [|done].
  assert (is_dir t (parent (d ++ [x])) = true) as Hp by (apply Hwf; eauto).
  rewrite parent_snoc in Hp. apply is_dir_spec in Hp.
  rewrite lookup_node_ne in Hp by done. congruence.
Qed.

(** A request directory that was made is new, is a directory, and is empty. *)
Lemma make_request_dir_ok w d w1 :
  make_request_dir w = (inr d, w1) →
  d = mkPath Slash (request_loc (next_uuid w)) ∧
  made (request_loc (next_uuid w)) (set_drawn (S (drawn w)) w) w1 ∧
  fs w !! request_loc (next_uuid w) = None ∧
  fs w1 !! request_loc (next_uuid w) = Some Dir ∧
  (fs_wf (fs w) → listdir (fs w1) (request_loc (next_uuid w)) = []).
Proof.
  unfold make_request_dir.
  intros (u & w0 & [= <- <-] & Hrest)%bind_ok.
  apply bind_ok in Hrest as ([] & w2 & Hmk & [= <- <-]).
  fold (next_uuid w) in *. rewrite request_dir_loc in *.
  unfold os_makedirs in Hmk. cbn [root parts] in Hmk.
  apply made_makedirs_rev in Hmk as [Hmade Hok]; [|done|].
  2:{ apply Forall_rev. apply (request_loc_canonical (next_uuid w)). }
  rewrite rev_involutive in Hmade, Hok.
  destruct (Hok eq_refl) as (_ & Hnone & Hdir). simpl in Hnone.
  split_and!; try done.
  intros Hwf. apply listdir_nil. intros x.
  destruct (md_fs _ _ _ Hmade (request_loc (next_uuid w) ++ [x]))
    as [->|(_ & _ & Hpre)]; [|by apply prefix_snoc_not in Hpre].
  by apply (fs_wf_no_orphan (fs w)).
Qed.

(** ** The tree after the uploads *)

Lemma stored_ext d s s' files t :
  (∀ f, f ∈ files → s (file f) = s' (file f)) →
  stored d s files t = stored d s' files t.
Proof.
  unfold stored. revert t. induction files as [|f files IH]; intros t Hext; simpl; [done|].
  rewrite (Hext f) by left. apply IH. intros g Hg. apply Hext. by right.
Qed.

Lemma stored_cons d s f files t :
  stored d s (f :: files) t
  = stored d s files (<[d ++ [filename f] := File (unread (s (file f)))]> t).
Proof. done. Qed.

Lemma stored_lookup_other d s files t c :
  (∀ f, f ∈ files → c ≠ d ++ [filename f]) → stored d s files t !! c = t !! c.
Proof.
  revert t. induction files as [|f files IH]; intros t Hother; [done|].
  rewrite stored_cons, IH.
  - rewrite lookup_insert_ne; [done|]. intros Heq. eapply Hother; [left|done].
  - intros g Hg. apply Hother. by right.
Qed.

Lemma stored_lookup d s files t f :
  NoDup (filename <$> files) → f ∈ files →
  stored d s files t !! (d ++ [filename f]) = Some (File (unread (s (file f)))).
Proof.
  revert t. induction files as [|g files IH]; intros t Hnd Hf; [by apply elem_of_nil in Hf|].
  rewrite fmap_cons in Hnd. apply list.NoDup_cons in Hnd as [Hg Hnd].
  rewrite stored_cons. apply elem_of_cons in Hf as [->|Hf]; [|by apply IH].
  rewrite stored_lookup_other; [by rewrite lookup_insert_eq|].
  intros f Hf Heq. apply Hg. apply app_inj_tail in Heq as [_ ->].
  by apply list_elem_of_fmap_2.
Qed.

Lemma dom_stored d s files t :
  dom (stored d s files t)
  = list_to_set ((λ f, d ++ [filename f]) <$> files) ∪ dom t.
Proof.
  revert t. induction files as [|f files IH]; intros t.
  - simpl. set_solver.
  - rewrite stored_cons, IH, dom_insert_L, fmap_cons. simpl. set_solver.
Qed.

Lemma listdir_stored d s files t :
  listdir t d = [] → NoDup (filename <$> files) →
  listdir (stored d s files t) d ≡ₚ filename <$> files.
Proof.
  intros Hempty Hnd. apply NoDup_Permutation; [apply NoDup_listdir|done|].
  intros x. rewrite elem_of_listdir, <- elem_of_dom, dom_stored.
  rewrite elem_of_union, elem_of_list_to_set, list_elem_of_fmap. split.
  - intros [(f & [_ ->]%app_inj_tail & Hf)|Hx]; [by apply list_elem_of_fmap_2|].
    apply elem_of_dom, elem_of_listdir in Hx. rewrite Hempty in Hx.
    by apply elem_of_nil in Hx.
  - intros (f & -> & Hf)%list_elem_of_fmap. left. eauto.
Qed.

(** ** Storing all uploads *)

Lemma store_all_cons d f files w :
  store_all d (f :: files) w =
  match store_upload d f w with
  | (inl e, w1) => (inl e, w1)
  | (inr _, w1) => store_all d files w1
  end.
Proof. done. Qed.

(** Where the uploads land when all of them were stored: each at the
    location its unchecked name resolves to. *)
Lemma store_all_dom d files w w' :
  root d ≠ NoRoot → store_all d files w = (inr tt, w') →
  dom (fs w')
  = list_to_set ((λ f, lexical [] (parts (joinpath d (filename f)))) <$> files)
    ∪ dom (fs w).
Proof.
  intros Hd. revert w. induction files as [|f files IH]; intros w.
  - intros [= <-]. set_solver.
  - rewrite store_all_cons.
    destruct (store_upload d f w) as [[e|[]] w1] eqn:Hup; [done|]. intros Hrest.
    apply store_upload_ok in Hup as (c & _ & Hres & _ & _ & _ & Hfs & _).
    apply resolve_rooted in Hres; [|by apply joinpath_rooted]. subst c.
    rewrite (IH _ Hrest), Hfs, dom_insert_L, fmap_cons. simpl. set_solver.
Qed.

(** With plain names the uploads land directly in the request directory,
    each with the bytes of its own stream; no stream is used twice. *)
Lemma store_all_plain r D files w w' :
  r ≠ NoRoot → Forall (λ x, canonical_name x = true) D →
  Forall (λ f, plain_name (filename f) = true) files →
  store_all (mkPath r D) files w = (inr tt, w') →
  fs w' = stored D (streams w) files (fs w) ∧
  NoDup (file <$> files) ∧
  Forall (λ f, closed (streams w (file f)) = false) files ∧
  (∀ h, streams w' h =
        if decide (h ∈ file <$> files) then mkStream [] true else streams w h) ∧
  trace w' = trace w ++
    flat_map (λ f, [EvOpen (D ++ [filename f]); EvClose (file f)]) files.
Proof.
  intros Hr HD Hplain. revert w.
  induction Hplain as [|f files Hf _ IH]; intros w.
  - intros [= <-]. simpl. rewrite app_nil_r. repeat split; try done. constructor.
  - rewrite store_all_cons.
    destruct (store_upload (mkPath r D) f w) as [[e|[]] w1] eqn:Hup; [done|].
    intros Hrest.
    apply store_upload_ok in Hup as (c & _ & Hres & _ & _ & Hcl & Hfs & Hst & Htr).
    rewrite joinpath_plain in Hres by done. simpl in Hres.
    apply resolve_plain in Hres as [-> _]; [|done..].
    apply IH in Hrest as (Hfs' & Hnd & Hopen & Hst' & Htr').
    assert (∀ g, g ∈ files → file g ≠ file f) as Hfresh.
    { intros g Hg Heq. rewrite list.Forall_forall in Hopen.
      specialize (Hopen g Hg). rewrite Heq, Hst in Hopen.
      by rewrite decide_True in Hopen. }
    assert (file f ∉ file <$> files) as Hnotin.
    { intros (g & Heq & Hg)%list_elem_of_fmap. by eapply Hfresh. }
    repeat split.
    + rewrite Hfs', Hfs, stored_cons. apply stored_ext.
      intros g Hg. rewrite Hst. by rewrite decide_False by by apply Hfresh.
    + rewrite fmap_cons. by apply list.NoDup_cons.
    + constructor; [done|]. rewrite list.Forall_forall in Hopen |- *.
      intros g Hg. specialize (Hopen g Hg).
      by rewrite Hst, decide_False in Hopen by by apply Hfresh.
    + intros h. rewrite Hst', fmap_cons.
      destruct (decide (h ∈ file <$> files)) as [Hin|Hout].
      * by rewrite decide_True by by right.
      * rewrite Hst. destruct (decide (h = file f)) as [->|Hh].
        -- by rewrite decide_True by left.
        -- rewrite decide_False; [done|]. by intros [?|?]%elem_of_cons.
    + rewrite Htr', Htr. simpl. by rewrite <- app_assoc.
Qed.

(** Storing stops at the first upload that fails: the world is the one that
    upload left, and none of the later uploads is touched. *)
Lemma store_all_stops d pre f post w w1 e w2 :
  store_all d pre w = (inr tt, w1) → store_upload d f w1 = (inl e, w2) →
  store_all d (pre ++ f :: post) w = (inl e, w2).
Proof.
  intros Hpre Hf. unfold store_all in *. rewrite for_each_app, Hpre. simpl.
  unfold bind. fold (store_upload d f w1). by rewrite Hf.
Qed.

Lemma store_all_fails d files w e w' :
  store_all d files w = (inl e, w') →
  ∃ pre f post w1,
    files = pre ++ f :: post ∧ store_all d pre w = (inr tt, w1) ∧
    store_upload d f w1 = (inl e, w').
Proof.
  revert w. induction files as [|f files IH]; intros w; [done|].
  rewrite store_all_cons.
  destruct (store_upload d f w) as [[e1|[]] w1] eqn:Hup.
  - intros [= <- <-]. by exists [], f, files, w.
  - intros (pre & g & post & w2 & -> & Hpre & Hg)%IH.
    exists (f :: pre), g, post, w2. split; [done|]. split; [|done].
    by rewrite store_all_cons, Hup.
Qed.

(** Every upload whose storing was tried has its stream closed at the end. *)
Lemma store_all_closes d files w r w' :
  store_all d files w = (r, w') →
  (r = inr tt → Forall (λ f, closed (streams w' (file f)) = true) files) ∧
  (∀ pre f post w1 e,
     files = pre ++ f :: post → store_all d pre w = (inr tt, w1) →
     store_upload d f w1 = (inl e, w') →
     Forall (λ g, closed (streams w' (file g)) = true) (pre ++ [f])).
Proof.
  intros Hrun. split.
  - intros ->. revert w Hrun. induction files as [|f files IH]; intros w; [done|].
    rewrite store_all_cons.
    destruct (store_upload d f w) as [[e|[]] w1] eqn:Hup; [done|]. intros Hrest.
    constructor; [|by eapply IH].
    eapply ev_closed; [by eapply evolves_store_all|by eapply store_upload_closes].
  - intros pre f post w1 e _ Hpre Hf. apply Forall_app. split.
    + clear Hrun. revert w Hpre. induction pre as [|g pre IH]; intros w; [done|].
      rewrite store_all_cons.
      destruct (store_upload d g w) as [[e'|[]] w0] eqn:Hup; [done|]. intros Hrest.
      constructor; [|by eapply IH].
      eapply ev_closed; [by eapply evolves_store_upload|].
      eapply ev_closed; [by eapply evolves_store_all|by eapply store_upload_closes].
    + constructor; [|done]. by eapply store_upload_closes.
Qed.

(** ** The request directory stays where it is *)

Lemma namei_mono t t' cur names c :
  (∀ l, t !! l = Some Dir → t' !! l = Some Dir) →
  namei t cur names = inr c → namei t' cur names = inr c.
Proof.
  intros Hdirs. revert cur. induction names as [|x names IH]; intros cur; simpl; [done|].
  destruct (lookup_node t cur) as [[|data]|] eqn:Hcur; try done.
  assert (lookup_node t' cur = Some Dir) as ->;
    [|destruct (too_long x); [done|apply IH]].
  destruct cur; [done|]. by apply Hdirs.
Qed.

Lemma resolve_mono w w' p c :
  cwd w' = cwd w → (∀ l, fs w !! l = Some Dir → fs w' !! l = Some Dir) →
  resolve w p = inr c → resolve w' p = inr c.
Proof.
  intros Hcwd Hdirs. unfold resolve, start. rewrite Hcwd.
  destruct (PATH_MAX <=? path_length p); [done|]. by apply namei_mono.
Qed.

Lemma evolves_dirs w w' l :
  evolves w w' → fs w !! l = Some Dir → fs w' !! l = Some Dir.
Proof.
  intros Hev Hl. apply (ev_fs _ _ Hev) in Hl as (n' & Hn' & Hk).
  by destruct n'.
Qed.

Lemma evolves_resolve w w' p c :
  evolves w w' → resolve w p = inr c → resolve w' p = inr c.
Proof.
  intros Hev. apply resolve_mono; [apply Hev|]. intros l. by apply evolves_dirs.
Qed.

Lemma make_request_dir_resolves w d w1 :
  make_request_dir w = (inr d, w1) →
  resolve w1 d = inr (request_loc (next_uuid w)).
Proof.
  unfold make_request_dir.
  intros (u & w0 & [= <- <-] & Hrest)%bind_ok.
  apply bind_ok in Hrest as ([] & w2 & Hmk & [= <- <-]).
  fold (next_uuid w) in *. rewrite request_dir_loc in *.
  unfold os_makedirs in Hmk. cbn [root parts] in Hmk.
  change (rev (request_loc (next_uuid w)))
    with (UUID.str (next_uuid w) :: rev ["home"; "app"; "input"]) in Hmk.
  cbn [makedirs_rev] in Hmk.
  apply bind_ok in Hmk as ([] & w3 & _ & Hlast).
  pose proof Hlast as Hev%evolves_os_mkdir.
  unfold os_mkdir in Hlast.
  change (rev (UUID.str (next_uuid w) :: rev ["home"; "app"; "input"]))
    with (request_loc (next_uuid w)) in Hlast.
  destruct (resolve w3 _) as [e|c] eqn:Hres; [done|].
  pose proof Hres as Hc%resolve_rooted; [|done]. cbn [parts] in Hc.
  rewrite lexical_canonical in Hc by apply request_loc_canonical.
  rewrite app_nil_l in Hc. subst c. by eapply evolves_resolve.
Qed.

Lemma glob_paths_dir w r D :
  resolve w (mkPath r D) = inr D → fs w !! D = Some Dir →
  glob_paths w (mkPath r D) = (λ x, mkPath r (D ++ [x])) <$> listdir (fs w) D.
Proof.
  intros Hres HD. unfold glob_paths. rewrite Hres.
  assert (lookup_node (fs w) D = Some Dir) as -> by by destruct D.
  done.
Qed.

Section Validation.

Context `{FileCheckerLib}.

Lemma validate_run d w r w' :
  validate d w = (r, w') →
  fs w' = fs w ∧ streams w' = streams w ∧
  ((∃ e, checker_init "/home/app/file_checker_spec" (fs w) = inl e ∧ r = inl e ∧
         trace w' = trace w ++ [EvNewChecker "/home/app/file_checker_spec"]) ∨
   (∃ ck, checker_init "/home/app/file_checker_spec" (fs w) = inr ck ∧
          trace w' = trace w ++ [EvNewChecker "/home/app/file_checker_spec";
                                  EvCheckFiles (glob_paths w d) "bodc"] ∧
          r = match checker_check_files ck (fs w) (glob_paths w d) "bodc" with
              | inl e => inl e
              | inr v => inr {["results" := v]}
              end)).
Proof.
  unfold validate, bind, FileChecker, glob_star, check_files, ret.
  destruct (checker_init _ (fs w)) as [e|ck] eqn:Hinit.
  - intros [= <- <-]. split_and!; try done. left. by exists e.
  - cbn [fs log].
    change (glob_paths (log _ w) d) with (glob_paths w d).
    destruct (checker_check_files ck (fs w) (glob_paths w d) "bodc") as [e|v] eqn:Hck;
      intros [= <- <-]; (split_and!; try done); right; exists ck;
      rewrite Hck; simpl; by rewrite <- app_assoc.
Qed.

Lemma check_file_list_ok files w r w' :
  check_file_list files w = (inr r, w') →
  ∃ w1 w2,
    make_request_dir w = (inr (mkPath Slash (request_loc (next_uuid w))), w1) ∧
    store_all (mkPath Slash (request_loc (next_uuid w))) files w1 = (inr tt, w2) ∧
    validate (mkPath Slash (request_loc (next_uuid w))) w2 = (inr r, w').
Proof.
  rewrite check_file_list_phases.
  intros (d & w1 & Hmk & Hrest)%bind_ok.
  pose proof Hmk as (-> & _)%make_request_dir_ok.
  apply bind_ok in Hrest as ([] & w2 & Hstore & Hval). by exists w1, w2.
Qed.

End Validation.

(** A call's outcome and the world it leaves, taken apart. *)
Lemma run_eq {A} (m : M A) (w : world) (r : exn + A) :
  (m w).1 = r → m w = (r, (m w).2).
Proof. destruct (m w). simpl. by intros ->. Qed.

(** * The claims *)

(** ** The status probe *)

(** C9: every call of the status probe returns the one-element set holding
    ["OK"] and leaves the world as it was; so do any number of calls in a row. *)
Theorem app_status_fixed (n : nat) (w : world) :
  app_status w = (inr {["OK"]}, w) ∧
  call_times n app_status w = (inr (replicate n {["OK"]}), w).
Proof.
  split; [done|]. induction n as [|n IH]; [done|].
  cbn [call_times replicate]. unfold bind at 1. cbn [app_status ret].
  unfold bind. by rewrite IH.
Qed.

(** ** Closing the upload streams *)

Lemma reached_closed d files w :
  Forall (λ f, closed (streams (store_all d files w).2 (file f)) = true)
    (reached d files w).
Proof.
  revert w. induction files as [|f files IH]; intros w; [constructor|].
  rewrite store_all_cons. cbn [reached].
  destruct (store_upload d f w) as [[e|[]] w1] eqn:Hup.
  - repeat constructor. by eapply store_upload_closes.
  - constructor; [|apply IH].
    destruct (store_all d files w1) as [r w2] eqn:Hrest.
    eapply ev_closed; [by eapply evolves_store_all|by eapply store_upload_closes].
Qed.

Section StreamsClosed.

Context `{FileCheckerLib}.

(** C6: the stream of an upload is closed once its copy was attempted,
    whether the open and the copy went through or raised; and it is still
    closed when the handler is left, for every upload the loop got to. *)
Theorem upload_streams_closed :
  (∀ d f w, closed (streams (store_upload d f w).2 (file f)) = true) ∧
  (∀ files w,
     Forall (λ f, closed (streams (check_file_list files w).2 (file f)) = true)
       (attempted files w)).
Proof.
  split.
  - intros d f w. destruct (store_upload d f w) as [r w'] eqn:Hup.
    by eapply store_upload_closes.
  - intros files w. rewrite check_file_list_phases. unfold attempted, bind.
    destruct (make_request_dir w) as [[e|d] w1]; [constructor|].
    pose proof (reached_closed d files w1) as Hclosed.
    destruct (store_all d files w1) as [[e|[]] w2]; [done|].
    destruct (validate d w2) as [r w'] eqn:Hval.
    eapply list.Forall_impl; [exact Hclosed|]. intros f Hf. simpl in *.
    eapply ev_closed; [by eapply evolves_validate|done].
Qed.

End StreamsClosed.

(** ** Where unchecked names lead *)

Lemma joinpath_dotdot d x :
  plain_name x = true →
  joinpath d ("../" +:+ x) = mkPath (root d) (parts d ++ [".."; x]).
Proof.
  intros (Hne & Hdot & _ & Hs & _)%plain_name_spec.
  unfold joinpath.
  change (Str.startswith "/" ("../" +:+ x)) with false.
  cbv iota. unfold Path.
  change (splitroot ("../" +:+ x)) with (NoRoot, "../" +:+ x).
  cbv beta iota zeta.
  change ("../" +:+ x) with (".." +:+ String slash x).
  rewrite split_app_sep by done. rewrite (split_no_sep _ _ Hs).
  apply String.eqb_neq in Hne, Hdot.
  cbn [parts List.filter]. change (keep_part "..") with true. cbv iota.
  unfold keep_part. by rewrite Hne, Hdot.
Qed.

Lemma destination_dotdot u x :
  plain_name x = true → destination u ("../" +:+ x) = ["home"; "app"; "input"; x].
Proof.
  intros Hx. unfold destination. rewrite joinpath_dotdot, request_dir_loc by done.
  cbn [parts root]. rewrite lexical_app.
  rewrite (lexical_canonical [] (request_loc u)) by apply request_loc_canonical.
  apply plain_canonical in Hx. unfold canonical_name in Hx.
  apply andb_true_iff in Hx as [Hdd%negb_true_iff Hd%negb_true_iff].
  rewrite app_nil_l. cbn [lexical]. change (".." =? "..")%string with true.
  cbv iota. rewrite Hdd, Hd. done.
Qed.

Lemma destination_absolute u x :
  plain_name x = true → destination u ("/" +:+ x) = [x].
Proof.
  intros Hx. pose proof Hx as (Hne & Hdot & _ & Hs & _)%plain_name_spec.
  unfold destination, joinpath.
  change (Str.startswith "/" ("/" +:+ x)) with true. cbv iota.
  unfold Path, splitroot.
  change (Str.startswith "/" ("/" +:+ x)) with true.
  change (Str.drop 1 ("/" +:+ x)) with x.
  rewrite (startswith_slash_mem _ Hs). cbn [negb orb].
  rewrite (split_no_sep _ _ Hs).
  apply String.eqb_neq in Hne, Hdot.
  cbn [parts List.filter]. unfold keep_part. rewrite Hne, Hdot. cbn [negb andb].
  apply plain_canonical in Hx. unfold canonical_name in Hx.
  apply andb_true_iff in Hx as [Hdd%negb_true_iff Hd%negb_true_iff].
  cbn [lexical]. by rewrite Hdd, Hd.
Qed.

(** Every upload that was stored sits at the location its name resolves to,
    inside the request directory or not. *)
Lemma stored_at_destination u f w w' :
  store_upload (request_dir u) f w = (inr tt, w') →
  fs w' !! destination u (filename f) = Some (File (unread (streams w (file f)))).
Proof.
  intros (c & _ & Hres & _ & _ & _ & Hfs & _)%store_upload_ok.
  apply resolve_rooted in Hres.
  - unfold destination. rewrite <- Hres, Hfs. apply lookup_insert_eq.
  - apply joinpath_rooted. by rewrite request_dir_loc.
Qed.

(** An upload named [../escape.txt] in a blank world: the call returns, the
    file is in the input root, and the request directory is empty. *)
Example traversal_run :
  let run := @check_file_list Demo.sizes
               [mkUpload "../escape.txt" 0] (Demo.blank 1000) in
  succeeded run = true ∧
  fs run.2 !! ["home"; "app"; "input"; "escape.txt"]
  = Some (File (Demo.bytes "hello")) ∧
  listdir (fs run.2) Demo.loc0 = [].
Proof. by vm_compute. Qed.

(** The two uploads of [a.txt] in a blank world: the call returns, and the
    request directory holds one file, with the bytes of the second. *)
Example same_name_run :
  let run := @check_file_list Demo.sizes
               [mkUpload "a.txt" 0; mkUpload "a.txt" 1] (Demo.blank 1000) in
  succeeded run = true ∧
  listdir (fs run.2) Demo.loc0 = ["a.txt"] ∧
  fs run.2 !! (Demo.loc0 ++ ["a.txt"]) = Some (File (unread (Demo.uploads 1))).
Proof. by vm_compute. Qed.

(** ** The call of the checker *)

Global Instance quiet_preorder : PreOrder quiet.
Proof.
  split.
  - intros w. exists []. by rewrite app_nil_r.
  - intros w1 w2 w3 (evs1 & Ht1 & Hq1) (evs2 & Ht2 & Hq2).
    exists (evs1 ++ evs2). rewrite Ht2, Ht1, app_assoc. split; [done|].
    by apply Forall_app.
Qed.

Lemma quiet_same w w' : trace w' = trace w → quiet w w'.
Proof. intros Ht. exists []. by rewrite app_nil_r. Qed.

Lemma quiet_stores w w' : stores w w' → quiet w w'.
Proof.
  intros [_ _ _ _ (evs & Ht & Hev)]. exists evs. split; [done|].
  eapply list.Forall_impl; [done|]. by intros [].
Qed.

Lemma quiet_os_mkdir p : preserves quiet (os_mkdir p).
Proof.
  intros w r w'. unfold os_mkdir.
  destruct (resolve w p) as [e|c]; [intros [= <- <-]; by apply quiet_same|].
  destruct (lookup_node (fs w) c); [intros [= <- <-]; by apply quiet_same|].
  destruct (denied w c); intros [= <- <-]; [by apply quiet_same|].
  exists [EvMkdir c]. split; [done|]. by repeat constructor.
Qed.

Lemma quiet_makedirs_rev r rparts : preserves quiet (makedirs_rev r rparts).
Proof.
  induction rparts as [|tail rhead IH]; simpl; [apply quiet_os_mkdir|].
  apply (preserves_bind quiet); [|intros _; apply quiet_os_mkdir].
  case_bool_decide; [apply (preserves_ret quiet)|].
  apply (preserves_bind quiet).
  - intros w r' w'. unfold os_path_exists.
    destruct (resolve w _); intros [= <- <-]; by apply quiet_same.
  - intros []; [apply (preserves_ret quiet)|by apply (preserves_except quiet)].
Qed.

Lemma quiet_make_request_dir : preserves quiet make_request_dir.
Proof.
  unfold make_request_dir.
  apply (preserves_bind quiet);
    [intros w r w' [= <- <-]; by apply quiet_same|]. intros u.
  apply (preserves_bind quiet); [apply quiet_makedirs_rev|]. intros _.
  apply (preserves_ret quiet).
Qed.

(** When all uploads were stored, each of them was closed along the way and
    nothing but opens and closes happened. *)
Lemma store_all_events d files w w' :
  store_all d files w = (inr tt, w') →
  ∃ evs, trace w' = trace w ++ evs ∧
         Forall (λ e, is_check e = false) evs ∧
         Forall (λ f, EvClose (file f) ∈ evs) files.
Proof.
  revert w. induction files as [|f files IH]; intros w.
  - intros [= <-]. exists []. by rewrite app_nil_r.
  - rewrite store_all_cons.
    destruct (store_upload d f w) as [[e|[]] w1] eqn:Hup; [done|]. intros Hrest.
    apply store_upload_ok in Hup as (c & _ & _ & _ & _ & _ & _ & _ & Htr).
    apply IH in Hrest as (evs & Htr' & Hq & Hcl).
    exists ([EvOpen c; EvClose (file f)] ++ evs). split_and!.
    + by rewrite Htr', Htr, <- app_assoc.
    + apply Forall_app. split; [by repeat constructor|done].
    + constructor.
      * apply elem_of_app. left. apply elem_of_cons. right. left.
      * eapply list.Forall_impl; [done|]. intros g Hg.
        apply elem_of_app. by right.
Qed.

Section CheckerTrace.

Context `{FileCheckerLib}.

(** The last thing a call that returns did was to hand the entries of the
    request directory to the checker. *)
Lemma check_file_list_checks files w r w' :
  check_file_list files w = (inr r, w') →
  ∃ evs,
    trace w' = trace w ++ evs ++
      [EvNewChecker "/home/app/file_checker_spec";
       EvCheckFiles
         ((λ x, mkPath Slash (request_loc (next_uuid w) ++ [x]))
            <$> listdir (fs w') (request_loc (next_uuid w)))
         "bodc"].
Proof.
  intros (w1 & w2 & Hmk & Hstore & Hval)%check_file_list_ok.
  pose proof Hmk as (evs1 & Ht1 & _)%quiet_make_request_dir.
  pose proof Hmk as Hres%make_request_dir_resolves.
  pose proof Hmk as (_ & _ & _ & Hdir & _)%make_request_dir_ok.
  pose proof Hstore as Hev%evolves_store_all.
  pose proof Hstore as (evs2 & Ht2 & _)%store_all_events.
  apply validate_run in Hval as (Hfs & _ & [(e & _ & [=] & _)|(ck & _ & Ht3 & _)]).
  rewrite (glob_paths_dir w2 _ (request_loc (next_uuid w))) in Ht3.
  - exists (evs1 ++ evs2). by rewrite Hfs, Ht3, Ht2, Ht1, <- !app_assoc.
  - eapply evolves_resolve; [exact Hev|exact Hres].
  - eapply evolves_dirs; [exact Hev|exact Hdir].
Qed.

End CheckerTrace.

Section CheckerCall.

Context `{FileCheckerLib}.

(** C2: a call that returns has called the checker once, as the last thing
    it did and after every upload was closed, with the entries directly
    inside the request directory and the name ["bodc"]; what it returns is
    the checker's value under the one key ["results"]. *)
Theorem checker_called_once (files : list UploadFile) (w : world)
    (r : gmap string report) (w' : world) :
  check_file_list files w = (inr r, w') →
  ∃ evs ck v,
    trace w' = trace w ++ evs ++
      [EvNewChecker "/home/app/file_checker_spec";
       EvCheckFiles
         ((λ x, mkPath Slash (request_loc (next_uuid w) ++ [x]))
            <$> listdir (fs w') (request_loc (next_uuid w)))
         "bodc"] ∧
    Forall (λ e, is_check e = false) evs ∧
    Forall (λ f, EvClose (file f) ∈ evs) files ∧
    checker_init "/home/app/file_checker_spec" (fs w') = inr ck ∧
    checker_check_files ck (fs w')
      ((λ x, mkPath Slash (request_loc (next_uuid w) ++ [x]))
         <$> listdir (fs w') (request_loc (next_uuid w)))
      "bodc" = inr v ∧
    r = {["results" := v]}.
Proof.
  intros (w1 & w2 & Hmk & Hstore & Hval)%check_file_list_ok.
  pose proof Hmk as (evs1 & Ht1 & Hq1)%quiet_make_request_dir.
  pose proof Hmk as Hres%make_request_dir_resolves.
  pose proof Hmk as (_ & _ & _ & Hdir & _)%make_request_dir_ok.
  pose proof Hstore as Hev%evolves_store_all.
  pose proof Hstore as (evs2 & Ht2 & Hq2 & Hcl)%store_all_events.
  apply validate_run in Hval as (Hfs & _ & [(e & _ & [=] & _)|(ck & Hinit & Ht3 & Hr)]).
  assert (resolve w2 (mkPath Slash (request_loc (next_uuid w)))
          = inr (request_loc (next_uuid w))) as Hres2
    by (eapply evolves_resolve; [exact Hev|exact Hres]).
  assert (fs w2 !! request_loc (next_uuid w) = Some Dir) as Hdir2
    by (eapply evolves_dirs; [exact Hev|exact Hdir]).
  rewrite (glob_paths_dir _ _ _ Hres2 Hdir2) in Ht3, Hr.
  rewrite Hfs.
  destruct (checker_check_files ck (fs w2) _ "bodc") as [e|v] eqn:Hck; [done|].
  exists (evs1 ++ evs2), ck, v. split_and!; try done.
  - by rewrite Ht3, Ht2, Ht1, <- !app_assoc.
  - by apply Forall_app.
  - eapply list.Forall_impl; [done|]. intros f Hf. apply elem_of_app. by right.
  - by injection Hr.
Qed.

End CheckerCall.

Lemma checker_called_once_witness :
  @check_file_list Demo.sizes Demo.two_files (Demo.blank 1000)
  = (inr {["results" := Demo.sizes_report]},
     (@check_file_list Demo.sizes Demo.two_files (Demo.blank 1000)).2) ∧
  ∃ evs ck v,
    trace (@check_file_list Demo.sizes Demo.two_files (Demo.blank 1000)).2
    = trace (Demo.blank 1000) ++ evs ++
      [EvNewChecker "/home/app/file_checker_spec";
       EvCheckFiles
         ((λ x, mkPath Slash (request_loc (next_uuid (Demo.blank 1000)) ++ [x]))
            <$> listdir
                  (fs (@check_file_list Demo.sizes Demo.two_files
                         (Demo.blank 1000)).2)
                  (request_loc (next_uuid (Demo.blank 1000))))
         "bodc"] ∧
    Forall (λ e, is_check e = false) evs ∧
    Forall (λ f, EvClose (file f) ∈ evs) Demo.two_files ∧
    @checker_init Demo.sizes "/home/app/file_checker_spec"
      (fs (@check_file_list Demo.sizes Demo.two_files (Demo.blank 1000)).2)
    = inr ck ∧
    @checker_check_files Demo.sizes ck
      (fs (@check_file_list Demo.sizes Demo.two_files (Demo.blank 1000)).2)
      ((λ x, mkPath Slash (request_loc (next_uuid (Demo.blank 1000)) ++ [x]))
         <$> listdir
               (fs (@check_file_list Demo.sizes Demo.two_files
                      (Demo.blank 1000)).2)
               (request_loc (next_uuid (Demo.blank 1000))))
      "bodc" = inr v ∧
    {["results" := Demo.sizes_report]} = ({["results" := v]} : gmap string _).
Proof.
  assert (@check_file_list Demo.sizes Demo.two_files (Demo.blank 1000)
          = (inr {["results" := Demo.sizes_report]},
             (@check_file_list Demo.sizes Demo.two_files (Demo.blank 1000)).2))
    as Hrun.
  { refine (run_eq (@check_file_list Demo.sizes Demo.two_files) (Demo.blank 1000)
              (inr {["results" := Demo.sizes_report]}) _).
    vm_compute. reflexivity. }
  split; [exact Hrun|].
  exact (@checker_called_once Demo.sizes Demo.two_files (Demo.blank 1000)
           {["results" := Demo.sizes_report]}
           (@check_file_list Demo.sizes Demo.two_files (Demo.blank 1000)).2 Hrun).
Defined.

(** ** Two calls that raise *)

(** A volume with room for six bytes: [a.txt] fits, the copy of [b.csv]
    raises after one byte, and the third upload is never looked at.  The
    request directory, [a.txt] and the cut-off [b.csv] are left behind. *)
Example disk_full_run :
  let run := @check_file_list Demo.sizes
               (Demo.two_files ++ [mkUpload "c.txt" 3]) (Demo.blank 6) in
  run.1 = inl (OSError "ENOSPC") ∧
  fs run.2 !! Demo.loc0 = Some Dir ∧
  fs run.2 !! (Demo.loc0 ++ ["a.txt"]) = Some (File (Demo.bytes "hello")) ∧
  fs run.2 !! (Demo.loc0 ++ ["b.csv"]) = Some (File (Demo.bytes "x")) ∧
  fs run.2 !! (Demo.loc0 ++ ["c.txt"]) = None ∧
  closed (streams run.2 1) = true ∧ closed (streams run.2 3) = false.
Proof. by vm_compute. Qed.

(** A checker that rejects the specification name: the handler raises what
    the checker raised, and the uploads stay on disk. *)
Example checker_error_run :
  let run := @check_file_list Demo.rejecting Demo.two_files (Demo.blank 1000) in
  run.1 = inl (CheckerError "bodc") ∧
  listdir (fs run.2) Demo.loc0 = ["a.txt"; "b.csv"].
Proof. by vm_compute. Qed.

(** ** What is in the request directory *)

Lemma fs_wf_empty : fs_wf ∅.
Proof. intros c [n Hn]. by rewrite lookup_empty in Hn. Qed.

Section Completeness.

Context `{FileCheckerLib}.

(** C1, as the code has it: when the names are plain file names, different
    from one another, and the tree is well formed, a call that returns leaves
    in the request directory exactly one entry per upload, under the
    upload's name and with all the bytes its stream held. *)
Theorem uploads_complete (files : list UploadFile) (w : world)
    (r : gmap string report) (w' : world) :
  fs_wf (fs w) →
  Forall (λ f, plain_name (filename f) = true) files →
  NoDup (filename <$> files) →
  check_file_list files w = (inr r, w') →
  listdir (fs w') (request_loc (next_uuid w)) ≡ₚ filename <$> files ∧
  length (listdir (fs w') (request_loc (next_uuid w))) = length files ∧
  ∀ f, f ∈ files →
       fs w' !! (request_loc (next_uuid w) ++ [filename f])
       = Some (File (unread (streams w (file f)))).
Proof.
  intros Hwf Hplain Hnd (w1 & w2 & Hmk & Hstore & Hval)%check_file_list_ok.
  apply make_request_dir_ok in Hmk as (_ & Hmade & _ & _ & Hempty).
  apply store_all_plain in Hstore as (Hfs & _); [|done|apply request_loc_canonical|done].
  apply validate_run in Hval as (Hfs' & _).
  rewrite (md_streams _ _ _ Hmade) in Hfs. cbn [streams set_drawn] in Hfs.
  rewrite Hfs', Hfs.
  assert (listdir (stored (request_loc (next_uuid w)) (streams w) files (fs w1))
            (request_loc (next_uuid w)) ≡ₚ filename <$> files) as Hperm
    by (apply listdir_stored; auto).
  split_and!.
  - done.
  - by rewrite Hperm, length_fmap.
  - intros f Hf. by apply stored_lookup.
Qed.

(** When the uploads are stored in another order, the same locations are
    filled. *)
Lemma store_all_dom_perm d files files' w w1 w2 :
  root d ≠ NoRoot → files ≡ₚ files' →
  store_all d files w = (inr tt, w1) → store_all d files' w = (inr tt, w2) →
  dom (fs w1) = dom (fs w2).
Proof.
  intros Hd Hperm H1 H2.
  rewrite (store_all_dom _ _ _ _ Hd H1), (store_all_dom _ _ _ _ Hd H2).
  by rewrite Hperm.
Qed.

(** C8: when the uploads of a request are sent in another order and both
    calls return, the checker is handed the same paths. *)
Theorem enumeration_order_independent (files files' : list UploadFile) (w : world)
    (r1 r2 : gmap string report) (w1 w2 : world) :
  files ≡ₚ files' →
  NoDup (filename <$> files) →
  check_file_list files w = (inr r1, w1) →
  check_file_list files' w = (inr r2, w2) →
  ∃ ps1 ps2,
    list.last (trace w1) = Some (EvCheckFiles ps1 "bodc") ∧
    list.last (trace w2) = Some (EvCheckFiles ps2 "bodc") ∧
    ps1 ≡ₚ ps2 ∧ ∀ p, p ∈ ps1 ↔ p ∈ ps2.
Proof.
  intros Hperm _ Hrun1 Hrun2.
  pose proof Hrun1 as (evs1 & Ht1)%check_file_list_checks.
  pose proof Hrun2 as (evs2 & Ht2)%check_file_list_checks.
  apply check_file_list_ok in Hrun1 as (wa & wa' & Hmk1 & Hst1 & Hv1).
  apply check_file_list_ok in Hrun2 as (wb & wb' & Hmk2 & Hst2 & Hv2).
  rewrite Hmk1 in Hmk2. injection Hmk2 as <-.
  apply validate_run in Hv1 as (Hfs1 & _). apply validate_run in Hv2 as (Hfs2 & _).
  assert (listdir (fs w1) (request_loc (next_uuid w))
          = listdir (fs w2) (request_loc (next_uuid w))) as Hsame.
  { apply listdir_dom. rewrite Hfs1, Hfs2.
    eapply (store_all_dom_perm _ files files' wa);
      [|exact Hperm|exact Hst1|exact Hst2]; done. }
  eexists _, _. split_and!.
  - by rewrite Ht1, !last_app.
  - by rewrite Ht2, !last_app.
  - by rewrite Hsame.
  - intros p. by rewrite Hsame.
Qed.

End Completeness.

(** C1, as stated, fails: two uploads with different names, the call
    returns, and the request directory holds one entry. *)
Lemma uploads_escape :
  NoDup (filename <$> Demo.escaping) ∧
  succeeded (@check_file_list Demo.sizes Demo.escaping (Demo.blank 1000)) = true ∧
  listdir (fs (@check_file_list Demo.sizes Demo.escaping (Demo.blank 1000)).2)
    Demo.loc0 = ["a.txt"] ∧
  fs (@check_file_list Demo.sizes Demo.escaping (Demo.blank 1000)).2
    !! ["home"; "app"; "input"; "b.csv"]
  = Some (File (unread (Demo.uploads 1))).
Proof.
  split; [by apply (bool_decide_unpack _)|]. by vm_compute.
Qed.

Lemma uploads_complete_witness :
  fs_wf (fs (Demo.blank 1000)) ∧
  Forall (λ f, plain_name (filename f) = true) Demo.two_files ∧
  NoDup (filename <$> Demo.two_files) ∧
  @check_file_list Demo.sizes Demo.two_files (Demo.blank 1000)
  = (inr {["results" := Demo.sizes_report]},
     (@check_file_list Demo.sizes Demo.two_files (Demo.blank 1000)).2) ∧
  listdir (fs (@check_file_list Demo.sizes Demo.two_files (Demo.blank 1000)).2)
    (request_loc (next_uuid (Demo.blank 1000))) ≡ₚ filename <$> Demo.two_files ∧
  length (listdir (fs (@check_file_list Demo.sizes Demo.two_files
                         (Demo.blank 1000)).2)
            (request_loc (next_uuid (Demo.blank 1000)))) = length Demo.two_files ∧
  ∀ f, f ∈ Demo.two_files →
       fs (@check_file_list Demo.sizes Demo.two_files (Demo.blank 1000)).2
         !! (request_loc (next_uuid (Demo.blank 1000)) ++ [filename f])
       = Some (File (unread (streams (Demo.blank 1000) (file f)))).
Proof.
  assert (@check_file_list Demo.sizes Demo.two_files (Demo.blank 1000)
          = (inr {["results" := Demo.sizes_report]},
             (@check_file_list Demo.sizes Demo.two_files (Demo.blank 1000)).2))
    as Hrun.
  { refine (run_eq (@check_file_list Demo.sizes Demo.two_files) (Demo.blank 1000)
              (inr {["results" := Demo.sizes_report]}) _).
    vm_compute. reflexivity. }
  assert (Forall (λ f, plain_name (filename f) = true) Demo.two_files) as Hplain
    by (repeat constructor).
  assert (NoDup (filename <$> Demo.two_files)) as Hnd
    by (by apply (bool_decide_unpack _)).
  split; [exact fs_wf_empty|]. split; [exact Hplain|]. split; [exact Hnd|].
  split; [exact Hrun|].
  exact (@uploads_complete Demo.sizes Demo.two_files (Demo.blank 1000)
           {["results" := Demo.sizes_report]}
           (@check_file_list Demo.sizes Demo.two_files (Demo.blank 1000)).2
           fs_wf_empty Hplain Hnd Hrun).
Defined.

Lemma enumeration_order_independent_witness :
  Demo.two_files ≡ₚ Demo.two_files_swapped ∧
  NoDup (filename <$> Demo.two_files) ∧
  @check_file_list Demo.sizes Demo.two_files (Demo.blank 1000)
  = (inr {["results" := Demo.sizes_report]},
     (@check_file_list Demo.sizes Demo.two_files (Demo.blank 1000)).2) ∧
  @check_file_list Demo.sizes Demo.two_files_swapped (Demo.blank 1000)
  = (inr {["results" := Demo.sizes_report]},
     (@check_file_list Demo.sizes Demo.two_files_swapped (Demo.blank 1000)).2) ∧
  ∃ ps1 ps2,
    list.last (trace (@check_file_list Demo.sizes Demo.two_files
                        (Demo.blank 1000)).2)
    = Some (EvCheckFiles ps1 "bodc") ∧
    list.last (trace (@check_file_list Demo.sizes Demo.two_files_swapped
                        (Demo.blank 1000)).2)
    = Some (EvCheckFiles ps2 "bodc") ∧
    ps1 ≡ₚ ps2 ∧ ∀ p, p ∈ ps1 ↔ p ∈ ps2.
Proof.
  assert (@check_file_list Demo.sizes Demo.two_files (Demo.blank 1000)
          = (inr {["results" := Demo.sizes_report]},
             (@check_file_list Demo.sizes Demo.two_files (Demo.blank 1000)).2))
    as Hrun1.
  { refine (run_eq (@check_file_list Demo.sizes Demo.two_files) (Demo.blank 1000)
              (inr {["results" := Demo.sizes_report]}) _).
    vm_compute. reflexivity. }
  assert (@check_file_list Demo.sizes Demo.two_files_swapped (Demo.blank 1000)
          = (inr {["results" := Demo.sizes_report]},
             (@check_file_list Demo.sizes Demo.two_files_swapped
                (Demo.blank 1000)).2))
    as Hrun2.
  { refine (run_eq (@check_file_list Demo.sizes Demo.two_files_swapped)
              (Demo.blank 1000) (inr {["results" := Demo.sizes_report]}) _).
    vm_compute. reflexivity. }
  assert (Demo.two_files ≡ₚ Demo.two_files_swapped) as Hperm
    by apply Permutation_swap.
  assert (NoDup (filename <$> Demo.two_files)) as Hnd
    by (by apply (bool_decide_unpack _)).
  split; [exact Hperm|]. split; [exact Hnd|].
  split; [exact Hrun1|]. split; [exact Hrun2|].
  exact (@enumeration_order_independent Demo.sizes
           Demo.two_files Demo.two_files_swapped (Demo.blank 1000)
           {["results" := Demo.sizes_report]} {["results" := Demo.sizes_report]}
           (@check_file_list Demo.sizes Demo.two_files (Demo.blank 1000)).2
           (@check_file_list Demo.sizes Demo.two_files_swapped (Demo.blank 1000)).2
           Hperm Hnd Hrun1 Hrun2).
Defined.

(** ** Two requests at once *)

Global Instance emits_preorder P : PreOrder (emits P).
Proof.
  split.
  - intros w. exists []. by rewrite app_nil_r.
  - intros w1 w2 w3 (evs1 & Ht1 & Hq1) (evs2 & Ht2 & Hq2).
    exists (evs1 ++ evs2). rewrite Ht2, Ht1, app_assoc. split; [done|].
    by apply Forall_app.
Qed.

Lemma emits_same P w w' : trace w' = trace w → emits P w w'.
Proof. intros Ht. exists []. by rewrite app_nil_r. Qed.

Lemma emits_emitted P w w' : emits P w w' → Forall P (emitted w w').
Proof.
  intros (evs & Ht & Hevs). unfold emitted. by rewrite Ht, drop_app_length.
Qed.

Lemma emits_os_mkdir d p : preserves (emits (owned d)) (os_mkdir p).
Proof.
  intros w r w'. unfold os_mkdir.
  destruct (resolve w p) as [e|c]; [intros [= <- <-]; by apply emits_same|].
  destruct (lookup_node (fs w) c); [intros [= <- <-]; by apply emits_same|].
  destruct (denied w c); intros [= <- <-]; [by apply emits_same|].
  exists [EvMkdir c]. split; [done|]. by repeat constructor.
Qed.

Lemma emits_makedirs_rev d r rparts : preserves (emits (owned d)) (makedirs_rev r rparts).
Proof.
  induction rparts as [|tail rhead IH]; simpl; [apply emits_os_mkdir|].
  apply (preserves_bind (emits (owned d))); [|intros _; apply emits_os_mkdir].
  case_bool_decide; [apply (preserves_ret (emits (owned d)))|].
  apply (preserves_bind (emits (owned d))).
  - intros w r' w'. unfold os_path_exists.
    destruct (resolve w _); intros [= <- <-]; by apply emits_same.
  - intros []; [apply (preserves_ret (emits (owned d)))|].
    by apply (preserves_except (emits (owned d))).
Qed.

Lemma keeps_drawn_makedirs_rev r rparts : preserves (keeps drawn) (makedirs_rev r rparts).
Proof.
  assert (∀ p, preserves (keeps drawn) (os_mkdir p)) as Hmk.
  { intros p w r' w'. unfold os_mkdir.
    destruct (resolve w p) as [e|c]; [by intros [= <- <-]|].
    destruct (lookup_node (fs w) c), (denied w c); by intros [= <- <-]. }
  induction rparts as [|tail rhead IH]; simpl; [apply Hmk|].
  apply (preserves_bind (keeps drawn)); [|intros _; apply Hmk].
  case_bool_decide; [apply (preserves_ret (keeps drawn))|].
  apply (preserves_bind (keeps drawn)).
  - intros w r' w'. unfold os_path_exists.
    destruct (resolve w _); by intros [= <- <-].
  - intros []; [apply (preserves_ret (keeps drawn))|].
    by apply (preserves_except (keeps drawn)).
Qed.

Lemma make_request_dir_unfold w :
  make_request_dir w =
  match os_makedirs (request_dir (next_uuid w)) (set_drawn (S (drawn w)) w) with
  | (inl e, w') => (inl e, w')
  | (inr _, w') => (inr (request_dir (next_uuid w)), w')
  end.
Proof.
  unfold make_request_dir, bind, uuid4, ret, next_uuid.
  by destruct (os_makedirs _ _) as [[e|[]] w'].
Qed.

(** Making the request directory, however it ends: one identifier is drawn,
    the directory is the one named after it, and only directories were made. *)
Lemma make_request_dir_any d w r w' :
  make_request_dir w = (r, w') →
  drawn w' = S (drawn w) ∧ urandom w' = urandom w ∧ emits (owned d) w w' ∧
  ∀ p, r = inr p → p = mkPath Slash (request_loc (next_uuid w)).
Proof.
  intros Hmk. pose proof Hmk as Hev%evolves_make_request_dir.
  rewrite make_request_dir_unfold in Hmk.
  destruct (os_makedirs _ _) as [r2 w2] eqn:Hmk2.
  assert (w2 = w') as -> by (destruct r2 as [e|[]]; by injection Hmk).
  unfold os_makedirs in Hmk2.
  pose proof Hmk2 as Hdr%keeps_drawn_makedirs_rev.
  pose proof Hmk2 as (evs & Ht & Hevs)%(emits_makedirs_rev d).
  split_and!.
  - exact Hdr.
  - apply Hev.
  - by exists evs.
  - intros p ->. destruct r2 as [e|[]]; [done|].
    injection Hmk as <-. apply request_dir_loc.
Qed.

Lemma store_upload_owned D f w r w' :
  Forall (λ x, canonical_name x = true) D → plain_name (filename f) = true →
  store_upload (mkPath Slash D) f w = (r, w') → emits (owned D) w w'.
Proof.
  intros HD Hf [Ht|(c & Hres & Ht)]%store_upload_trace.
  - exists [EvClose (file f)]. split; [done|]. by repeat constructor.
  - rewrite joinpath_plain in Hres by done.
    apply resolve_plain in Hres as [-> _]; [|done..].
    exists [EvOpen (D ++ [filename f]); EvClose (file f)]. split; [done|].
    repeat constructor. by exists (filename f).
Qed.

Lemma glob_paths_owned w D : owned D (EvCheckFiles (glob_paths w (mkPath Slash D)) "bodc").
Proof.
  intros q. unfold glob_paths.
  destruct (resolve w _) as [e|c]; [by intros ?%elem_of_nil|].
  destruct (lookup_node (fs w) c) as [[|data]|]; try by intros ?%elem_of_nil.
  intros (x & -> & _)%list_elem_of_fmap. by exists x.
Qed.

Section Isolation.

Context `{FileCheckerLib}.

Lemma validate_owned D w r w' :
  validate (mkPath Slash D) w = (r, w') →
  emits (owned D) w w' ∧ drawn w' = drawn w.
Proof.
  intros Hval. split.
  - apply validate_run in Hval as (_ & _ & [(e & _ & _ & Ht)|(ck & _ & Ht & _)]).
    + exists [EvNewChecker "/home/app/file_checker_spec"]. split; [done|].
      by repeat constructor.
    + eexists. split; [exact Ht|]. repeat constructor. apply glob_paths_owned.
  - unfold validate, bind, FileChecker, glob_star, check_files, ret in Hval.
    destruct (checker_init _ _); [by injection Hval as _ <-|].
    cbn [fs log] in Hval.
    destruct (checker_check_files _ _ _ _); by injection Hval as _ <-.
Qed.

(** A step of a request that has its directory stays in that directory. *)
Lemma step_in D th w th' w' :
  Forall (λ x, canonical_name x = true) D → thread_in D th →
  step th w = (th', w') →
  thread_in D th' ∧ emits (owned D) w w' ∧ drawn w' = drawn w ∧
  urandom w' = urandom w.
Proof.
  intros HD. destruct th as [files|p [|f files]|r]; cbn [step thread_in]; [done|..].
  - intros [-> _].
    destruct (validate _ w) as [r w1] eqn:Hval. intros [= <- <-].
    pose proof Hval as Hev%evolves_validate.
    apply validate_owned in Hval as [Hem Hdr]. split_and!; try done. apply Hev.
  - intros [-> Hplain]. inversion_clear Hplain as [|? ? Hf Hfiles].
    destruct (store_upload _ f w) as [[e|[]] w1] eqn:Hup; intros [= <- <-];
      pose proof Hup as Hst%stores_store_upload;
      apply store_upload_owned in Hup; try done;
      (split_and!; [done|done|apply Hst|apply Hst]).
  - intros _ [= <- <-]. split_and!; try done; by apply emits_same.
Qed.

(** The first step of a request takes the directory of the next identifier. *)
Lemma step_start files w th' w' :
  Forall (λ f, plain_name (filename f) = true) files →
  step (Start files) w = (th', w') →
  thread_in (request_loc (next_uuid w)) th' ∧
  emits (owned (request_loc (next_uuid w))) w w' ∧
  drawn w' = S (drawn w) ∧ urandom w' = urandom w.
Proof.
  intros Hplain. cbn [step thread_in].
  destruct (make_request_dir w) as [[e|d] w1] eqn:Hmk; intros [= <- <-];
    apply (make_request_dir_any (request_loc (next_uuid w))) in Hmk
      as (Hdr & Hur & Hem & Hd); split_and!; try done.
  by rewrite (Hd d eq_refl).
Qed.

End Isolation.

Section Schedules.

Context `{FileCheckerLib}.

Lemma log_ok_None t o lg : log_ok t None lg → log_ok t o lg.
Proof.
  unfold log_ok. intros Hlg. eapply list.Forall_impl; [exact Hlg|].
  intros te Hte Ht. by destruct (Hte Ht).
Qed.

Lemma log_ok_other t o lg evs :
  log_ok t o lg → log_ok t o (lg ++ ((negb t,.) <$> evs)).
Proof.
  intros Hlg. apply Forall_app. split; [done|].
  apply list.Forall_forall. intros te (e & -> & _)%list_elem_of_fmap.
  by destruct t.
Qed.

Lemma log_ok_own t d lg evs :
  log_ok t (Some d) lg → Forall (owned d) evs →
  log_ok t (Some d) (lg ++ ((t,.) <$> evs)).
Proof.
  intros Hlg Hevs. apply Forall_app. split; [done|].
  apply list.Forall_forall. intros te (e & -> & He)%list_elem_of_fmap _.
  by eapply list.Forall_forall in Hevs.
Qed.

Lemma next_uuid_at w w0 :
  urandom w = urandom w0 → drawn w = drawn w0 → next_uuid w = next_uuid w0.
Proof. unfold next_uuid. by intros -> ->. Qed.

Lemma next_uuid_second w w0 :
  urandom w = urandom w0 → drawn w = S (drawn w0) →
  next_uuid w = next_uuid (set_drawn (S (drawn w0)) w0).
Proof. unfold next_uuid. by intros -> ->. Qed.

Lemma apart_step_first w0 filesA filesB a b w lg a' w' :
  Forall (λ f, plain_name (filename f) = true) filesA →
  apart w0 filesA filesB a b w lg →
  step a w = (a', w') →
  apart w0 filesA filesB a' b w' (lg ++ ((false,.) <$> emitted w w')).
Proof.
  intros HA (oa & ob & Ha & Hb & Hla & Hlb & Hur & Hids) Hstep.
  destruct oa as [da|].
  - assert (Forall (λ x, canonical_name x = true) da) as Hda.
    { destruct ob as [db|]; [destruct Hids as [[-> _]|[_ ->]]|destruct Hids as [-> _]];
        apply request_loc_canonical. }
    apply (step_in da) in Hstep as (Ha' & Hem & Hdr & Hur'); [|done..].
    exists (Some da), ob. split_and!; try done.
    + apply log_ok_own; [done|]. by apply emits_emitted.
    + by apply (log_ok_other true).
    + congruence.
    + destruct ob; [done|]. by rewrite Hdr.
  - cbn [state_ok] in Ha. subst a.
    apply step_start in Hstep as (Ha' & Hem & Hdr & Hur'); [|done].
    exists (Some (request_loc (next_uuid w))), ob. split_and!; try done.
    + apply log_ok_own; [by apply log_ok_None|]. by apply emits_emitted.
    + by apply (log_ok_other true).
    + congruence.
    + destruct ob as [db|].
      * destruct Hids as [-> Hd]. right. split; [done|].
        by rewrite (next_uuid_second w w0).
      * split; [by rewrite (next_uuid_at w w0)|]. by rewrite Hdr, Hids.
Qed.

Lemma apart_step_second w0 filesA filesB a b w lg b' w' :
  Forall (λ f, plain_name (filename f) = true) filesB →
  apart w0 filesA filesB a b w lg →
  step b w = (b', w') →
  apart w0 filesA filesB a b' w' (lg ++ ((true,.) <$> emitted w w')).
Proof.
  intros HB (oa & ob & Ha & Hb & Hla & Hlb & Hur & Hids) Hstep.
  destruct ob as [db|].
  - assert (Forall (λ x, canonical_name x = true) db) as Hdb.
    { destruct oa as [da|]; [destruct Hids as [[_ ->]|[-> _]]|destruct Hids as [-> _]];
        apply request_loc_canonical. }
    apply (step_in db) in Hstep as (Hb' & Hem & Hdr & Hur'); [|done..].
    exists oa, (Some db). split_and!; try done.
    + by apply (log_ok_other false).
    + apply log_ok_own; [done|]. by apply emits_emitted.
    + congruence.
    + destruct oa; [done|]. by rewrite Hdr.
  - cbn [state_ok] in Hb. subst b.
    apply step_start in Hstep as (Hb' & Hem & Hdr & Hur'); [|done].
    exists oa, (Some (request_loc (next_uuid w))). split_and!; try done.
    + by apply (log_ok_other false).
    + apply log_ok_own; [by apply log_ok_None|]. by apply emits_emitted.
    + congruence.
    + destruct oa as [da|].
      * destruct Hids as [-> Hd]. left. split; [done|].
        by rewrite (next_uuid_second w w0).
      * split; [by rewrite (next_uuid_at w w0)|]. by rewrite Hdr, Hids.
Qed.

Lemma apart_start w0 filesA filesB :
  apart w0 filesA filesB (Start filesA) (Start filesB) w0 [].
Proof. exists None, None. split_and!; try done; constructor. Qed.

(** [apart] holds along every schedule. *)
Lemma apart_interleave w0 filesA filesB sched a b w lg :
  Forall (λ f, plain_name (filename f) = true) filesA →
  Forall (λ f, plain_name (filename f) = true) filesB →
  apart w0 filesA filesB a b w lg →
  ∃ a' b' w' lg', interleave sched a b w lg = (a', b', w', lg') ∧
                  apart w0 filesA filesB a' b' w' lg'.
Proof.
  intros HA HB. revert a b w lg.
  induction sched as [|[] sched IH]; intros a b w lg Hap; cbn [interleave].
  - by exists a, b, w, lg.
  - destruct (step b w) as [b' w'] eqn:Hstep.
    apply IH. by eapply apart_step_second.
  - destruct (step a w) as [a' w'] eqn:Hstep.
    apply IH. by eapply apart_step_first.
Qed.

Lemma elem_of_writes_of t lg p : p ∈ writes_of t lg → (t, EvOpen p) ∈ lg.
Proof.
  unfold writes_of. intros ([t' e] & Hin & He)%list_elem_of_omap.
  destruct e; try done. case_bool_decide; [|done]. by simplify_eq.
Qed.

Lemma elem_of_checked_by t lg ps :
  ps ∈ checked_by t lg → ∃ s, (t, EvCheckFiles ps s) ∈ lg.
Proof.
  unfold checked_by. intros ([t' e] & Hin & He)%list_elem_of_omap.
  destruct e; try done. case_bool_decide; [|done]. simplify_eq. by eexists.
Qed.

(** Logs of requests in different directories: what one wrote is not in what
    the other had checked. *)
Lemma log_ok_separate ta tb da db lg p ps :
  log_ok ta (Some da) lg → log_ok tb (Some db) lg → da ≠ db →
  p ∈ writes_of ta lg → ps ∈ checked_by tb lg → mkPath Slash p ∉ ps.
Proof.
  intros Hla Hlb Hne Hp%elem_of_writes_of (s & Hps)%elem_of_checked_by Hin.
  eapply list.Forall_forall in Hla; [|exact Hp].
  eapply list.Forall_forall in Hlb; [|exact Hps].
  destruct (Hla eq_refl) as (x & ->).
  destruct (Hlb eq_refl _ Hin) as (y & [= Heq]).
  by apply app_inj_tail in Heq as [? _].
Qed.

End Schedules.

Section Isolated.

Context `{FileCheckerLib}.

(** C7, amended: two requests served together under any schedule, whose
    uploads all have plain names and whose generated identifiers differ, have
    different request directories, and no file written by one is in an
    enumeration the other hands to the checker. *)
Theorem requests_isolated (sched : list bool) (filesA filesB : list UploadFile)
    (w : world) :
  Forall (λ f, plain_name (filename f) = true) filesA →
  Forall (λ f, plain_name (filename f) = true) filesB →
  next_uuid w ≠ next_uuid (set_drawn (S (drawn w)) w) →
  request_dir (next_uuid w) ≠ request_dir (next_uuid (set_drawn (S (drawn w)) w)) ∧
  ∀ ta tb p ps,
    ta ≠ tb →
    p ∈ writes_of ta (interleave sched (Start filesA) (Start filesB) w []).2 →
    ps ∈ checked_by tb (interleave sched (Start filesA) (Start filesB) w []).2 →
    mkPath Slash p ∉ ps.
Proof.
  intros HA HB Hids.
  assert (request_loc (next_uuid w)
          ≠ request_loc (next_uuid (set_drawn (S (drawn w)) w))) as Hdirs.
  { intros Heq. apply Hids. revert Heq. apply request_loc_inj; apply of_random_lt. }
  split.
  { rewrite !request_dir_loc. intros Heq. apply Hdirs. exact (f_equal parts Heq). }
  destruct (apart_interleave w filesA filesB sched (Start filesA) (Start filesB) w [] HA HB
              (apart_start w filesA filesB))
    as (a' & b' & w' & lg & -> & oa & ob & _ & _ & Hla & Hlb & _ & Hd).
  cbn [snd]. intros ta tb p ps Hne Hp Hps.
  assert (∃ da db, oa = Some da ∧ ob = Some db) as (da & db & -> & ->).
  { pose proof (elem_of_writes_of _ _ _ Hp) as Hp'.
    destruct (elem_of_checked_by _ _ _ Hps) as (s & Hps').
    destruct oa as [da|], ob as [db|]; [by exists da, db|exfalso..];
      destruct ta, tb; try done;
      first [ by eapply list.Forall_forall in Hla; [apply Hla|exact Hp']
            | by eapply list.Forall_forall in Hla; [apply Hla|exact Hps']
            | by eapply list.Forall_forall in Hlb; [apply Hlb|exact Hp']
            | by eapply list.Forall_forall in Hlb; [apply Hlb|exact Hps'] ]. }
  assert (da ≠ db) as Hab by (destruct Hd as [[-> ->]|[-> ->]]; congruence).
  destruct ta, tb; try done.
  - by apply (log_ok_separate true false db da lg p ps).
  - by apply (log_ok_separate false true da db lg p ps).
Qed.

End Isolated.

(** C7, as stated, fails: the identifiers differ, and the upload
    [../<id1>/evil.nc] of the first request is opened in the directory of the
    second, which hands it to the checker. *)
Lemma requests_cross :
  UUID.str (next_uuid (Demo.blank 1000)) = Demo.id0 ∧
  UUID.str (next_uuid (set_drawn 1 (Demo.blank 1000))) = Demo.id1 ∧
  writes_of false Demo.crossed_log = [Demo.loc1 ++ ["evil.nc"]] ∧
  checked_by true Demo.crossed_log
  = [[mkPath Slash (Demo.loc1 ++ ["evil.nc"]); mkPath Slash (Demo.loc1 ++ ["b.csv"])]].
Proof. by vm_compute. Qed.

Lemma requests_isolated_witness :
  Forall (λ f, plain_name (filename f) = true) Demo.neighbour ∧
  Forall (λ f, plain_name (filename f) = true) Demo.victim ∧
  next_uuid (Demo.blank 1000) ≠ next_uuid (set_drawn 1 (Demo.blank 1000)) ∧
  request_dir (next_uuid (Demo.blank 1000))
  ≠ request_dir (next_uuid (set_drawn 1 (Demo.blank 1000))) ∧
  ∀ ta tb p ps,
    ta ≠ tb →
    p ∈ writes_of ta (@interleave Demo.sizes Demo.crossed (Start Demo.neighbour)
                        (Start Demo.victim) (Demo.blank 1000) []).2 →
    ps ∈ checked_by tb (@interleave Demo.sizes Demo.crossed (Start Demo.neighbour)
                          (Start Demo.victim) (Demo.blank 1000) []).2 →
    mkPath Slash p ∉ ps.
Proof.
  assert (Forall (λ f, plain_name (filename f) = true) Demo.neighbour) as HA
    by (by repeat constructor).
  assert (Forall (λ f, plain_name (filename f) = true) Demo.victim) as HB
    by (by repeat constructor).
  assert (next_uuid (Demo.blank 1000) ≠ next_uuid (set_drawn 1 (Demo.blank 1000)))
    as Hids by (by vm_compute).
  split; [exact HA|]. split; [exact HB|]. split; [exact Hids|].
  exact (@requests_isolated Demo.sizes Demo.crossed Demo.neighbour Demo.victim
           (Demo.blank 1000) HA HB Hids).
Defined.

(** * What is written, and where *)

(** ** The copy, forwards *)

(** What the copy loop does to an open stream and a regular file, for every
    chunk size: the bytes that fit on the volume are appended, and the loop
    raises exactly when some did not fit. *)
Lemma copy_loop_run n h dst w old :
  0 < n → closed (streams w h) = false → fs w !! dst = Some (File old) →
  (copy_loop n h dst w).1
  = (if decide (length (unread (streams w h)) ≤ free w) then inr tt
     else inl (OSError "ENOSPC")) ∧
  fs (copy_loop n h dst w).2
  = <[dst := File (old ++ take (free w) (unread (streams w h)))]> (fs w) ∧
  free (copy_loop n h dst w).2 = free w - length (unread (streams w h)) ∧
  trace (copy_loop n h dst w).2 = trace w ∧
  drawn (copy_loop n h dst w).2 = drawn w ∧
  (∀ h', h' ≠ h → streams (copy_loop n h dst w).2 h' = streams w h') ∧
  closed (streams (copy_loop n h dst w).2 h) = false ∧
  (length (unread (streams w h)) ≤ free w →
   unread (streams (copy_loop n h dst w).2 h) = []).
Proof.
  intros Hn. remember (length (unread (streams w h))) as k eqn:Hk.
  revert w old Hk. induction (lt_wf k) as [k _ IH]. intros w old -> Hcl Hdst.
  rewrite copy_loop_step. unfold stream_read. rewrite Hcl.
  pose proof (take_drop n (unread (streams w h))) as Hsplit.
  destruct (take n (unread (streams w h))) as [|b buf] eqn:Htake.
  - assert (unread (streams w h) = []) as Hnil.
    { destruct (unread (streams w h)) as [|b l] eqn:Hun; [done|].
      destruct n; [lia|]. done. }
    rewrite Hnil. cbn [fst snd fs free trace drawn streams set_streams length].
    rewrite decide_True by lia. rewrite take_nil, app_nil_r, insert_id by done.
    split_and!; try done; try lia.
    + intros h' Hh'. by rewrite fn_lookup_insert_ne.
    + by rewrite fn_lookup_insert.
    + intros _. by rewrite fn_lookup_insert, drop_nil.
  - unfold buffer_write. cbn [fs free set_streams]. rewrite Hdst.
    assert (length (unread (streams w h))
            = length (b :: buf) + length (drop n (unread (streams w h)))) as Hlen
      by (by rewrite <- Hsplit at 1; rewrite length_app).
    destruct (decide (length (b :: buf) ≤ free w)) as [Hfit|Hfull].
    + match goal with |- context [copy_loop n h dst ?w2] => set (w2' := w2) end.
      assert (unread (streams w2' h) = drop n (unread (streams w h))) as Hun
        by (unfold w2'; cbn; by rewrite fn_lookup_insert).
      destruct (IH (length (unread (streams w2' h)))
                  ltac:(rewrite Hun, Hlen; simpl; lia) w2' (old ++ b :: buf) eq_refl)
        as (Hr & Hfs & Hfree & Htr & Hdr & Hoth & Hcl' & Heof).
      { unfold w2'. cbn. by rewrite fn_lookup_insert. }
      { unfold w2'. cbn. by rewrite lookup_insert_eq. }
      rewrite Hun in *.
      assert (free w2' = free w - length (b :: buf)) as Hfree2 by done.
      assert (fs w2' = <[dst := File (old ++ b :: buf)]> (fs w)) as Hfs2 by done.
      split_and!.
      * rewrite Hr, Hfree2. repeat case_decide; try done; lia.
      * rewrite Hfs, Hfs2, Hfree2, insert_insert_eq, <- app_assoc.
        rewrite <- Hsplit at 2. rewrite take_app, (take_ge (b :: buf)) by done.
        done.
      * rewrite Hfree, Hfree2. lia.
      * by rewrite Htr.
      * by rewrite Hdr.
      * intros h' Hh'. rewrite Hoth by done. unfold w2'. cbn.
        by rewrite fn_lookup_insert_ne.
      * done.
      * intros Hle. apply Heof. rewrite Hfree2. lia.
    + cbn [fst snd fs free trace drawn streams set_fs set_free set_streams].
      rewrite decide_False by lia.
      split_and!; try done; try lia.
      * rewrite <- Hsplit at 1. rewrite take_app.
        replace (free w - length (b :: buf)) with 0 by lia.
        by rewrite take_0, app_nil_r.
      * intros h' Hh'. by rewrite fn_lookup_insert_ne.
      * by rewrite fn_lookup_insert.
Qed.

Lemma copy_loop_closed n h dst w :
  closed (streams w h) = true →
  copy_loop n h dst w = (inl (ValueError "I/O operation on closed file"), w).
Proof.
  intros Hcl. rewrite copy_loop_step. unfold stream_read. by rewrite Hcl.
Qed.

(** ** Storing one upload, forwards *)

Lemma store_upload_unfold d f w :
  store_upload d f w =
  match open_wb (joinpath d (filename f)) w with
  | (inl e, w0) => (inl e, (stream_close (file f) w0).2)
  | (inr c, w0) =>
      ((copyfileobj (file f) c w0).1,
       (stream_close (file f) (copyfileobj (file f) c w0).2).2)
  end.
Proof.
  unfold store_upload, with_open_wb, try_finally, bind, buffer_close, ret,
    stream_close.
  destruct (open_wb _ w) as [[e|c] w0]; [reflexivity|].
  destruct (copyfileobj (file f) c w0) as [r w1]. reflexivity.
Qed.

Lemma namei_error t cur names e :
  namei t cur names = inl e → e ≠ FileExistsError.
Proof.
  revert cur. induction names as [|x names IH]; intros cur; simpl; [done|].
  destruct (lookup_node t cur) as [[|data]|]; [|by intros [= <-]..].
  destruct (too_long x); [by intros [= <-]|]. apply IH.
Qed.

Lemma resolve_error w p e : resolve w p = inl e → e ≠ FileExistsError.
Proof.
  unfold resolve. destruct (PATH_MAX <=? path_length p); [by intros [= <-]|].
  apply namei_error.
Qed.

(** The two ways an open ends: it raises and nothing has changed, or the
    location holds an empty file. *)
Lemma open_wb_cases p w :
  (∃ e, open_wb p w = (inl e, w) ∧ e ≠ FileExistsError) ∨
  (∃ c, (open_wb p w).1 = inr c ∧ has_nul p = false ∧ resolve w p = inr c ∧
        lookup_node (fs w) c ≠ Some Dir ∧ c ≠ [] ∧ denied w c = None ∧
        fs (open_wb p w).2 = <[c := File []]> (fs w) ∧
        free (open_wb p w).2 = free w + size_at (fs w) c ∧
        streams (open_wb p w).2 = streams w ∧
        trace (open_wb p w).2 = trace w ++ [EvOpen c]).
Proof.
  unfold open_wb. destruct (has_nul p) eqn:Hnul; [left; by eexists|].
  destruct (resolve w p) as [e|c] eqn:Hres.
  { left. exists e. split; [done|]. by eapply resolve_error. }
  assert (lookup_node (fs w) c ≠ Some Dir → c ≠ []) as Hroot
    by (intros Hnd ->; by apply Hnd).
  destruct (lookup_node (fs w) c) as [[|old]|] eqn:Hc.
  - left. by eexists.
  - assert (c ≠ []) as Hne by (by apply Hroot).
    rewrite lookup_node_ne in Hc by done.
    destruct (denied w c) as [[]|] eqn:Hden; [left; by eexists..|].
    right. exists c. unfold size_at. rewrite Hc. cbn. split_and!; try done.
    by rewrite lookup_node_ne, Hc by done.
  - assert (c ≠ []) as Hne by (by apply Hroot).
    rewrite lookup_node_ne in Hc by done.
    destruct (denied w c) as [[]|] eqn:Hden; [left; by eexists..|].
    right. exists c. unfold size_at. rewrite Hc. cbn. split_and!; try done; try lia.
    by rewrite lookup_node_ne, Hc by done.
Qed.

(** The two ways storing an upload ends.  When the open raises, that is the
    outcome and the tree is as before.  When it returns, the file at the
    destination holds the bytes of the stream that fitted on the volume,
    whatever it held before, and the outcome is that of the copy. *)
Lemma store_upload_cases d f w :
  closed (streams (store_upload d f w).2 (file f)) = true ∧
  ((∃ e, open_wb (joinpath d (filename f)) w = (inl e, w) ∧
         e ≠ FileExistsError ∧
         (store_upload d f w).1 = inl e ∧
         fs (store_upload d f w).2 = fs w ∧
         free (store_upload d f w).2 = free w ∧
         trace (store_upload d f w).2 = trace w ++ [EvClose (file f)]) ∨
   (∃ c, (open_wb (joinpath d (filename f)) w).1 = inr c ∧
         resolve w (joinpath d (filename f)) = inr c ∧
         lookup_node (fs w) c ≠ Some Dir ∧ c ≠ [] ∧ denied w c = None ∧
         (store_upload d f w).1
         = copied (streams w (file f)) (free w + size_at (fs w) c) ∧
         fs (store_upload d f w).2
         = <[c := File (written (streams w (file f))
                          (free w + size_at (fs w) c))]> (fs w) ∧
         free (store_upload d f w).2
         = free w + size_at (fs w) c
           - length (written (streams w (file f)) (free w + size_at (fs w) c)) ∧
         trace (store_upload d f w).2 = trace w ++ [EvOpen c; EvClose (file f)])).
Proof.
  split.
  { destruct (store_upload d f w) as [r w'] eqn:Hup. by eapply store_upload_closes. }
  rewrite store_upload_unfold.
  destruct (open_wb_cases (joinpath d (filename f)) w)
    as [(e & Hopen & He)|(c & Hopen & _ & Hres & Hnd & Hne & Hden & Hfs & Hfree & Hst & Htr)].
  - left. exists e. rewrite Hopen. by split_and!.
  - right. exists c. destruct (open_wb _ w) as [r0 w0] eqn:Hrun.
    cbn [fst snd] in *. subst r0.
    unfold copied, written, copyfileobj.
    destruct (closed (streams w (file f))) eqn:Hcl.
    + rewrite copy_loop_closed by (by rewrite Hst).
      cbn. rewrite Hfs, Hfree, Htr, <- app_assoc. split_and!; try done. lia.
    + destruct (copy_loop_run COPY_BUFSIZE (file f) c w0 [])
        as (Hr & Hfs' & Hfree' & Htr' & _); [apply COPY_BUFSIZE_pos|by rewrite Hst|
          by rewrite Hfs, lookup_insert_eq|].
      rewrite Hst, Hfree in Hr, Hfs', Hfree'.
      cbn [fst snd stream_close fs free trace log set_streams].
      rewrite Hr, Hfs', Hfree', Htr', Htr, Hfs, insert_insert_eq, <- app_assoc.
      split_and!; try done.
      rewrite length_take. lia.
Qed.

(** ** Where the uploads end up *)

Lemma resolve_destination u name w c :
  resolve w (joinpath (request_dir u) name) = inr c → c = destination u name.
Proof.
  intros Hres. apply resolve_rooted in Hres; [done|].
  apply joinpath_rooted. by rewrite request_dir_loc.
Qed.

Lemma placed_cons u s f files t :
  placed u s (f :: files) t
  = placed u s files (<[destination u (filename f) := File (unread (s (file f)))]> t).
Proof. done. Qed.

Lemma placed_app u s pre post t :
  placed u s (pre ++ post) t = placed u s post (placed u s pre t).
Proof. unfold placed. by rewrite foldl_app. Qed.

Lemma placed_ext u s s' files t :
  (∀ f, f ∈ files → s (file f) = s' (file f)) →
  placed u s files t = placed u s' files t.
Proof.
  revert t. induction files as [|f files IH]; intros t Hext; [done|].
  rewrite !placed_cons, (Hext f) by left. apply IH. intros g Hg. apply Hext. by right.
Qed.

Lemma placed_lookup_other u s files t c :
  Forall (λ f, destination u (filename f) ≠ c) files →
  placed u s files t !! c = t !! c.
Proof.
  intros Hother. revert t. induction Hother as [|f files Hf _ IH]; intros t; [done|].
  by rewrite placed_cons, IH, lookup_insert_ne.
Qed.

(** The last upload that leads to a location is the one whose bytes are
    there. *)
Lemma placed_lookup_last u s pre f post t :
  Forall (λ g, destination u (filename g) ≠ destination u (filename f)) post →
  placed u s (pre ++ f :: post) t !! destination u (filename f)
  = Some (File (unread (s (file f)))).
Proof.
  intros Hpost. rewrite placed_app, placed_cons, placed_lookup_other by done.
  apply lookup_insert_eq.
Qed.

(** Every upload left a regular file where its name led. *)
Lemma placed_lookup_file u s files t f :
  f ∈ files →
  ∃ g, g ∈ files ∧ destination u (filename g) = destination u (filename f) ∧
       placed u s files t !! destination u (filename f)
       = Some (File (unread (s (file g)))).
Proof.
  revert t. induction files as [|h files IH] using rev_ind; intros t Hf.
  { by apply elem_of_nil in Hf. }
  rewrite placed_app, placed_cons. cbn [placed foldl].
  destruct (decide (destination u (filename h) = destination u (filename f)))
    as [Heq|Hne].
  - exists h. split; [apply elem_of_app; right; by left|]. split; [done|].
    rewrite <- Heq. apply lookup_insert_eq.
  - apply elem_of_app in Hf as [Hf|Hf%list_elem_of_singleton]; [|by subst].
    destruct (IH t Hf) as (g & Hg & Hd & Hlook).
    exists g. split; [apply elem_of_app; by left|]. split; [done|].
    by rewrite lookup_insert_ne.
Qed.

Lemma dom_placed u s files t :
  dom (placed u s files t)
  = list_to_set ((λ f, destination u (filename f)) <$> files) ∪ dom t.
Proof.
  revert t. induction files as [|f files IH]; intros t.
  - cbn. set_solver.
  - rewrite placed_cons, IH, dom_insert_L, fmap_cons. cbn [list_to_set]. set_solver.
Qed.

(** When all uploads were stored, each was written where its unchecked name
    led, with the bytes of its own stream; no stream is used twice. *)
Lemma store_all_placed u files w w' :
  store_all (request_dir u) files w = (inr tt, w') →
  fs w' = placed u (streams w) files (fs w) ∧
  NoDup (file <$> files) ∧
  Forall (λ f, closed (streams w (file f)) = false) files ∧
  (∀ h, streams w' h =
        if decide (h ∈ file <$> files) then mkStream [] true else streams w h) ∧
  trace w' = trace w ++
    flat_map (λ f, [EvOpen (destination u (filename f)); EvClose (file f)]) files.
Proof.
  revert w. induction files as [|f files IH]; intros w.
  - intros [= <-]. cbn. rewrite app_nil_r. repeat split; try done. constructor.
  - rewrite store_all_cons.
    destruct (store_upload (request_dir u) f w) as [[e|[]] w1] eqn:Hup; [done|].
    intros Hrest.
    apply store_upload_ok in Hup as (c & _ & Hres & _ & _ & Hcl & Hfs & Hst & Htr).
    apply resolve_destination in Hres. subst c.
    apply IH in Hrest as (Hfs' & Hnd & Hopen & Hst' & Htr').
    assert (∀ g, g ∈ files → file g ≠ file f) as Hfresh.
    { intros g Hg Heq. rewrite list.Forall_forall in Hopen.
      specialize (Hopen g Hg). rewrite Heq, Hst in Hopen.
      by rewrite decide_True in Hopen. }
    assert (file f ∉ file <$> files) as Hnotin.
    { intros (g & Heq & Hg)%list_elem_of_fmap. by eapply Hfresh. }
    repeat split.
    + rewrite Hfs', Hfs, placed_cons. apply placed_ext.
      intros g Hg. rewrite Hst. by rewrite decide_False by by apply Hfresh.
    + rewrite fmap_cons. by apply list.NoDup_cons.
    + constructor; [done|]. rewrite list.Forall_forall in Hopen |- *.
      intros g Hg. specialize (Hopen g Hg).
      by rewrite Hst, decide_False in Hopen by by apply Hfresh.
    + intros h. rewrite Hst', fmap_cons.
      destruct (decide (h ∈ file <$> files)) as [Hin|Hout].
      * by rewrite decide_True by by right.
      * rewrite Hst. destruct (decide (h = file f)) as [->|Hh].
        -- by rewrite decide_True by left.
        -- rewrite decide_False; [done|]. by intros [?|?]%elem_of_cons.
    + rewrite Htr', Htr. cbn [flat_map]. by rewrite <- app_assoc.
Qed.

Lemma store_all_app d pre post w :
  store_all d (pre ++ post) w =
  match store_all d pre w with
  | (inl e, w1) => (inl e, w1)
  | (inr _, w1) => store_all d post w1
  end.
Proof. apply for_each_app. Qed.

(** A run of the loop that went through went through every upload. *)
Lemma store_all_split d pre f post w w' :
  store_all d (pre ++ f :: post) w = (inr tt, w') →
  ∃ w0 w2, store_all d pre w = (inr tt, w0) ∧
           store_upload d f w0 = (inr tt, w2) ∧
           store_all d post w2 = (inr tt, w').
Proof.
  rewrite store_all_app.
  destruct (store_all d pre w) as [[e|[]] w0]; [done|].
  rewrite store_all_cons.
  destruct (store_upload d f w0) as [[e|[]] w2] eqn:Hup; [done|].
  intros Hpost. by exists w0, w2.
Qed.




(** A location that is not below the request directory. *)
Lemma outside_request_dir u (c : loc) :
  length c ≤ 4 → ∀ y rest, c ≠ request_loc u ++ y :: rest.
Proof.
  intros Hc y rest Heq%(f_equal length). rewrite length_app in Heq.
  cbn in Heq. lia.
Qed.

Section OnDisk.

Context `{FileCheckerLib}.

(** A call that returns made the request directory, stored every upload
    where its name led and called the checker on what it found. *)
Lemma check_file_list_placed files w r w' :
  check_file_list files w = (inr r, w') →
  ∃ w1 w2,
    make_request_dir w = (inr (request_dir (next_uuid w)), w1) ∧
    store_all (request_dir (next_uuid w)) files w1 = (inr tt, w2) ∧
    validate (request_dir (next_uuid w)) w2 = (inr r, w') ∧
    streams w1 = streams w ∧
    fs w2 = placed (next_uuid w) (streams w) files (fs w1) ∧
    fs w' = fs w2 ∧
    trace w1 `prefix_of` trace w2 ∧ trace w2 `prefix_of` trace w' ∧
    trace w2 = trace w1 ++
      flat_map (λ f, [EvOpen (destination (next_uuid w) (filename f));
                      EvClose (file f)]) files.
Proof.
  intros (w1 & w2 & Hmk & Hstore & Hval)%check_file_list_ok.
  rewrite <- request_dir_loc in Hmk, Hstore, Hval.
  exists w1, w2.
  pose proof Hmk as Hmade. rewrite request_dir_loc in Hmade.
  apply make_request_dir_ok in Hmade as (_ & Hmade & _).
  pose proof (md_streams _ _ _ Hmade) as Hst. cbn [streams set_drawn] in Hst.
  pose proof Hstore as (Hfs & _ & _ & _ & Htr)%store_all_placed.
  pose proof Hval as Hev%evolves_validate.
  pose proof Hval as (Hfs' & _)%validate_run.
  rewrite Hst in Hfs. split_and!; try done.
  - rewrite Htr. by apply prefix_app_r.
  - apply Hev.
Qed.

End OnDisk.

(** ** Unchecked names, in a call *)

Section Unchecked.

Context `{FileCheckerLib}.

(** C5: in a call that returns, every upload was opened at the unchecked
    join of the request directory and the name the client gave it, and the
    location that join leads to holds the bytes of the last upload that led
    there.  So an upload whose name climbs with [..] or starts at the root is
    written to a location that is not below the request directory, and an
    upload that has the name of an earlier one is written over it. *)
Theorem names_are_not_sanitized (files : list UploadFile) (w : world)
    (r : gmap string report) (w' : world)
    (pre : list UploadFile) (f : UploadFile) (post : list UploadFile) :
  check_file_list files w = (inr r, w') →
  files = pre ++ f :: post →
  Forall (λ g, destination (next_uuid w) (filename g)
               ≠ destination (next_uuid w) (filename f)) post →
  (∃ w1 w0,
     make_request_dir w = (inr (request_dir (next_uuid w)), w1) ∧
     store_all (request_dir (next_uuid w)) pre w1 = (inr tt, w0) ∧
     (open_wb (joinpath (request_dir (next_uuid w)) (filename f)) w0).1
     = inr (destination (next_uuid w) (filename f))) ∧
  EvOpen (destination (next_uuid w) (filename f)) ∈ trace w' ∧
  fs w' !! destination (next_uuid w) (filename f)
  = Some (File (unread (streams w (file f)))) ∧
  (∀ x, plain_name x = true → filename f = "../" +:+ x →
        fs w' !! ["home"; "app"; "input"; x]
        = Some (File (unread (streams w (file f)))) ∧
        ∀ y rest,
          ["home"; "app"; "input"; x] ≠ request_loc (next_uuid w) ++ y :: rest) ∧
  (∀ x, plain_name x = true → filename f = "/" +:+ x →
        fs w' !! [x] = Some (File (unread (streams w (file f)))) ∧
        ∀ y rest, [x] ≠ request_loc (next_uuid w) ++ y :: rest) ∧
  (∀ g, g ∈ pre → filename g = filename f →
        fs w' !! destination (next_uuid w) (filename g)
        = Some (File (unread (streams w (file f))))).
Proof.
  intros (w1 & w2 & Hmk & Hstore & _ & _ & Hfs2 & Hfs' & _ & Hpre' & Htr)%
    check_file_list_placed -> Hpost.
  assert (fs w' !! destination (next_uuid w) (filename f)
          = Some (File (unread (streams w (file f))))) as Hf
    by (rewrite Hfs', Hfs2; by apply placed_lookup_last).
  split_and!.
  - apply store_all_split in Hstore as (w0 & w3 & Hpre & Hup & _).
    exists w1, w0. split_and!; [done..|].
    destruct (store_upload_cases (request_dir (next_uuid w)) f w0)
      as [_ [(e & _ & _ & He & _)|(c & Hopen & Hres & _)]].
    + by rewrite Hup in He.
    + by rewrite Hopen, (resolve_destination _ _ _ _ Hres).
  - eapply elem_of_prefix; [|exact Hpre']. rewrite Htr.
    apply elem_of_app. right. apply list_elem_of_In, in_flat_map.
    exists f. split; [apply list_elem_of_In, elem_of_app; right; by left|by left].
  - done.
  - intros x Hx Hname. rewrite Hname, destination_dotdot in Hf by done.
    split; [done|]. by apply outside_request_dir.
  - intros x Hx Hname. rewrite Hname, destination_absolute in Hf by done.
    split; [done|]. apply outside_request_dir. cbn. lia.
  - intros g _ ->. done.
Qed.

End Unchecked.

Lemma names_are_not_sanitized_witness :
  @check_file_list Demo.sizes Demo.escaping (Demo.blank 1000)
  = (inr {["results" := [(mkPath Slash (Demo.loc0 ++ ["a.txt"]), 5)]]},
     (@check_file_list Demo.sizes Demo.escaping (Demo.blank 1000)).2) ∧
  Demo.escaping = [mkUpload "a.txt" 0] ++ mkUpload "../b.csv" 1 :: [] ∧
  Forall (λ g, destination (next_uuid (Demo.blank 1000)) (filename g)
               ≠ destination (next_uuid (Demo.blank 1000))
                   (filename (mkUpload "../b.csv" 1))) [] ∧
  fs (@check_file_list Demo.sizes Demo.escaping (Demo.blank 1000)).2
    !! ["home"; "app"; "input"; "b.csv"]
  = Some (File (unread (streams (Demo.blank 1000) 1))) ∧
  ∀ y rest,
    ["home"; "app"; "input"; "b.csv"]
    ≠ request_loc (next_uuid (Demo.blank 1000)) ++ y :: rest.
Proof.
  assert (@check_file_list Demo.sizes Demo.escaping (Demo.blank 1000)
          = (inr {["results" := [(mkPath Slash (Demo.loc0 ++ ["a.txt"]), 5)]]},
             (@check_file_list Demo.sizes Demo.escaping (Demo.blank 1000)).2))
    as Hrun.
  { refine (run_eq (@check_file_list Demo.sizes Demo.escaping) (Demo.blank 1000)
              (inr {["results" := [(mkPath Slash (Demo.loc0 ++ ["a.txt"]), 5)]]}) _).
    vm_compute. reflexivity. }
  split; [exact Hrun|]. split; [reflexivity|]. split; [constructor|].
  exact (proj1 (proj2 (proj2 (proj2
           (@names_are_not_sanitized Demo.sizes Demo.escaping (Demo.blank 1000)
              {["results" := [(mkPath Slash (Demo.loc0 ++ ["a.txt"]), 5)]]}
              (@check_file_list Demo.sizes Demo.escaping (Demo.blank 1000)).2
              [mkUpload "a.txt" 0] (mkUpload "../b.csv" 1) []
              Hrun eq_refl (Forall_nil _)))))
           "b.csv" eq_refl eq_refl).
Defined.

(** ** Two uploads of one name, in a call *)


Section SameName.

Context `{FileCheckerLib}.


End SameName.


(** ** How the destination is opened *)

Section Truncating.

Context `{FileCheckerLib}.


End Truncating.



(** ** Exceptions and what is left behind *)

Section Propagation.

Context `{FileCheckerLib}.

(** C3: the handler catches nothing and undoes nothing.  An exception of the
    directory creation, of storing an upload or of the checker is the
    handler's own outcome, in the very world that call left; a call that
    returns has been through all three.  When storing an upload raises, the
    uploads after it are not touched, every upload before it is on disk with
    all its bytes, and the one that failed is either not there because its
    open raised, or is there with the bytes that were written before the copy
    raised.  When the checker raises, and when the call returns, every upload
    is on disk.  Nothing is removed on any path: every entry is still there
    afterwards, and so is the request directory once it was made. *)
Theorem exceptions_propagate (files : list UploadFile) (w : world) :
  (∀ e w1, make_request_dir w = (inl e, w1) →
           check_file_list files w = (inl e, w1)) ∧
  (∀ d w1 e w2,
     make_request_dir w = (inr d, w1) → store_all d files w1 = (inl e, w2) →
     check_file_list files w = (inl e, w2) ∧
     ∃ pre f post w0,
       files = pre ++ f :: post ∧ store_all d pre w1 = (inr tt, w0) ∧
       store_upload d f w0 = (inl e, w2) ∧
       (trace w2 = trace w0 ++ [EvClose (file f)] ∨
        ∃ c, trace w2 = trace w0 ++ [EvOpen c; EvClose (file f)]) ∧
       fs w0 = placed (next_uuid w) (streams w) pre (fs w1) ∧
       ((open_wb (joinpath d (filename f)) w0 = (inl e, w0) ∧ fs w2 = fs w0) ∨
        ((open_wb (joinpath d (filename f)) w0).1
         = inr (destination (next_uuid w) (filename f)) ∧
         copied (streams w0 (file f))
           (free w0 + size_at (fs w0) (destination (next_uuid w) (filename f)))
         = inl e ∧
         fs w2
         = <[destination (next_uuid w) (filename f)
             := File (written (streams w0 (file f))
                        (free w0
                         + size_at (fs w0)
                             (destination (next_uuid w) (filename f))))]>
             (fs w0)))) ∧
  (∀ d w1 w2 e w3,
     make_request_dir w = (inr d, w1) → store_all d files w1 = (inr tt, w2) →
     validate d w2 = (inl e, w3) →
     check_file_list files w = (inl e, w3) ∧
     fs w3 = placed (next_uuid w) (streams w) files (fs w1)) ∧
  (∀ r w', check_file_list files w = (inr r, w') →
           ∃ d w1 w2, make_request_dir w = (inr d, w1) ∧
                      store_all d files w1 = (inr tt, w2) ∧
                      validate d w2 = (inr r, w') ∧
                      fs w' = placed (next_uuid w) (streams w) files (fs w1)) ∧
  evolves w (check_file_list files w).2 ∧
  (∀ d w1, make_request_dir w = (inr d, w1) →
           fs (check_file_list files w).2 !! request_loc (next_uuid w) = Some Dir).
Proof.
  assert (∀ d w1, make_request_dir w = (inr d, w1) →
                  d = request_dir (next_uuid w) ∧ streams w1 = streams w) as Hdir.
  { intros d w1 (-> & Hmade & _)%make_request_dir_ok.
    split; [by rewrite request_dir_loc|]. apply (md_streams _ _ _ Hmade). }
  split_and!.
  - intros e w1 Hmk. rewrite check_file_list_phases. unfold bind. by rewrite Hmk.
  - intros d w1 e w2 Hmk Hstore. split.
    + rewrite check_file_list_phases. unfold bind. by rewrite Hmk, Hstore.
    + destruct (Hdir _ _ Hmk) as [-> Hst].
      apply store_all_fails in Hstore as (pre & f & post & w0 & -> & Hpre & Hf).
      exists pre, f, post, w0. split_and!; try done.
      * apply store_upload_trace in Hf as [Ht|(c & _ & Ht)]; eauto.
      * apply store_all_placed in Hpre as (Hfs & _). by rewrite <- Hst.
      * destruct (store_upload_cases (request_dir (next_uuid w)) f w0)
          as [_ [(e' & Hopen & _ & Hr & Hfs & _)
                |(c & Hopen & Hres & _ & _ & _ & Hr & Hfs & _)]];
          rewrite Hf in Hr, Hfs; cbn [fst snd] in Hr, Hfs.
        -- left. injection Hr as ->. done.
        -- right. apply resolve_destination in Hres. subst c. done.
  - intros d w1 w2 e w3 Hmk Hstore Hval. split.
    + rewrite check_file_list_phases. unfold bind. by rewrite Hmk, Hstore, Hval.
    + destruct (Hdir _ _ Hmk) as [-> Hst].
      apply store_all_placed in Hstore as (Hfs & _).
      apply validate_run in Hval as (Hfs' & _). by rewrite Hfs', Hfs, Hst.
  - intros r w' (w1 & w2 & Hmk & Hstore & Hval & _ & Hfs & Hfs' & _)%
      check_file_list_placed.
    exists (request_dir (next_uuid w)), w1, w2. split_and!; try done.
    by rewrite Hfs'.
  - destruct (check_file_list files w) as [r w'] eqn:Hrun.
    by eapply evolves_check_file_list.
  - intros d w1 Hmk.
    pose proof Hmk as (_ & _ & _ & Hd & _)%make_request_dir_ok.
    eapply evolves_dirs; [|exact Hd].
    rewrite check_file_list_phases. unfold bind. rewrite Hmk.
    destruct (store_all d files w1) as [[e|[]] w2] eqn:Hstore.
    + by eapply evolves_store_all.
    + destruct (validate d w2) as [r w3] eqn:Hval. simpl.
      etrans; [by eapply evolves_store_all|by eapply evolves_validate].
Qed.

End Propagation.

Lemma exceptions_propagate_witness :
  make_request_dir (Demo.blank 6)
  = (inr Demo.dir0, (make_request_dir (Demo.blank 6)).2) ∧
  store_all Demo.dir0 Demo.three_files (make_request_dir (Demo.blank 6)).2
  = (inl (OSError "ENOSPC"),
     (store_all Demo.dir0 Demo.three_files
        (make_request_dir (Demo.blank 6)).2).2) ∧
  @check_file_list Demo.sizes Demo.three_files (Demo.blank 6) = (inl (OSError "ENOSPC"), (store_all Demo.dir0 Demo.three_files
       (make_request_dir (Demo.blank 6)).2).2) ∧
  ∃ pre f post w0,
    Demo.three_files = pre ++ f :: post ∧ store_all Demo.dir0 pre (make_request_dir (Demo.blank 6)).2 = (inr tt, w0) ∧
    store_upload Demo.dir0 f w0 = (inl (OSError "ENOSPC"), (store_all Demo.dir0 Demo.three_files
       (make_request_dir (Demo.blank 6)).2).2) ∧
    (trace (store_all Demo.dir0 Demo.three_files
       (make_request_dir (Demo.blank 6)).2).2 = trace w0 ++ [EvClose (file f)] ∨
  ∃ c, trace (store_all Demo.dir0 Demo.three_files
       (make_request_dir (Demo.blank 6)).2).2 = trace w0 ++ [EvOpen c; EvClose (file f)]) ∧
    fs w0 = placed (next_uuid (Demo.blank 6)) (streams (Demo.blank 6)) pre (fs (make_request_dir (Demo.blank 6)).2) ∧
    ((open_wb (joinpath Demo.dir0 (filename f)) w0 = (inl (OSError "ENOSPC"), w0) ∧ fs (store_all Demo.dir0 Demo.three_files
       (make_request_dir (Demo.blank 6)).2).2 = fs w0) ∨
     ((open_wb (joinpath Demo.dir0 (filename f)) w0).1
      = inr (destination (next_uuid (Demo.blank 6)) (filename f)) ∧
      copied (streams w0 (file f))
        (free w0 + size_at (fs w0) (destination (next_uuid (Demo.blank 6)) (filename f)))
      = inl (OSError "ENOSPC") ∧
      fs (store_all Demo.dir0 Demo.three_files
       (make_request_dir (Demo.blank 6)).2).2
      = <[destination (next_uuid (Demo.blank 6)) (filename f)
          := File (written (streams w0 (file f))
                     (free w0
                      + size_at (fs w0)
                          (destination (next_uuid (Demo.blank 6)) (filename f))))]>
          (fs w0))).
Proof.
  assert (make_request_dir (Demo.blank 6)
          = (inr Demo.dir0, (make_request_dir (Demo.blank 6)).2)) as Hmk.
  { refine (run_eq make_request_dir (Demo.blank 6) (inr Demo.dir0) _).
    vm_compute. reflexivity. }
  assert (store_all Demo.dir0 Demo.three_files (make_request_dir (Demo.blank 6)).2
          = (inl (OSError "ENOSPC"),
             (store_all Demo.dir0 Demo.three_files
                (make_request_dir (Demo.blank 6)).2).2)) as Hstore.
  { refine (run_eq (store_all Demo.dir0 Demo.three_files)
              (make_request_dir (Demo.blank 6)).2 (inl (OSError "ENOSPC")) _).
    vm_compute. reflexivity. }
  split; [exact Hmk|]. split; [exact Hstore|].
  exact (proj1 (proj2 (@exceptions_propagate Demo.sizes Demo.three_files
                         (Demo.blank 6)))
           Demo.dir0 (make_request_dir (Demo.blank 6)).2 (OSError "ENOSPC")
           (store_all Demo.dir0 Demo.three_files
              (make_request_dir (Demo.blank 6)).2).2
           Hmk Hstore).
Defined.

(** * Further properties of the handlers *)

(** ** The handler and its steps *)

Section Steps.

Context `{FileCheckerLib}.

Lemma run_done n r w : run n (Done r) w = (Done r, w).
Proof. induction n as [|n IH]; [done|]. cbn [run step]. apply IH. Qed.

Lemma run_S n th w :
  run (S n) th w = run n (step th w).1 (step th w).2.
Proof. cbn [run]. by destruct (step th w). Qed.

Lemma run_storing d files k w :
  run (S (length files + k)) (Storing d files) w
  = (Done ((store_all d files;; validate d) w).1,
     ((store_all d files;; validate d) w).2).
Proof.
  revert w. induction files as [|f files IH]; intros w; rewrite run_S.
  - cbn [step]. unfold store_all, bind. cbn [for_each ret].
    destruct (validate d w) as [r w']. apply run_done.
  - cbn [step]. unfold bind. rewrite store_all_cons.
    change (length (f :: files) + k) with (S (length files + k)).
    destruct (store_upload d f w) as [[e|[]] w1]; cbn [fst snd].
    + apply run_done.
    + rewrite (IH w1). unfold bind. done.
Qed.

(** The request that [step] takes through its phases is the handler: run
    alone for as many steps as it has uploads and two more, or longer, it
    ends with the outcome of [check_file_list] in the world that call
    leaves. *)
Theorem handler_is_its_steps (files : list UploadFile) (w : world) (k : nat) :
  run (length files + 2 + k) (Start files) w
  = (Done (check_file_list files w).1, (check_file_list files w).2).
Proof.
  replace (length files + 2 + k) with (S (S (length files + k))) by lia.
  rewrite run_S. cbn [step]. rewrite check_file_list_phases. unfold bind at 1 3.
  destruct (make_request_dir w) as [[e|d] w1]; cbn [fst snd].
  - apply run_done.
  - apply run_storing.
Qed.

End Steps.

(** ** The request identifier *)

Section Identifier.

Context `{FileCheckerLib}.

(** A call takes one value from the random source, however it ends, and
    leaves the source and the working directory alone. *)
Theorem one_identifier_per_call (files : list UploadFile) (w : world) :
  drawn (check_file_list files w).2 = S (drawn w) ∧
  urandom (check_file_list files w).2 = urandom w ∧
  cwd (check_file_list files w).2 = cwd w.
Proof.
  split; [|destruct (check_file_list files w) as [r w'] eqn:Hrun;
           apply evolves_check_file_list in Hrun; split; apply Hrun].
  rewrite check_file_list_phases. unfold bind.
  destruct (make_request_dir w) as [[e|d] w1] eqn:Hmk.
  { by apply (make_request_dir_any []) in Hmk as (Hdr & _). }
  pose proof Hmk as (-> & _)%make_request_dir_ok.
  apply (make_request_dir_any []) in Hmk as (Hdr & _).
  destruct (store_all _ files w1) as [[e|[]] w2] eqn:Hstore;
    apply stores_store_all in Hstore as [_ Hdr2 _ _ _]; cbn [snd].
  { congruence. }
  destruct (validate _ w2) as [r w3] eqn:Hval.
  apply validate_owned in Hval as [_ Hdr3]. cbn [snd]. congruence.
Qed.

End Identifier.

(** The request directory is an entry of [/home/app/input] whatever the
    random source gives: its name is made of hexadecimal digits and dashes,
    so it is one path component, and it is not [.] or [..]. *)
Theorem request_directory_name (r : N) :
  request_dir (UUID.of_random r)
  = mkPath Slash ["home"; "app"; "input"; UUID.str (UUID.of_random r)] ∧
  all_chars hexdash (UUID.str (UUID.of_random r)) = true ∧
  plain_name (UUID.str (UUID.of_random r)) = true.
Proof.
  split_and!.
  - apply request_dir_loc.
  - apply uuid_str_hexdash.
  - apply uuid_str_plain.
Qed.

(** ** The copy *)

(** The size of the chunks is no part of what the copy does: with any chunk
    size, an open stream is copied into a regular file with the outcome, the
    tree and the free space that [shutil.copyfileobj] leaves. *)
Theorem chunk_size_is_no_contract (n : nat) (h : handle) (dst : loc) (w : world)
    (old : list Byte.byte) :
  0 < n → closed (streams w h) = false → fs w !! dst = Some (File old) →
  (copy_loop n h dst w).1 = (copyfileobj h dst w).1 ∧
  fs (copy_loop n h dst w).2 = fs (copyfileobj h dst w).2 ∧
  free (copy_loop n h dst w).2 = free (copyfileobj h dst w).2.
Proof.
  intros Hn Hcl Hdst. unfold copyfileobj.
  destruct (copy_loop_run n h dst w old Hn Hcl Hdst) as (-> & -> & -> & _).
  destruct (copy_loop_run COPY_BUFSIZE h dst w old COPY_BUFSIZE_pos Hcl Hdst)
    as (-> & -> & -> & _).
  done.
Qed.

Lemma chunk_size_is_no_contract_witness :
  0 < 1 ∧
  closed (streams Demo.stored0 1) = false ∧
  fs Demo.stored0 !! (Demo.loc0 ++ ["a.txt"]) = Some (File (Demo.bytes "hello")) ∧
  (copy_loop 1 1 (Demo.loc0 ++ ["a.txt"]) Demo.stored0).1
  = (copyfileobj 1 (Demo.loc0 ++ ["a.txt"]) Demo.stored0).1 ∧
  fs (copy_loop 1 1 (Demo.loc0 ++ ["a.txt"]) Demo.stored0).2
  = fs (copyfileobj 1 (Demo.loc0 ++ ["a.txt"]) Demo.stored0).2 ∧
  free (copy_loop 1 1 (Demo.loc0 ++ ["a.txt"]) Demo.stored0).2
  = free (copyfileobj 1 (Demo.loc0 ++ ["a.txt"]) Demo.stored0).2.
Proof.
  assert (closed (streams Demo.stored0 1) = false) as Hcl by (by vm_compute).
  assert (fs Demo.stored0 !! (Demo.loc0 ++ ["a.txt"])
          = Some (File (Demo.bytes "hello"))) as Hdst by (by vm_compute).
  split; [lia|]. split; [exact Hcl|]. split; [exact Hdst|].
  exact (chunk_size_is_no_contract 1 1 (Demo.loc0 ++ ["a.txt"]) Demo.stored0
           (Demo.bytes "hello") (Nat.lt_0_succ 0) Hcl Hdst).
Defined.

(** ** Uploads that are not stored *)

(** When the volume has no room for all the bytes of an upload, storing it
    raises [ENOSPC]; the destination is left with the bytes that fitted, the
    volume is full, and the stream is closed. *)
Theorem volume_full_keeps_what_fits (d : PurePath) (f : UploadFile) (w : world)
    (c : loc) :
  (open_wb (joinpath d (filename f)) w).1 = inr c →
  closed (streams w (file f)) = false →
  free w + size_at (fs w) c < length (unread (streams w (file f))) →
  (store_upload d f w).1 = inl (OSError "ENOSPC") ∧
  fs (store_upload d f w).2
  = <[c := File (take (free w + size_at (fs w) c) (unread (streams w (file f))))]>
      (fs w) ∧
  free (store_upload d f w).2 = 0 ∧
  closed (streams (store_upload d f w).2 (file f)) = true.
Proof.
  intros Hopen Hcl Hroom.
  destruct (store_upload_cases d f w)
    as [Hclosed [(e & He & _)|(c' & Hopen' & _ & _ & _ & _ & Hr & Hfs & Hfree & _)]].
  { by rewrite He in Hopen. }
  rewrite Hopen in Hopen'. injection Hopen' as <-.
  unfold copied, written in *. rewrite Hcl in *.
  rewrite decide_False in Hr by lia. rewrite length_take in Hfree.
  split_and!; [done..|lia|done].
Qed.

Lemma volume_full_keeps_what_fits_witness :
  (open_wb (joinpath Demo.dir0 (filename (mkUpload "b.csv" 1)))
     (store_upload Demo.dir0 (mkUpload "a.txt" 0)
        (make_request_dir (Demo.blank 6)).2).2).1
  = inr (Demo.loc0 ++ ["b.csv"]) ∧
  closed (streams (store_upload Demo.dir0 (mkUpload "a.txt" 0)
                     (make_request_dir (Demo.blank 6)).2).2
            (file (mkUpload "b.csv" 1))) = false ∧
  free (store_upload Demo.dir0 (mkUpload "a.txt" 0)
          (make_request_dir (Demo.blank 6)).2).2
  + size_at (fs (store_upload Demo.dir0 (mkUpload "a.txt" 0)
                   (make_request_dir (Demo.blank 6)).2).2)
      (Demo.loc0 ++ ["b.csv"])
  < length (unread (streams (store_upload Demo.dir0 (mkUpload "a.txt" 0)
                               (make_request_dir (Demo.blank 6)).2).2
                      (file (mkUpload "b.csv" 1)))) ∧
  (store_upload Demo.dir0 (mkUpload "b.csv" 1)
     (store_upload Demo.dir0 (mkUpload "a.txt" 0)
        (make_request_dir (Demo.blank 6)).2).2).1
  = inl (OSError "ENOSPC").
Proof.
  assert ((open_wb (joinpath Demo.dir0 (filename (mkUpload "b.csv" 1)))
             (store_upload Demo.dir0 (mkUpload "a.txt" 0)
                (make_request_dir (Demo.blank 6)).2).2).1
          = inr (Demo.loc0 ++ ["b.csv"])) as Hopen by (by vm_compute).
  assert (closed (streams (store_upload Demo.dir0 (mkUpload "a.txt" 0)
                             (make_request_dir (Demo.blank 6)).2).2
                    (file (mkUpload "b.csv" 1))) = false) as Hcl
    by (by vm_compute).
  assert (free (store_upload Demo.dir0 (mkUpload "a.txt" 0)
                  (make_request_dir (Demo.blank 6)).2).2
          + size_at (fs (store_upload Demo.dir0 (mkUpload "a.txt" 0)
                           (make_request_dir (Demo.blank 6)).2).2)
              (Demo.loc0 ++ ["b.csv"])
          < length (unread (streams (store_upload Demo.dir0 (mkUpload "a.txt" 0)
                                       (make_request_dir (Demo.blank 6)).2).2
                              (file (mkUpload "b.csv" 1))))) as Hroom
    by (apply Nat.ltb_lt; vm_compute; reflexivity).
  split; [exact Hopen|]. split; [exact Hcl|]. split; [exact Hroom|].
  exact (proj1 (volume_full_keeps_what_fits Demo.dir0 (mkUpload "b.csv" 1)
                  (store_upload Demo.dir0 (mkUpload "a.txt" 0)
                     (make_request_dir (Demo.blank 6)).2).2
                  (Demo.loc0 ++ ["b.csv"]) Hopen Hcl Hroom)).
Defined.

(** An upload whose stream was closed before its turn: the destination is
    opened all the same, so it is left as an empty file, whatever it held,
    and reading the stream raises. *)
Theorem closed_stream_leaves_empty_file (d : PurePath) (f : UploadFile)
    (w : world) (c : loc) :
  (open_wb (joinpath d (filename f)) w).1 = inr c →
  closed (streams w (file f)) = true →
  (store_upload d f w).1 = inl (ValueError "I/O operation on closed file") ∧
  fs (store_upload d f w).2 = <[c := File []]> (fs w) ∧
  trace (store_upload d f w).2 = trace w ++ [EvOpen c; EvClose (file f)].
Proof.
  intros Hopen Hcl.
  destruct (store_upload_cases d f w)
    as [_ [(e & He & _)|(c' & Hopen' & _ & _ & _ & _ & Hr & Hfs & _ & Htr)]].
  { by rewrite He in Hopen. }
  rewrite Hopen in Hopen'. injection Hopen' as <-.
  unfold copied, written in *. rewrite Hcl in *. done.
Qed.

Lemma closed_stream_leaves_empty_file_witness :
  (open_wb (joinpath Demo.dir0 (filename (mkUpload "late.txt" 2))) Demo.made0).1
  = inr (Demo.loc0 ++ ["late.txt"]) ∧
  closed (streams Demo.made0 (file (mkUpload "late.txt" 2))) = true ∧
  (store_upload Demo.dir0 (mkUpload "late.txt" 2) Demo.made0).1
  = inl (ValueError "I/O operation on closed file") ∧
  fs (store_upload Demo.dir0 (mkUpload "late.txt" 2) Demo.made0).2
  = <[Demo.loc0 ++ ["late.txt"] := File []]> (fs Demo.made0) ∧
  trace (store_upload Demo.dir0 (mkUpload "late.txt" 2) Demo.made0).2
  = trace Demo.made0
    ++ [EvOpen (Demo.loc0 ++ ["late.txt"]); EvClose (file (mkUpload "late.txt" 2))].
Proof.
  assert ((open_wb (joinpath Demo.dir0 (filename (mkUpload "late.txt" 2)))
             Demo.made0).1 = inr (Demo.loc0 ++ ["late.txt"])) as Hopen
    by (by vm_compute).
  assert (closed (streams Demo.made0 (file (mkUpload "late.txt" 2))) = true)
    as Hcl by (by vm_compute).
  split; [exact Hopen|]. split; [exact Hcl|].
  exact (closed_stream_leaves_empty_file Demo.dir0 (mkUpload "late.txt" 2)
           Demo.made0 (Demo.loc0 ++ ["late.txt"]) Hopen Hcl).
Defined.

(** When the open of the destination raises, that is what storing the
    upload raises; nothing is written, and the stream is closed. *)
Theorem failed_open_writes_nothing (d : PurePath) (f : UploadFile) (w : world)
    (e : exn) :
  (open_wb (joinpath d (filename f)) w).1 = inl e →
  (store_upload d f w).1 = inl e ∧
  fs (store_upload d f w).2 = fs w ∧
  free (store_upload d f w).2 = free w ∧
  closed (streams (store_upload d f w).2 (file f)) = true ∧
  trace (store_upload d f w).2 = trace w ++ [EvClose (file f)].
Proof.
  intros Hopen.
  destruct (store_upload_cases d f w)
    as [Hcl [(e' & He & _ & Hr & Hfs & Hfree & Htr)|(c & Hopen' & _)]].
  - rewrite He in Hopen. injection Hopen as ->. done.
  - by rewrite Hopen in Hopen'.
Qed.

(** An upload without a name: the join is the request directory itself,
    which cannot be opened for writing. *)
Lemma failed_open_writes_nothing_witness :
  (open_wb (joinpath Demo.dir0 (filename (mkUpload "" 0))) Demo.made0).1
  = inl IsADirectoryError ∧
  (store_upload Demo.dir0 (mkUpload "" 0) Demo.made0).1 = inl IsADirectoryError ∧
  fs (store_upload Demo.dir0 (mkUpload "" 0) Demo.made0).2 = fs Demo.made0 ∧
  free (store_upload Demo.dir0 (mkUpload "" 0) Demo.made0).2 = free Demo.made0 ∧
  closed (streams (store_upload Demo.dir0 (mkUpload "" 0) Demo.made0).2
            (file (mkUpload "" 0))) = true ∧
  trace (store_upload Demo.dir0 (mkUpload "" 0) Demo.made0).2
  = trace Demo.made0 ++ [EvClose (file (mkUpload "" 0))].
Proof.
  assert ((open_wb (joinpath Demo.dir0 (filename (mkUpload "" 0))) Demo.made0).1
          = inl IsADirectoryError) as Hopen by (by vm_compute).
  split; [exact Hopen|].
  exact (failed_open_writes_nothing Demo.dir0 (mkUpload "" 0) Demo.made0
           IsADirectoryError Hopen).
Defined.

(** ** Streams of other uploads *)

Lemma keeps_streams_makedirs_rev r rparts :
  preserves (keeps streams) (makedirs_rev r rparts).
Proof.
  assert (∀ p, preserves (keeps streams) (os_mkdir p)) as Hmk.
  { intros p w r' w'. unfold os_mkdir.
    destruct (resolve w p) as [e|c]; [by intros [= <- <-]|].
    destruct (lookup_node (fs w) c), (denied w c); by intros [= <- <-]. }
  induction rparts as [|tail rhead IH]; simpl; [apply Hmk|].
  apply (preserves_bind (keeps streams)); [|intros _; apply Hmk].
  case_bool_decide; [apply (preserves_ret (keeps streams))|].
  apply (preserves_bind (keeps streams)).
  - intros w r' w'. unfold os_path_exists.
    destruct (resolve w _); by intros [= <- <-].
  - intros []; [apply (preserves_ret (keeps streams))|].
    by apply (preserves_except (keeps streams)).
Qed.

Lemma keeps_stream_store_upload h d f :
  h ≠ file f → preserves (keeps (λ w, streams w h)) (store_upload d f).
Proof.
  intros Hh. unfold store_upload, with_open_wb.
  apply (preserves_try_finally (keeps (λ w, streams w h))).
  - apply (preserves_bind (keeps (λ w, streams w h))).
    + intros w r w' [(e & _ & ->)|(c & _ & _ & _ & _ & _ & _ & Hst & _)]%open_wb_run;
        unfold keeps; [done|by rewrite Hst].
    + intros c. apply (preserves_try_finally (keeps (λ w, streams w h)));
        [|apply (preserves_ret (keeps (λ w, streams w h)))].
      apply (preserves_copy_loop (keeps (λ w, streams w h))).
      * intros w r w'. unfold stream_read, keeps.
        destruct (closed (streams w (file f))); intros [= <- <-]; [done|].
        cbn. by rewrite fn_lookup_insert_ne.
      * intros buf w r w' Hw%buffer_write_streams. unfold keeps. by rewrite Hw.
  - intros w r w' [= <- <-]. unfold keeps. cbn. by rewrite fn_lookup_insert_ne.
Qed.

Section OtherStreams.

Context `{FileCheckerLib}.

(** A call reads and closes the streams of its uploads and no others: a
    stream that belongs to none of them is as it was, however the call
    ends. *)
Theorem other_streams_untouched (files : list UploadFile) (w : world)
    (h : handle) :
  h ∉ file <$> files →
  streams (check_file_list files w).2 h = streams w h.
Proof.
  intros Hh. rewrite check_file_list_phases. unfold bind.
  destruct (make_request_dir w) as [r1 w1] eqn:Hmk.
  assert (streams w1 = streams w) as Hst1.
  { rewrite make_request_dir_unfold in Hmk.
    destruct (os_makedirs _ _) as [r0 w0] eqn:Hmd.
    apply keeps_streams_makedirs_rev in Hmd. unfold keeps in Hmd. cbn in Hmd.
    destruct r0 as [e|[]]; injection Hmk as _ <-; done. }
  destruct r1 as [e|d]; cbn [snd]; [by rewrite Hst1|].
  destruct (store_all d files w1) as [r2 w2] eqn:Hstore.
  assert (streams w2 h = streams w1 h) as Hst2.
  { clear Hmk Hst1. revert w1 Hstore.
    induction files as [|f files IH]; intros w1; [by intros [= _ <-]|].
    rewrite fmap_cons in Hh. apply not_elem_of_cons in Hh as [Hf Hh].
    rewrite store_all_cons.
    destruct (store_upload d f w1) as [[e|[]] w0] eqn:Hup;
      apply (keeps_stream_store_upload h) in Hup; try done; unfold keeps in Hup.
    - intros [= _ <-]. done.
    - intros Hrest%IH; [|done]. by rewrite Hrest. }
  destruct r2 as [e|[]]; cbn [snd]; [by rewrite Hst2, Hst1|].
  destruct (validate d w2) as [r3 w3] eqn:Hval.
  apply validate_run in Hval as (_ & Hst3 & _). cbn [snd].
  by rewrite Hst3, Hst2, Hst1.
Qed.

End OtherStreams.

Lemma other_streams_untouched_witness :
  2 ∉ file <$> Demo.two_files ∧
  streams (@check_file_list Demo.sizes Demo.two_files (Demo.blank 1000)).2 2
  = streams (Demo.blank 1000) 2.
Proof.
  assert (2 ∉ file <$> Demo.two_files) as Hh.
  { intros [Heq|[Heq|Hin%elem_of_nil]%elem_of_cons]%elem_of_cons;
      [discriminate Heq|discriminate Heq|exact Hin]. }
  split; [exact Hh|].
  exact (@other_streams_untouched Demo.sizes Demo.two_files (Demo.blank 1000) 2 Hh).
Defined.

(** ** A request without uploads *)

Section NoUploads.

Context `{FileCheckerLib}.

(** A call without uploads that returns has made the request directory,
    left it empty, and handed the checker an empty enumeration. *)
Theorem empty_request_checks_nothing (w : world) (r : gmap string report)
    (w' : world) :
  fs_wf (fs w) →
  check_file_list [] w = (inr r, w') →
  list.last (trace w') = Some (EvCheckFiles [] "bodc") ∧
  fs w' !! request_loc (next_uuid w) = Some Dir ∧
  listdir (fs w') (request_loc (next_uuid w)) = [].
Proof.
  intros Hwf Hrun. pose proof Hrun as (evs & Htr)%check_file_list_checks.
  apply check_file_list_ok in Hrun as (w1 & w2 & Hmk & [= <-] & Hval).
  apply make_request_dir_ok in Hmk as (_ & _ & _ & Hdir & Hempty).
  apply validate_run in Hval as (Hfs & _).
  rewrite Hfs, Hempty in * by done. split_and!; [|done..].
  rewrite Htr. cbn [fmap list_fmap]. by rewrite !last_app.
Qed.

End NoUploads.

Lemma empty_request_checks_nothing_witness :
  fs_wf (fs (Demo.blank 1000)) ∧
  @check_file_list Demo.sizes [] (Demo.blank 1000)
  = (inr {["results" := []]},
     (@check_file_list Demo.sizes [] (Demo.blank 1000)).2) ∧
  list.last (trace (@check_file_list Demo.sizes [] (Demo.blank 1000)).2)
  = Some (EvCheckFiles [] "bodc") ∧
  fs (@check_file_list Demo.sizes [] (Demo.blank 1000)).2
    !! request_loc (next_uuid (Demo.blank 1000)) = Some Dir ∧
  listdir (fs (@check_file_list Demo.sizes [] (Demo.blank 1000)).2)
    (request_loc (next_uuid (Demo.blank 1000))) = [].
Proof.
  assert (@check_file_list Demo.sizes [] (Demo.blank 1000)
          = (inr {["results" := []]},
             (@check_file_list Demo.sizes [] (Demo.blank 1000)).2)) as Hrun.
  { refine (run_eq (@check_file_list Demo.sizes []) (Demo.blank 1000)
              (inr {["results" := []]}) _).
    vm_compute. reflexivity. }
  split; [exact fs_wf_empty|]. split; [exact Hrun|].
  exact (@empty_request_checks_nothing Demo.sizes (Demo.blank 1000)
           {["results" := []]}
           (@check_file_list Demo.sizes [] (Demo.blank 1000)).2
           fs_wf_empty Hrun).
Defined.

(** ** Plain names stay inside *)

Lemma store_upload_inside r D f w c :
  r ≠ NoRoot → Forall (λ x, canonical_name x = true) D →
  plain_name (filename f) = true → c ≠ D ++ [filename f] →
  fs (store_upload (mkPath r D) f w).2 !! c = fs w !! c.
Proof.
  intros Hr HD Hplain Hc.
  destruct (store_upload_cases (mkPath r D) f w)
    as [_ [(e & _ & _ & _ & -> & _)|(c' & _ & Hres & _ & _ & _ & _ & -> & _)]];
    [done|].
  rewrite joinpath_plain in Hres by done. cbn [root parts] in Hres.
  apply resolve_plain in Hres as [-> _]; [|done..].
  by rewrite lookup_insert_ne.
Qed.

Lemma store_all_inside r D files w c :
  r ≠ NoRoot → Forall (λ x, canonical_name x = true) D →
  Forall (λ f, plain_name (filename f) = true) files →
  (∀ f, f ∈ files → c ≠ D ++ [filename f]) →
  fs (store_all (mkPath r D) files w).2 !! c = fs w !! c.
Proof.
  intros Hr HD Hplain. revert w.
  induction Hplain as [|f files Hf _ IH]; intros w Hc; [done|].
  rewrite store_all_cons.
  pose proof (store_upload_inside r D f w c Hr HD Hf (Hc f ltac:(left))) as Hup.
  destruct (store_upload (mkPath r D) f w) as [[e|[]] w1]; cbn [snd] in *; [done|].
  rewrite IH; [done|]. intros g Hg. apply Hc. by right.
Qed.

(** Whatever comes of making the request directory, the tree differs only
    on the way down to it. *)
Lemma make_request_dir_inside w c :
  fs (make_request_dir w).2 !! c = fs w !! c ∨
  c `prefix_of` request_loc (next_uuid w).
Proof.
  rewrite make_request_dir_unfold.
  destruct (os_makedirs _ _) as [r0 w0] eqn:Hmd.
  rewrite request_dir_loc in Hmd. unfold os_makedirs in Hmd. cbn [root parts] in Hmd.
  apply made_makedirs_rev in Hmd as [Hmade _]; [|done|].
  2:{ apply Forall_rev, request_loc_canonical. }
  rewrite rev_involutive in Hmade.
  destruct (md_fs _ _ _ Hmade c) as [Heq|(_ & _ & Hpre)].
  - left. by destruct r0 as [e|[]].
  - by right.
Qed.

Section Inside.

Context `{FileCheckerLib}.

(** When every upload has a plain name, a call changes the tree in the
    request directory and on the way down to it, and nowhere else: a
    location that is neither an entry of the request directory named like an
    upload nor a directory above it holds after the call what it held
    before, however the call ends. *)
Theorem plain_names_stay_inside (files : list UploadFile) (w : world) (c : loc) :
  Forall (λ f, plain_name (filename f) = true) files →
  fs (check_file_list files w).2 !! c ≠ fs w !! c →
  c `prefix_of` request_loc (next_uuid w) ∨
  ∃ f, f ∈ files ∧ c = request_loc (next_uuid w) ++ [filename f].
Proof.
  intros Hplain Hdiff.
  destruct (decide (c `prefix_of` request_loc (next_uuid w))) as [|Hpre]; [by left|].
  right.
  destruct (decide (Exists (λ f, c = request_loc (next_uuid w) ++ [filename f]) files))
    as [(f & Hf & ->)%list.Exists_exists|Hnone]; [by exists f|].
  exfalso. apply Hdiff. clear Hdiff.
  rewrite <- Forall_Exists_neg, list.Forall_forall in Hnone.
  rewrite check_file_list_phases. unfold bind.
  destruct (make_request_dir_inside w c) as [Hmk|]; [|done].
  destruct (make_request_dir w) as [[e|d] w1] eqn:Hrun; [done|].
  pose proof Hrun as (-> & _)%make_request_dir_ok. cbn [snd] in Hmk.
  pose proof (store_all_inside Slash (request_loc (next_uuid w)) files w1 c
                ltac:(done) (request_loc_canonical _) Hplain Hnone) as Hstore.
  destruct (store_all _ files w1) as [[e|[]] w2]; cbn [snd] in *; [congruence|].
  destruct (validate _ w2) as [r3 w3] eqn:Hval.
  apply validate_run in Hval as (Hfs & _). cbn [snd]. rewrite Hfs. congruence.
Qed.

End Inside.

Lemma plain_names_stay_inside_witness :
  Forall (λ f, plain_name (filename f) = true) Demo.two_files ∧
  fs (@check_file_list Demo.sizes Demo.two_files (Demo.blank 1000)).2
    !! (Demo.loc0 ++ ["b.csv"])
  ≠ fs (Demo.blank 1000) !! (Demo.loc0 ++ ["b.csv"]) ∧
  (Demo.loc0 ++ ["b.csv"] `prefix_of` request_loc (next_uuid (Demo.blank 1000)) ∨
   ∃ f, f ∈ Demo.two_files ∧
        Demo.loc0 ++ ["b.csv"]
        = request_loc (next_uuid (Demo.blank 1000)) ++ [filename f]).
Proof.
  assert (Forall (λ f, plain_name (filename f) = true) Demo.two_files) as Hplain
    by (by repeat constructor).
  assert (fs (@check_file_list Demo.sizes Demo.two_files (Demo.blank 1000)).2
            !! (Demo.loc0 ++ ["b.csv"])
          ≠ fs (Demo.blank 1000) !! (Demo.loc0 ++ ["b.csv"])) as Hdiff
    by (by vm_compute).
  split; [exact Hplain|]. split; [exact Hdiff|].
  exact (@plain_names_stay_inside Demo.sizes Demo.two_files (Demo.blank 1000)
           (Demo.loc0 ++ ["b.csv"]) Hplain Hdiff).
Defined.

(** ** A request directory that is there already *)

Lemma dashed_length a :
  String.length a = 32 → String.length (UUID.dashed a) = 36.
Proof.
  intros Ha.
  do 32 (destruct a as [|? a]; [discriminate Ha|]); destruct a; [|discriminate Ha].
  reflexivity.
Qed.

Lemma uuid_str_length u : String.length (UUID.str u) = 36.
Proof.
  unfold UUID.str. apply dashed_length. unfold UUID.hex32.
  by rewrite length_hex_acc.
Qed.

(** In a well-formed tree the walk to an entry goes through. *)
Lemma namei_present t c :
  fs_wf t → Forall (λ x, canonical_name x = true) c →
  Forall (λ x, too_long x = false) c →
  is_Some (lookup_node t c) → namei t [] c = inr c.
Proof.
  intros Hwf. induction c as [|x c IH] using rev_ind; intros Hcan Hlen Hc; [done|].
  apply Forall_app in Hcan as [Hcan Hx]. apply Forall_app in Hlen as [Hlen Hlx].
  inversion_clear Hx as [|? ? Hx' _]. inversion_clear Hlx as [|? ? Hlx' _].
  assert (lookup_node t c = Some Dir) as Hdir.
  { rewrite lookup_node_ne in Hc by (by destruct c).
    apply Hwf in Hc. rewrite parent_snoc in Hc. unfold is_dir in Hc.
    by destruct (lookup_node t c) as [[|?]|]. }
  rewrite namei_app, IH by (done || by rewrite Hdir). cbn [namei].
  rewrite Hdir, Hlx'. unfold canonical_name in Hx'.
  by apply andb_true_iff in Hx' as [->%negb_true_iff ->%negb_true_iff].
Qed.

Lemma request_loc_short u :
  Forall (λ x, too_long x = false) (request_loc u) ∧
  (PATH_MAX <=? path_length (mkPath Slash (request_loc u))) = false ∧
  (PATH_MAX <=? path_length (mkPath Slash ["home"; "app"; "input"])) = false.
Proof.
  split_and!; [|unfold path_length, request_loc; cbn [root parts foldr];
                 rewrite uuid_str_length; reflexivity|reflexivity].
  unfold request_loc. repeat apply Forall_cons; try apply Forall_nil;
    try reflexivity.
Qed.

Lemma make_request_dir_taken w nd :
  fs_wf (fs w) → fs w !! request_loc (next_uuid w) = Some nd →
  make_request_dir w = (inl FileExistsError, set_drawn (S (drawn w)) w).
Proof.
  intros Hwf Hnd. rewrite make_request_dir_unfold.
  set (w0 := set_drawn (S (drawn w)) w).
  destruct (request_loc_short (next_uuid w)) as (Hshort & Hlen & Hlen').
  pose proof (request_loc_canonical (next_uuid w)) as Hcan.
  assert (resolve w0 (mkPath Slash (request_loc (next_uuid w)))
          = inr (request_loc (next_uuid w))) as Hres.
  { unfold resolve. rewrite Hlen. cbn [start root parts].
    apply namei_present; [done..|]. unfold w0. cbn [fs set_drawn].
    rewrite lookup_node_ne by done. by rewrite Hnd. }
  assert (resolve w0 (mkPath Slash ["home"; "app"; "input"])
          = inr ["home"; "app"; "input"]) as Hres'.
  { unfold resolve. rewrite Hlen'. cbn [start root parts].
    apply resolve_namei in Hres. cbn [start root parts] in Hres.
    change (request_loc (next_uuid w))
      with (["home"; "app"; "input"] ++ [UUID.str (next_uuid w)]) in Hres.
    apply namei_snoc_inv in Hres as (d & Hd & _ & Heq).
    pose proof Hd as ->%namei_lexical. exact Hd. }
  assert (lookup_node (fs w0) ["home"; "app"; "input"] = Some Dir) as Hdir'.
  { apply resolve_namei in Hres. cbn [start root parts] in Hres.
    change (request_loc (next_uuid w))
      with (["home"; "app"; "input"] ++ [UUID.str (next_uuid w)]) in Hres.
    apply namei_snoc_inv in Hres as (d & Hd & Hdir & _).
    by pose proof Hd as ->%namei_lexical. }
  rewrite request_dir_loc. unfold os_makedirs. cbn [root parts].
  change (rev (request_loc (next_uuid w)))
    with (UUID.str (next_uuid w) :: rev ["home"; "app"; "input"]).
  cbn [makedirs_rev].
  change (rev (UUID.str (next_uuid w) :: rev ["home"; "app"; "input"]))
    with (request_loc (next_uuid w)).
  change (rev (rev ["home"; "app"; "input"])) with ["home"; "app"; "input"].
  rewrite bool_decide_false by (by intros [? _]).
  unfold bind, os_path_exists, os_mkdir, ret. rewrite Hres', Hdir'.
  rewrite bool_decide_true by done. cbv beta iota. rewrite Hres.
  rewrite lookup_node_ne by done. unfold w0. cbn [fs set_drawn]. by rewrite Hnd.
Qed.

Section Taken.

Context `{FileCheckerLib}.

(** When the directory of the identifier that is drawn exists already, the
    call raises [FileExistsError] and has done nothing but draw the
    identifier: no upload is opened, written or closed, and the checker is
    not called. *)
Theorem request_directory_taken (files : list UploadFile) (w : world)
    (nd : node) :
  fs_wf (fs w) → fs w !! request_loc (next_uuid w) = Some nd →
  check_file_list files w = (inl FileExistsError, set_drawn (S (drawn w)) w).
Proof.
  intros Hwf Hnd. rewrite check_file_list_phases. unfold bind.
  by rewrite (make_request_dir_taken w nd).
Qed.

End Taken.

(** A random source that gives the same value again: the second call
    finds the directory of the first. *)
Lemma request_directory_taken_witness :
  fs_wf (fs (set_drawn 0 Demo.made0)) ∧
  fs (set_drawn 0 Demo.made0) !! request_loc (next_uuid (set_drawn 0 Demo.made0))
  = Some Dir ∧
  @check_file_list Demo.sizes Demo.two_files (set_drawn 0 Demo.made0)
  = (inl FileExistsError,
     set_drawn (S (drawn (set_drawn 0 Demo.made0))) (set_drawn 0 Demo.made0)).
Proof.
  assert (fs_wf (fs (set_drawn 0 Demo.made0))) as Hwf.
  { assert (make_request_dir (Demo.blank 1000) = (inr Demo.dir0, Demo.made0)) as Hmk.
    { unfold Demo.made0.
      refine (run_eq make_request_dir (Demo.blank 1000) (inr Demo.dir0) _).
      vm_compute. reflexivity. }
    apply make_request_dir_ok in Hmk as (_ & Hmade & _).
    apply (md_wf _ _ _ Hmade). exact fs_wf_empty. }
  assert (fs (set_drawn 0 Demo.made0)
            !! request_loc (next_uuid (set_drawn 0 Demo.made0)) = Some Dir) as Hnd
    by (by vm_compute).
  split; [exact Hwf|]. split; [exact Hnd|].
  exact (@request_directory_taken Demo.sizes Demo.two_files
           (set_drawn 0 Demo.made0) Dir Hwf Hnd).
Defined.

(** ** A name that is too long *)

(** An upload whose plain name is longer than an entry's name may be: the
    open is refused, nothing is written, and the stream is closed. *)
Theorem long_name_is_refused (r : root_t) (D : list string) (f : UploadFile)
    (w : world) (c : loc) :
  r ≠ NoRoot → has_nul (mkPath r D) = false →
  plain_name (filename f) = true → too_long (filename f) = true →
  resolve w (mkPath r D) = inr c → lookup_node (fs w) c = Some Dir →
  (store_upload (mkPath r D) f w).1 = inl (OSError "ENAMETOOLONG") ∧
  fs (store_upload (mkPath r D) f w).2 = fs w ∧
  closed (streams (store_upload (mkPath r D) f w).2 (file f)) = true.
Proof.
  intros Hr Hnul Hplain Hlong Hres Hdir.
  assert ((open_wb (joinpath (mkPath r D) (filename f)) w).1
          = inl (OSError "ENAMETOOLONG")) as Hopen.
  { unfold open_wb. rewrite joinpath_plain by done. cbn [root parts].
    assert (has_nul (mkPath r (D ++ [filename f])) = false) as ->.
    { unfold has_nul in *. cbn [parts] in *. rewrite existsb_app, Hnul.
      cbn [existsb orb].
      apply plain_name_spec in Hplain as (_ & _ & _ & _ & ->). done. }
    unfold resolve. destruct (PATH_MAX <=? path_length _); [done|].
    apply resolve_namei in Hres. unfold start in *. cbn [root parts] in *.
    rewrite namei_app, Hres. cbn [namei]. by rewrite Hdir, Hlong. }
  destruct (store_upload_cases (mkPath r D) f w)
    as [Hcl [(e' & He & _ & Hr' & Hfs & _)|(c' & Hopen' & _)]].
  - rewrite He in Hopen. injection Hopen as ->. done.
  - by rewrite Hopen in Hopen'.
Qed.

Lemma long_name_is_refused_witness :
  Slash ≠ NoRoot ∧
  has_nul (mkPath Slash Demo.loc0) = false ∧
  plain_name (filename (mkUpload (String.concat "" (replicate 64 "name")) 0))
  = true ∧
  too_long (filename (mkUpload (String.concat "" (replicate 64 "name")) 0))
  = true ∧
  resolve Demo.made0 (mkPath Slash Demo.loc0) = inr Demo.loc0 ∧
  lookup_node (fs Demo.made0) Demo.loc0 = Some Dir ∧
  (store_upload (mkPath Slash Demo.loc0)
     (mkUpload (String.concat "" (replicate 64 "name")) 0) Demo.made0).1
  = inl (OSError "ENAMETOOLONG") ∧
  fs (store_upload (mkPath Slash Demo.loc0)
        (mkUpload (String.concat "" (replicate 64 "name")) 0) Demo.made0).2
  = fs Demo.made0 ∧
  closed (streams (store_upload (mkPath Slash Demo.loc0)
                     (mkUpload (String.concat "" (replicate 64 "name")) 0)
                     Demo.made0).2
            (file (mkUpload (String.concat "" (replicate 64 "name")) 0)))
  = true.
Proof.
  assert (Slash ≠ NoRoot) as Hr by done.
  assert (has_nul (mkPath Slash Demo.loc0) = false) as Hnul by (by vm_compute).
  assert (plain_name
            (filename (mkUpload (String.concat "" (replicate 64 "name")) 0))
          = true) as Hplain by (by vm_compute).
  assert (too_long
            (filename (mkUpload (String.concat "" (replicate 64 "name")) 0))
          = true) as Hlong by (by vm_compute).
  assert (resolve Demo.made0 (mkPath Slash Demo.loc0) = inr Demo.loc0) as Hres
    by (by vm_compute).
  assert (lookup_node (fs Demo.made0) Demo.loc0 = Some Dir) as Hdir
    by (by vm_compute).
  split; [exact Hr|]. split; [exact Hnul|]. split; [exact Hplain|].
  split; [exact Hlong|]. split; [exact Hres|]. split; [exact Hdir|].
  exact (long_name_is_refused Slash Demo.loc0
           (mkUpload (String.concat "" (replicate 64 "name")) 0) Demo.made0
           Demo.loc0 Hr Hnul Hplain Hlong Hres Hdir).
Defined.
